(** * FaultTolerantKVService: the replicated key/value server

    A shallow embedding of [kvserver] (the request coordinator, the apply
    pump, the snapshot manager and start-up configuration) together with the
    part of Go's [encoding/json] and [unicode/utf8] that the snapshot code
    calls, and the properties of the design document stated over it. *)

From Stdlib Require Import ZArith NArith Ascii String List Bool Lia.
From stdpp Require Import base option list gmap strings fin_maps sorting.

Local Open Scope string_scope.
Local Open Scope Z_scope.

(** ** Go integers

    [int] and [int64] are 64-bit two's complement on the platforms the
    service is built for; arithmetic wraps around silently. *)
Module GoInt.

Definition MinInt64 : Z := - 2 ^ 63.
Definition MaxInt64 : Z := 2 ^ 63 - 1.

Definition in_range (z : Z) : Prop := MinInt64 <= z <= MaxInt64.

Definition in_rangeb (z : Z) : bool := (MinInt64 <=? z) && (z <=? MaxInt64).

(** Reduce a mathematical integer to the value a 64-bit register holds. *)
Definition wrap (z : Z) : Z := (z + 2 ^ 63) mod 2 ^ 64 - 2 ^ 63.

Definition add (a b : Z) : Z := wrap (a + b).
Definition mul (a b : Z) : Z := wrap (a * b).




Lemma in_rangeb_spec z : in_rangeb z = true <-> in_range z.
Proof. unfold in_rangeb, in_range. rewrite andb_true_iff, !Z.leb_le. reflexivity. Qed.

End GoInt.

(** ** Bytes and Go strings

    A Go string is a sequence of bytes; [string] (a list of [ascii], each
    eight bits) is exactly that. *)
Definition b2z (c : ascii) : Z := Z.of_N (N_of_ascii c).
Definition z2b (z : Z) : ascii := ascii_of_N (Z.to_N z).

Fixpoint string_of_bytes (l : list Z) : string :=
  match l with
  | [] => EmptyString
  | b :: t => String (z2b b) (string_of_bytes t)
  end.

(** ** unicode/utf8 *)
Module utf8.

Definition RuneError : Z := 65533.   (* U+FFFD *)
Definition RuneSelf : Z := 128.
Definition MaxRune : Z := 1114111.   (* U+10FFFF *)
Definition UTFMax : nat := 4.

Definition surrogateMin : Z := 55296. (* 0xD800 *)
Definition surrogateMax : Z := 57343. (* 0xDFFF *)

(** The table [first]: information about the first byte of an encoding.
    [240] ([as]) is ASCII, [241] ([xx]) is invalid; otherwise the low
    three bits give the size and the high four the index into
    [acceptRanges]. *)
Definition first (p0 : Z) : Z :=
  if p0 <? 128 then 240
  else if p0 <? 194 then 241
  else if p0 <? 224 then 2        (* s1: C2..DF *)
  else if p0 =? 224 then 19       (* s2: E0 *)
  else if p0 <? 237 then 3        (* s3: E1..EC *)
  else if p0 =? 237 then 35       (* s4: ED *)
  else if p0 <? 240 then 3        (* s3: EE..EF *)
  else if p0 =? 240 then 52       (* s5: F0 *)
  else if p0 <? 244 then 4        (* s6: F1..F3 *)
  else if p0 =? 244 then 68       (* s7: F4 *)
  else 241.

Definition locb : Z := 128.
Definition hicb : Z := 191.

Definition acceptRanges (i : Z) : Z * Z :=
  if i =? 0 then (locb, hicb)
  else if i =? 1 then (160, hicb)
  else if i =? 2 then (locb, 159)
  else if i =? 3 then (144, hicb)
  else if i =? 4 then (locb, 143)
  else (0, 0).

Definition outside (lo hi b : Z) : bool := (b <? lo) || (hi <? b).

(** [DecodeRune p] is the first rune of [p] and its width in bytes;
    [(RuneError, 1)] marks an invalid encoding, [(RuneError, 0)] the
    empty input. *)
Definition DecodeRune (p : string) : Z * nat :=
  match p with
  | EmptyString => (RuneError, 0%nat)
  | String c0 p1 =>
    let p0 := b2z c0 in
    let x := first p0 in
    if 240 <=? x then ((if x =? 240 then p0 else RuneError), 1%nat)
    else
      let sz := Z.land x 7 in
      let '(lo, hi) := acceptRanges (Z.shiftr x 4) in
      match p1 with
      | EmptyString => (RuneError, 1%nat)
      | String c1 p2 =>
        let b1 := b2z c1 in
        if (sz <=? 2) then
          if outside lo hi b1 then (RuneError, 1%nat)
          else (Z.lor (Z.shiftl (Z.land p0 31) 6) (Z.land b1 63), 2%nat)
        else
          match p2 with
          | EmptyString => (RuneError, 1%nat)
          | String c2 p3 =>
            let b2 := b2z c2 in
            if (sz <=? 3) then
              if outside lo hi b1 || outside locb hicb b2 then (RuneError, 1%nat)
              else (Z.lor (Z.lor (Z.shiftl (Z.land p0 15) 12)
                                 (Z.shiftl (Z.land b1 63) 6))
                          (Z.land b2 63), 3%nat)
            else
              match p3 with
              | EmptyString => (RuneError, 1%nat)
              | String c3 _ =>
                let b3 := b2z c3 in
                if outside lo hi b1 || outside locb hicb b2
                   || outside locb hicb b3 then (RuneError, 1%nat)
                else (Z.lor (Z.lor (Z.lor (Z.shiftl (Z.land p0 7) 18)
                                          (Z.shiftl (Z.land b1 63) 12))
                                   (Z.shiftl (Z.land b2 63) 6))
                            (Z.land b3 63), 4%nat)
              end
          end
      end
  end.

(** [EncodeRune r]: the UTF-8 encoding of [r]; surrogates and values out
    of range are written as U+FFFD. *)
Definition EncodeRune (r : Z) : string :=
  let three (r : Z) :=
    string_of_bytes [Z.lor 224 (Z.shiftr r 12);
                     Z.lor 128 (Z.land (Z.shiftr r 6) 63);
                     Z.lor 128 (Z.land r 63)] in
  if (0 <=? r) && (r <=? 127) then string_of_bytes [r]
  else if (0 <=? r) && (r <=? 2047) then
    string_of_bytes [Z.lor 192 (Z.shiftr r 6); Z.lor 128 (Z.land r 63)]
  else if (r <? 0) || (MaxRune <? r)
          || ((surrogateMin <=? r) && (r <=? surrogateMax))
  then three RuneError
  else if r <=? 65535 then three r
  else string_of_bytes [Z.lor 240 (Z.shiftr r 18);
                        Z.lor 128 (Z.land (Z.shiftr r 12) 63);
                        Z.lor 128 (Z.land (Z.shiftr r 6) 63);
                        Z.lor 128 (Z.land r 63)].

(** [ValidString s]: [s] consists entirely of valid UTF-8 encodings.
    [skip] counts the continuation bytes of the rune being crossed. *)
Fixpoint valid_go (skip : nat) (s : string) : bool :=
  match s with
  | EmptyString => true
  | String c t =>
    match skip with
    | S n => valid_go n t
    | O =>
      if b2z c <? RuneSelf then valid_go 0 t
      else
        let '(r, size) := DecodeRune s in
        if (r =? RuneError) && Nat.eqb size 1 then false
        else valid_go (Nat.pred size) t
    end
  end.

Definition ValidString (s : string) : bool := valid_go 0 s.

End utf8.

(** ** strconv *)
Module strconv.

Definition digit (n : Z) : ascii := z2b (48 + n).

(** [formatBits]: the decimal digits of [u], most significant first,
    produced from the least significant end as the Go loop does. *)
Fixpoint formatBits (fuel : nat) (u : Z) (acc : string) : string :=
  match fuel with
  | O => acc
  | S f =>
    let acc' := String (digit (u mod 10)) acc in
    if u <? 10 then acc' else formatBits f (u / 10) acc'
  end.

(** [FormatInt i 10]. Twenty digits hold every 64-bit magnitude. *)
Definition FormatInt (i : Z) : string :=
  if i <? 0 then String "-" (formatBits 20 (- i) EmptyString)
  else formatBits 20 i EmptyString.

Definition is_digit (c : ascii) : bool := (48 <=? b2z c) && (b2z c <=? 57).

(** The digit loop of [ParseUint s 10 64] without its overflow test:
    [None] on a byte that is not a decimal digit. *)
Fixpoint parseDigits (acc : Z) (s : string) : option Z :=
  match s with
  | EmptyString => Some acc
  | String c t =>
    if is_digit c then parseDigits (acc * 10 + (b2z c - 48)) t else None
  end.

(** [ParseInt s 10 64]: [None] stands for any error (syntax or range). *)
Definition ParseInt (s : string) : option Z :=
  match s with
  | EmptyString => None
  | String c t =>
    let '(neg, body) :=
      if Ascii.eqb c "+" then (false, t)
      else if Ascii.eqb c "-" then (true, t)
      else (false, s) in
    match body with
    | EmptyString => None
    | _ =>
      match parseDigits 0 body with
      | None => None
      | Some un =>
        if 2 ^ 64 <=? un then None
        else if negb neg && (2 ^ 63 <=? un) then None
        else if neg && (2 ^ 63 <? un) then None
        else Some (if neg then - un else un)
      end
    end
  end.

End strconv.

(** Results of fallible calls: a value, or the text of the error. *)
Inductive result (A : Type) : Type :=
| Ok (a : A)
| Err (msg : string).
Arguments Ok {A} a.
Arguments Err {A} msg.

Definition is_ok {A} (r : result A) : bool :=
  match r with Ok _ => true | Err _ => false end.

Definition dquote : ascii := "034"%char.
Definition backslash : ascii := "\"%char.

(** ** encoding/json

    The encoder and the stream decoder, for the three types the snapshot
    holds: [int64], [int] and [map[string]string]. The decoder works as the
    library does: a byte-level scanner finds where the next value of the
    stream ends, then the value's text is unmarshalled into the target. *)
Module json.

Definition hex (n : Z) : ascii :=
  if n <? 10 then z2b (48 + n) else z2b (87 + n).

(** [htmlSafeSet]: the ASCII bytes written as they are. *)
Definition htmlSafeSet (b : Z) : bool :=
  (32 <=? b) && (b <? 128)
  && negb ((b =? 34) || (b =? 38) || (b =? 60) || (b =? 62) || (b =? 92)).

(** The escape written for an ASCII byte outside [htmlSafeSet]. *)
Definition escape (b : Z) : string :=
  if (b =? 92) || (b =? 34) then String backslash (String (z2b b) EmptyString)
  else if b =? 8 then "\b"
  else if b =? 12 then "\f"
  else if b =? 10 then "\n"
  else if b =? 13 then "\r"
  else if b =? 9 then "\t"
  else "\u00" +:+ String (hex (Z.shiftr b 4)) (String (hex (Z.land b 15)) EmptyString).

(** The escape written in place of a byte that starts no valid encoding:
    that of U+FFFD. *)
Definition replacement : string := String backslash "ufffd".

(** Bytes of the rune just examined that are still ahead in the input:
    copied to the output, or dropped because an escape replaced them. *)
Inductive pending : Type :=
| Copy (n : nat)
| Drop (n : nat).

(** The body of [appendString] with [escapeHTML] set, as [Encoder] has it. *)
Fixpoint appendString_go (pend : pending) (src : string) : string :=
  match src with
  | EmptyString => EmptyString
  | String c t =>
    match pend with
    | Copy (S n) => String c (appendString_go (Copy n) t)
    | Drop (S n) => appendString_go (Drop n) t
    | _ =>
      let b := b2z c in
      if b <? utf8.RuneSelf then
        if htmlSafeSet b then String c (appendString_go (Copy 0) t)
        else escape b +:+ appendString_go (Copy 0) t
      else
        let '(r, size) := utf8.DecodeRune src in
        if (r =? utf8.RuneError) && Nat.eqb size 1 then
          replacement +:+ appendString_go (Copy 0) t
        else if (r =? 8232) || (r =? 8233) then
          "\u202" +:+ String (hex (Z.land r 15))
                             (appendString_go (Drop (Nat.pred size)) t)
        else String c (appendString_go (Copy (Nat.pred size)) t)
    end
  end.

Definition appendString (src : string) : string :=
  String dquote (appendString_go (Copy 0) src +:+ String dquote EmptyString).

(** Map keys are written in increasing byte order. *)
Definition key_le (a b : string * string) : bool := String.leb a.1 b.1.

Fixpoint insert_sorted (x : string * string) (l : list (string * string))
  : list (string * string) :=
  match l with
  | [] => [x]
  | y :: t => if key_le x y then x :: y :: t else y :: insert_sorted x t
  end.

Definition sort_keys (l : list (string * string)) : list (string * string) :=
  foldr insert_sorted [] l.

Fixpoint encode_members (first : bool) (l : list (string * string)) : string :=
  match l with
  | [] => EmptyString
  | (k, v) :: t =>
    (if first then EmptyString else ",")
    +:+ appendString k +:+ ":" +:+ appendString v +:+ encode_members false t
  end.

Definition encode_map (m : gmap string string) : string :=
  "{" +:+ encode_members true (sort_keys (map_to_list m)) +:+ "}".

Definition newline : string := String (z2b 10) EmptyString.

(** [Encoder.Encode]: the value followed by a newline. Neither an integer
    nor a map of strings can fail to encode. *)
Definition Encode_int (i : Z) : result string :=
  Ok (strconv.FormatInt i +:+ newline).

Definition Encode_map (m : gmap string string) : result string :=
  Ok (encode_map m +:+ newline).

(** *** The scanner *)

Inductive stepState : Type :=
| stateBeginValue | stateBeginValueOrEmpty | stateBeginStringOrEmpty
| stateBeginString | stateEndValue | stateEndTop
| stateInString | stateInStringEsc | stateInStringEscU
| stateInStringEscU1 | stateInStringEscU12 | stateInStringEscU123
| stateNeg | state1 | state0 | stateDot | stateDot0
| stateE | stateESign | stateE0
| stateT | stateTr | stateTru | stateF | stateFa | stateFal | stateFals
| stateN | stateNu | stateNul | stateError.

Inductive parseKind : Type :=
| parseObjectKey | parseObjectValue | parseArrayValue.

Inductive scanCode : Type :=
| scanContinue | scanBeginLiteral | scanBeginObject | scanObjectKey
| scanObjectValue | scanEndObject | scanBeginArray | scanArrayValue
| scanEndArray | scanSkipSpace | scanEnd | scanError.

(** The scanner: the current step function and the stack of open
    composite values, innermost first. *)
Record scanner : Type := Scanner { step : stepState; parseState : list parseKind }.

Definition maxNestingDepth : Z := 10000.

Definition isSpace (c : ascii) : bool :=
  let b := b2z c in (b =? 32) || (b =? 9) || (b =? 13) || (b =? 10).

Definition isc (c : ascii) (d : ascii) : bool := Ascii.eqb c d.

Definition isHex (c : ascii) : bool :=
  let b := b2z c in
  ((48 <=? b) && (b <=? 57)) || ((97 <=? b) && (b <=? 102))
  || ((65 <=? b) && (b <=? 70)).

Definition error (s : scanner) : scanner * scanCode :=
  (Scanner stateError (parseState s), scanError).

Definition goto (s : scanner) (st : stepState) (code : scanCode) : scanner * scanCode :=
  (Scanner st (parseState s), code).

Definition pushParseState (s : scanner) (st : stepState) (k : parseKind)
           (code : scanCode) : scanner * scanCode :=
  let ps := k :: parseState s in
  if Z.of_nat (length ps) <=? maxNestingDepth then (Scanner st ps, code)
  else error (Scanner st ps).

Definition do_stateEndTop (s : scanner) (c : ascii) : scanner * scanCode :=
  if isSpace c then (s, scanEnd)
  else (Scanner stateError (parseState s), scanEnd).

Definition popParseState (s : scanner) : scanner :=
  match parseState s with
  | [] => s
  | _ :: [] => Scanner stateEndTop []
  | _ :: ps => Scanner stateEndValue ps
  end.

Definition do_stateEndValue (s : scanner) (c : ascii) : scanner * scanCode :=
  match parseState s with
  | [] => do_stateEndTop (Scanner stateEndTop []) c
  | top :: ps =>
    if isSpace c then goto s stateEndValue scanSkipSpace
    else
      match top with
      | parseObjectKey =>
        if isc c ":" then (Scanner stateBeginValue (parseObjectValue :: ps), scanObjectKey)
        else error s
      | parseObjectValue =>
        if isc c "," then (Scanner stateBeginString (parseObjectKey :: ps), scanObjectValue)
        else if isc c "}" then (popParseState s, scanEndObject)
        else error s
      | parseArrayValue =>
        if isc c "," then goto s stateBeginValue scanArrayValue
        else if isc c "]" then (popParseState s, scanEndArray)
        else error s
      end
  end.

Definition do_stateBeginValue (s : scanner) (c : ascii) : scanner * scanCode :=
  if isSpace c then (s, scanSkipSpace)
  else if isc c "{" then pushParseState s stateBeginStringOrEmpty parseObjectKey scanBeginObject
  else if isc c "[" then pushParseState s stateBeginValueOrEmpty parseArrayValue scanBeginArray
  else if isc c dquote then goto s stateInString scanBeginLiteral
  else if isc c "-" then goto s stateNeg scanBeginLiteral
  else if isc c "0" then goto s state0 scanBeginLiteral
  else if isc c "t" then goto s stateT scanBeginLiteral
  else if isc c "f" then goto s stateF scanBeginLiteral
  else if isc c "n" then goto s stateN scanBeginLiteral
  else if strconv.is_digit c then goto s state1 scanBeginLiteral
  else error s.

Definition do_stateBeginString (s : scanner) (c : ascii) : scanner * scanCode :=
  if isSpace c then (s, scanSkipSpace)
  else if isc c dquote then goto s stateInString scanBeginLiteral
  else error s.

Definition do_state0 (s : scanner) (c : ascii) : scanner * scanCode :=
  if isc c "." then goto s stateDot scanContinue
  else if isc c "e" || isc c "E" then goto s stateE scanContinue
  else do_stateEndValue s c.

Definition do_stateESign (s : scanner) (c : ascii) : scanner * scanCode :=
  if strconv.is_digit c then goto s stateE0 scanContinue else error s.

Definition expect (s : scanner) (c d : ascii) (st : stepState) : scanner * scanCode :=
  if isc c d then goto s st scanContinue else error s.

(** One byte through the scanner: [s.step(s, c)]. *)
Definition stepFn (s : scanner) (c : ascii) : scanner * scanCode :=
  match step s with
  | stateBeginValue => do_stateBeginValue s c
  | stateBeginValueOrEmpty =>
    if isSpace c then (s, scanSkipSpace)
    else if isc c "]" then do_stateEndValue s c
    else do_stateBeginValue s c
  | stateBeginStringOrEmpty =>
    if isSpace c then (s, scanSkipSpace)
    else if isc c "}" then
      match parseState s with
      | _ :: ps => do_stateEndValue (Scanner (step s) (parseObjectValue :: ps)) c
      | [] => do_stateEndValue s c
      end
    else do_stateBeginString s c
  | stateBeginString => do_stateBeginString s c
  | stateEndValue => do_stateEndValue s c
  | stateEndTop => do_stateEndTop s c
  | stateInString =>
    if isc c dquote then goto s stateEndValue scanContinue
    else if isc c backslash then goto s stateInStringEsc scanContinue
    else if b2z c <? 32 then error s
    else (s, scanContinue)
  | stateInStringEsc =>
    if isc c "b" || isc c "f" || isc c "n" || isc c "r" || isc c "t"
       || isc c backslash || isc c "/" || isc c dquote
    then goto s stateInString scanContinue
    else if isc c "u" then goto s stateInStringEscU scanContinue
    else error s
  | stateInStringEscU =>
    if isHex c then goto s stateInStringEscU1 scanContinue else error s
  | stateInStringEscU1 =>
    if isHex c then goto s stateInStringEscU12 scanContinue else error s
  | stateInStringEscU12 =>
    if isHex c then goto s stateInStringEscU123 scanContinue else error s
  | stateInStringEscU123 =>
    if isHex c then goto s stateInString scanContinue else error s
  | stateNeg =>
    if isc c "0" then goto s state0 scanContinue
    else if strconv.is_digit c then goto s state1 scanContinue
    else error s
  | state1 =>
    if strconv.is_digit c then goto s state1 scanContinue else do_state0 s c
  | state0 => do_state0 s c
  | stateDot =>
    if strconv.is_digit c then goto s stateDot0 scanContinue else error s
  | stateDot0 =>
    if strconv.is_digit c then (s, scanContinue)
    else if isc c "e" || isc c "E" then goto s stateE scanContinue
    else do_stateEndValue s c
  | stateE =>
    if isc c "+" || isc c "-" then goto s stateESign scanContinue
    else do_stateESign s c
  | stateESign => do_stateESign s c
  | stateE0 =>
    if strconv.is_digit c then (s, scanContinue) else do_stateEndValue s c
  | stateT => expect s c "r" stateTr
  | stateTr => expect s c "u" stateTru
  | stateTru => expect s c "e" stateEndValue
  | stateF => expect s c "a" stateFa
  | stateFa => expect s c "l" stateFal
  | stateFal => expect s c "s" stateFals
  | stateFals => expect s c "e" stateEndValue
  | stateN => expect s c "u" stateNu
  | stateNu => expect s c "l" stateNul
  | stateNul => expect s c "l" stateEndValue
  | stateError => (s, scanError)
  end.

Definition reset : scanner := Scanner stateBeginValue [].

Definition is_scanEnd (c : scanCode) : bool :=
  match c with scanEnd => true | _ => false end.

Fixpoint nonSpace (b : string) : bool :=
  match b with
  | EmptyString => false
  | String c t => negb (isSpace c) || nonSpace t
  end.

(** [Decoder.readValue]: the text of the next value of the stream and the
    bytes after it. [seen] tells whether a byte that is not white space
    was read, which decides the error at the end of input. *)
Fixpoint readValue_go (s : scanner) (seen : bool) (buf : string)
  : result (string * string) :=
  match buf with
  | EmptyString =>
    if is_scanEnd (stepFn s " ").2 then Ok (EmptyString, EmptyString)
    else Err (if seen then "unexpected EOF" else "EOF")
  | String c t =>
    let '(s', code) := stepFn s c in
    let continue (s'' : scanner) :=
      match readValue_go s'' (seen || negb (isSpace c)) t with
      | Ok (tok, rest) => Ok (String c tok, rest)
      | Err e => Err e
      end in
    match code with
    | scanEnd => Ok (EmptyString, buf)
    | scanEndObject | scanEndArray =>
      let '(s'', code') := do_stateEndValue s' " " in
      if is_scanEnd code' then Ok (String c EmptyString, t) else continue s''
    | scanError => Err "invalid character in JSON input"
    | _ => continue s'
    end
  end.

Definition readValue (buf : string) : result (string * string) :=
  readValue_go reset false buf.

(** *** Unmarshalling the text of one value *)

Fixpoint skipSpace (s : string) : string :=
  match s with
  | String c t => if isSpace c then skipSpace t else s
  | EmptyString => s
  end.

(** [rescanLiteral] on a string: from just after the opening quote to the
    closing one. Gives the literal's inside and what follows it. *)
Fixpoint rescanLiteral (escaped : bool) (s : string) : option (string * string) :=
  match s with
  | EmptyString => None
  | String c t =>
    if escaped then
      match rescanLiteral false t with
      | Some (lit, rest) => Some (String c lit, rest)
      | None => None
      end
    else if isc c dquote then Some (EmptyString, t)
    else
      match rescanLiteral (isc c backslash) t with
      | Some (lit, rest) => Some (String c lit, rest)
      | None => None
      end
  end.

Definition hexval (c : ascii) : option Z :=
  let b := b2z c in
  if (48 <=? b) && (b <=? 57) then Some (b - 48)
  else if (97 <=? b) && (b <=? 102) then Some (b - 97 + 10)
  else if (65 <=? b) && (b <=? 70) then Some (b - 65 + 10)
  else None.

(** [getu4 s]: the code unit of a [\uXXXX] at the head of [s]. *)
Definition getu4 (s : string) : option Z :=
  match s with
  | String c0 (String c1 (String h1 (String h2 (String h3 (String h4 _))))) =>
    if isc c0 backslash && isc c1 "u" then
      match hexval h1, hexval h2, hexval h3, hexval h4 with
      | Some a, Some b, Some c, Some d => Some (((a * 16 + b) * 16 + c) * 16 + d)
      | _, _, _, _ => None
      end
    else None
  | _ => None
  end.

Fixpoint drop_string (n : nat) (s : string) : string :=
  match n, s with
  | S n', String _ t => drop_string n' t
  | _, _ => s
  end.

Definition utf16_IsSurrogate (r : Z) : bool := (55296 <=? r) && (r <? 57344).

Definition utf16_DecodeRune (r1 r2 : Z) : Z :=
  if (55296 <=? r1) && (r1 <? 56320) && (56320 <=? r2) && (r2 <? 57344)
  then Z.lor (Z.shiftl (r1 - 55296) 10) (r2 - 56320) + 65536
  else utf8.RuneError.

(** [unquoteBytes] on the inside of a string literal. While [fast], no
    escape and no invalid byte has been met and the input is returned as
    it is; after the first one, runes are decoded and encoded again. *)
Fixpoint unquote_go (fast : bool) (pend : pending) (s : string) : option string :=
  match s with
  | EmptyString => Some EmptyString
  | String c t =>
    match pend with
    | Copy (S n) => String c <$> unquote_go fast (Copy n) t
    | Drop (S n) => unquote_go fast (Drop n) t
    | _ =>
      let b := b2z c in
      if isc c backslash then
        match t with
        | EmptyString => None
        | String e _ =>
          let plain (x : ascii) := String x <$> unquote_go false (Drop 1) t in
          if isc e dquote || isc e backslash || isc e "/" || isc e "'" then plain e
          else if isc e "b" then plain (z2b 8)
          else if isc e "f" then plain (z2b 12)
          else if isc e "n" then plain (z2b 10)
          else if isc e "r" then plain (z2b 13)
          else if isc e "t" then plain (z2b 9)
          else if isc e "u" then
            match getu4 s with
            | None => None
            | Some rr =>
              if utf16_IsSurrogate rr then
                let rr1 := default (-1) (getu4 (drop_string 6 s)) in
                let dec := utf16_DecodeRune rr rr1 in
                if negb (dec =? utf8.RuneError) then
                  String.app (utf8.EncodeRune dec) <$> unquote_go false (Drop 11) t
                else
                  String.app (utf8.EncodeRune utf8.RuneError)
                    <$> unquote_go false (Drop 5) t
              else String.app (utf8.EncodeRune rr) <$> unquote_go false (Drop 5) t
            end
          else None
        end
      else if isc c dquote || (b <? 32) then None
      else if b <? utf8.RuneSelf then String c <$> unquote_go fast (Copy 0) t
      else
        let '(rr, size) := utf8.DecodeRune s in
        if fast && negb ((rr =? utf8.RuneError) && Nat.eqb size 1) then
          String c <$> unquote_go true (Copy (Nat.pred size)) t
        else
          String.app (utf8.EncodeRune rr) <$> unquote_go false (Drop (Nat.pred size)) t
    end
  end.

Definition unquote (inside : string) : option string :=
  unquote_go true (Copy 0) inside.

(** A string literal at the head of [s]: its value and what follows. *)
Definition literal_string (s : string) : result (string * string) :=
  match s with
  | String c t =>
    if isc c dquote then
      match rescanLiteral false t with
      | Some (lit, rest) =>
        match unquote lit with
        | Some v => Ok (v, rest)
        | None => Err "JSON decoder out of sync"
        end
      | None => Err "JSON decoder out of sync"
      end
    else Err "JSON decoder out of sync"
  | EmptyString => Err "JSON decoder out of sync"
  end.

(** [literalStore] into an integer target. [null] leaves the target as
    it is; a number must be an integer that fits; every other kind of
    value is a type error. *)
Definition unmarshal_int (cur : Z) (tok : string) : result Z :=
  let item := skipSpace tok in
  match item with
  | EmptyString => Err "unexpected end of JSON input"
  | String c _ =>
    if isc c "n" then Ok cur
    else if isc c "-" || strconv.is_digit c then
      match strconv.ParseInt item with
      | Some n => Ok n
      | None => Err "json: cannot unmarshal number into Go value of type int64"
      end
    else Err "json: cannot unmarshal value into Go value of type int64"
  end.

(** The members of an object into a [map[string]string], after the
    opening brace. A member's value is a string, or [null] (which leaves
    the fresh element empty); a later member replaces an earlier one of
    the same key. *)
Fixpoint object_go (fuel : nat) (first : bool) (m : gmap string string)
         (s : string) : result (gmap string string) :=
  match fuel with
  | O => Err "JSON decoder out of sync"
  | S fuel' =>
    let s := skipSpace s in
    match s with
    | EmptyString => Err "JSON decoder out of sync"
    | String c _ =>
      if first && isc c "}" then Ok m
      else
        match literal_string s with
        | Err e => Err e
        | Ok (key, s1) =>
          match skipSpace s1 with
          | String colon s2 =>
            if isc colon ":" then
              let s3 := skipSpace s2 in
              let after (v : string) (s4 : string) :=
                match skipSpace s4 with
                | String d s5 =>
                  if isc d "}" then Ok (<[key := v]> m)
                  else if isc d "," then object_go fuel' false (<[key := v]> m) s5
                  else Err "JSON decoder out of sync"
                | EmptyString => Err "JSON decoder out of sync"
                end in
              match s3 with
              | String v0 _ =>
                if isc v0 dquote then
                  match literal_string s3 with
                  | Ok (v, s4) => after v s4
                  | Err e => Err e
                  end
                else if isc v0 "n" then after EmptyString (drop_string 4 s3)
                else Err "json: cannot unmarshal value into Go value of type string"
              | EmptyString => Err "JSON decoder out of sync"
              end
            else Err "JSON decoder out of sync"
          | EmptyString => Err "JSON decoder out of sync"
          end
        end
    end
  end.

(** [d.value] into a [map[string]string] target: an object fills a fresh
    map, [null] gives the nil map (which the model does not tell from the
    empty one), anything else is a type error. *)
Definition unmarshal_map (tok : string) : result (gmap string string) :=
  match skipSpace tok with
  | EmptyString => Err "unexpected end of JSON input"
  | String c t =>
    if isc c "{" then object_go (String.length t) true ∅ t
    else if isc c "n" then Ok ∅
    else Err "json: cannot unmarshal value into Go value of type map[string]string"
  end.

(** [Decoder.Decode] into an integer variable holding [cur] and into a
    nil map variable: the decoded value and the rest of the stream. *)
Definition Decode_int (cur : Z) (stream : string) : result (Z * string) :=
  match readValue stream with
  | Err e => Err e
  | Ok (tok, rest) =>
    match unmarshal_int cur tok with
    | Err e => Err e
    | Ok v => Ok (v, rest)
    end
  end.

Definition Decode_map (stream : string) : result (gmap string string * string) :=
  match readValue stream with
  | Err e => Err e
  | Ok (tok, rest) =>
    match unmarshal_map tok with
    | Err e => Err e
    | Ok v => Ok (v, rest)
    end
  end.

End json.

(** ** The data model of the server *)

(** [common.RequestType], a protobuf enumeration: the five declared values,
    and any other number a peer may put on the wire. *)
Inductive RequestType : Type :=
| OPEN_SESSION | GET | PUT | APPEND | DELETE
| UnknownRequestType (wire : Z).

(** [common.ErrCode]. *)
Inductive ErrCode : Type :=
| WRONG_LEADER | OK | NO_KEY | INVALID_SESSION | INVALID_REQUEST_TYPE
| INVALID_PASSWORD.

Definition RequestType_eqb (a b : RequestType) : bool :=
  match a, b with
  | OPEN_SESSION, OPEN_SESSION | GET, GET | PUT, PUT
  | APPEND, APPEND | DELETE, DELETE => true
  | UnknownRequestType x, UnknownRequestType y => x =? y
  | _, _ => false
  end.

(** Modelled from the spec: [raft.Op], the command record submitted to
    consensus, whose declaration is in the consensus package; the fields are
    the four the server reads and writes ([UUID] is the nonce). *)
Record Op : Type := mkOp {
  OpRequestType : RequestType;
  Key : string;
  Value : string;
  UUID : string
}.

Record ApplyResult : Type := mkApplyResult {
  Term : Z;
  SessionId : string
}.

(** Modelled from the spec: [raft.ApplyMsg], a message of the apply stream,
    whose declaration is in the consensus package; the fields are those the
    apply pump reads. *)
Record ApplyMsg : Type := mkApplyMsg {
  CommandValid : bool;
  Command : Op;
  CommandIndex : Z;
  CommandTerm : Z;
  SnapshotValid : bool;
  Snapshot : string;
  SnapshotIndex : Z
}.

Definition chan_id : Type := nat.

(** The fields of [KVServer] that hold data. A [time.Time] is an instant in
    nanoseconds; a channel is a reference into the channel store. A nil map
    and an empty map are both the empty map. *)
Record KVServer : Type := mkKVServer {
  replyChan : gmap Z chan_id;
  sessionMap : gmap string Z;
  uniqueId : Z;
  commitIndex : Z;
  tab : gmap string string;
  me : Z;
  password : string;
  maxRaftState : Z;
  nextSnapshotIndex : Z;
  logEnabled : bool;
  sessionTimeout : Z
}.

(** A buffered channel of [ApplyResult]. *)
Record chan : Type := mkChan {
  ch_cap : nat;
  ch_buf : list ApplyResult;
  ch_closed : bool
}.

(** *** Fields as locations *)

Inductive field : Type -> Type :=
| FreplyChan : field (gmap Z chan_id)
| FsessionMap : field (gmap string Z)
| FuniqueId : field Z
| FcommitIndex : field Z
| Ftab : field (gmap string string)
| Fpassword : field string
| FmaxRaftState : field Z
| FnextSnapshotIndex : field Z
| FsessionTimeout : field Z.

Definition load {A} (f : field A) (kv : KVServer) : A :=
  match f in field T return T with
  | FreplyChan => replyChan kv
  | FsessionMap => sessionMap kv
  | FuniqueId => uniqueId kv
  | FcommitIndex => commitIndex kv
  | Ftab => tab kv
  | Fpassword => password kv
  | FmaxRaftState => maxRaftState kv
  | FnextSnapshotIndex => nextSnapshotIndex kv
  | FsessionTimeout => sessionTimeout kv
  end.

Definition store {A} (f : field A) : A -> KVServer -> KVServer :=
  match f in field T return T -> KVServer -> KVServer with
  | FreplyChan => fun v kv =>
      mkKVServer v (sessionMap kv) (uniqueId kv) (commitIndex kv) (tab kv) (me kv)
                 (password kv) (maxRaftState kv) (nextSnapshotIndex kv)
                 (logEnabled kv) (sessionTimeout kv)
  | FsessionMap => fun v kv =>
      mkKVServer (replyChan kv) v (uniqueId kv) (commitIndex kv) (tab kv) (me kv)
                 (password kv) (maxRaftState kv) (nextSnapshotIndex kv)
                 (logEnabled kv) (sessionTimeout kv)
  | FuniqueId => fun v kv =>
      mkKVServer (replyChan kv) (sessionMap kv) v (commitIndex kv) (tab kv) (me kv)
                 (password kv) (maxRaftState kv) (nextSnapshotIndex kv)
                 (logEnabled kv) (sessionTimeout kv)
  | FcommitIndex => fun v kv =>
      mkKVServer (replyChan kv) (sessionMap kv) (uniqueId kv) v (tab kv) (me kv)
                 (password kv) (maxRaftState kv) (nextSnapshotIndex kv)
                 (logEnabled kv) (sessionTimeout kv)
  | Ftab => fun v kv =>
      mkKVServer (replyChan kv) (sessionMap kv) (uniqueId kv) (commitIndex kv) v (me kv)
                 (password kv) (maxRaftState kv) (nextSnapshotIndex kv)
                 (logEnabled kv) (sessionTimeout kv)
  | Fpassword => fun v kv =>
      mkKVServer (replyChan kv) (sessionMap kv) (uniqueId kv) (commitIndex kv) (tab kv)
                 (me kv) v (maxRaftState kv) (nextSnapshotIndex kv)
                 (logEnabled kv) (sessionTimeout kv)
  | FmaxRaftState => fun v kv =>
      mkKVServer (replyChan kv) (sessionMap kv) (uniqueId kv) (commitIndex kv) (tab kv)
                 (me kv) (password kv) v (nextSnapshotIndex kv)
                 (logEnabled kv) (sessionTimeout kv)
  | FnextSnapshotIndex => fun v kv =>
      mkKVServer (replyChan kv) (sessionMap kv) (uniqueId kv) (commitIndex kv) (tab kv)
                 (me kv) (password kv) (maxRaftState kv) v
                 (logEnabled kv) (sessionTimeout kv)
  | FsessionTimeout => fun v kv =>
      mkKVServer (replyChan kv) (sessionMap kv) (uniqueId kv) (commitIndex kv) (tab kv)
                 (me kv) (password kv) (maxRaftState kv) (nextSnapshotIndex kv)
                 (logEnabled kv) v
  end.

(** The three maps of the server, for the element-wise operations
    [m[k]], [m[k] = v] and [delete(m, k)]. *)
Inductive mapfield : Type -> Type -> Type :=
| Mtab : mapfield string string
| MreplyChan : mapfield Z chan_id
| MsessionMap : mapfield string Z.

Definition map_get {K V} (m : mapfield K V) (k : K) (kv : KVServer) : option V :=
  match m in mapfield K' V' return K' -> option V' with
  | Mtab => fun k => tab kv !! k
  | MreplyChan => fun k => replyChan kv !! k
  | MsessionMap => fun k => sessionMap kv !! k
  end k.

Definition map_set {K V} (m : mapfield K V) (k : K) (v : V) (kv : KVServer) : KVServer :=
  match m in mapfield K' V' return K' -> V' -> KVServer with
  | Mtab => fun k v => store Ftab (<[k := v]> (tab kv)) kv
  | MreplyChan => fun k v => store FreplyChan (<[k := v]> (replyChan kv)) kv
  | MsessionMap => fun k v => store FsessionMap (<[k := v]> (sessionMap kv)) kv
  end k v.

Definition map_delete {K V} (m : mapfield K V) (k : K) (kv : KVServer) : KVServer :=
  match m in mapfield K' V' return K' -> KVServer with
  | Mtab => fun k => store Ftab (delete k (tab kv)) kv
  | MreplyChan => fun k => store FreplyChan (delete k (replyChan kv)) kv
  | MsessionMap => fun k => store FsessionMap (delete k (sessionMap kv)) kv
  end k.

(** ** Programs

    The goroutines of the server are written in a small language of
    actions. Each action is one operation on what the goroutines share: the
    mutex [kv.mu], a field or a map element of [kv], a channel, the
    consensus module, the clock. *)
Inductive act : Type -> Type :=
| Lock : act unit
| Unlock : act unit
| Load {A} (f : field A) : act A
| Store {A} (f : field A) (v : A) : act unit
| MapGet {K V} (m : mapfield K V) (k : K) : act (option V)
| MapSet {K V} (m : mapfield K V) (k : K) (v : V) : act unit
| MapDelete {K V} (m : mapfield K V) (k : K) : act unit
| RfGetState : act (Z * bool)
| RfStart (op : Op) : act (Z * Z * bool)
| RfSnapshot (index : Z) (snapshot : string) : act unit
| MakeChan (cap : nat) : act chan_id
| Send (c : chan_id) (v : ApplyResult) : act unit
| Close (c : chan_id) : act unit
| Recv (c : chan_id) : act ApplyResult
| TimeNow : act Z
| NewUUID : act string
| LogPrint (text : string) : act unit.

Inductive prog (R : Type) : Type :=
| Ret (r : R)
| Do {A} (a : act A) (k : A -> prog R)
| Panic (msg : string).
Arguments Ret {R} r.
Arguments Do {R A} a k.
Arguments Panic {R} msg.

Fixpoint bind {A B} (p : prog A) (f : A -> prog B) : prog B :=
  match p with
  | Ret r => f r
  | Do a k => Do a (fun x => bind (k x) f)
  | Panic msg => Panic msg
  end.

#[global] Instance prog_ret : MRet prog := fun _ r => Ret r.
#[global] Instance prog_bind : MBind prog := fun _ _ f p => bind p f.

Definition do {A} (a : act A) : prog A := Do a Ret.

(** What a goroutine did: an action and the answer it got. *)
Inductive event : Type :=
| Ev {A} (a : act A) (r : A).

(** What the goroutines share. [mu] is the holder of [kv.mu]; [snapshots]
    are the calls of [rf.Snapshot] made so far, [logs] the lines printed and
    [trace] the actions performed, each with the goroutine that performed
    it, latest first. *)
Record World : Type := mkWorld {
  kv : KVServer;
  mu : option nat;
  chans : gmap chan_id chan;
  snapshots : list (Z * string);
  logs : list string;
  trace : list (nat * event)
}.

Definition with_kv (w : World) (k : KVServer) : World :=
  mkWorld k (mu w) (chans w) (snapshots w) (logs w) (trace w).
Definition with_mu (w : World) (m : option nat) : World :=
  mkWorld (kv w) m (chans w) (snapshots w) (logs w) (trace w).
Definition with_chans (w : World) (c : gmap chan_id chan) : World :=
  mkWorld (kv w) (mu w) c (snapshots w) (logs w) (trace w).
Definition with_snapshots (w : World) (s : list (Z * string)) : World :=
  mkWorld (kv w) (mu w) (chans w) s (logs w) (trace w).
Definition with_logs (w : World) (l : list string) : World :=
  mkWorld (kv w) (mu w) (chans w) (snapshots w) l (trace w).
Definition record (tid : nat) (e : event) (w : World) : World :=
  mkWorld (kv w) (mu w) (chans w) (snapshots w) (logs w) ((tid, e) :: trace w).

(** What the environment supplies to an action that asks it something. *)
Inductive input : Type :=
| RaftState (term : Z) (isLeader : bool)
| RaftStarted (index term : Z) (isLeader : bool)
| Clock (now : Z)
| Fresh (uuid : string).

(** The outcome of attempting one action. *)
Inductive outcome (A : Type) : Type :=
| Done (w : World) (r : A) (rest : list input)
| Blocked
| Fatal (msg : string)
| Starved.
Arguments Done {A} w r rest.
Arguments Blocked {A}.
Arguments Fatal {A} msg.
Arguments Starved {A}.

Definition zero_ApplyResult : ApplyResult := mkApplyResult 0 EmptyString.

(** One action of goroutine [tid] in world [w]. An action of the
    environment takes its answer from the head of [ins]. *)
Definition perform (tid : nat) {A} (a : act A) (ins : list input) (w : World)
  : outcome A :=
  match a in act T return outcome T with
  | Lock =>
    match mu w with
    | None => Done (with_mu w (Some tid)) tt ins
    | Some _ => Blocked
    end
  | Unlock =>
    match mu w with
    | Some _ => Done (with_mu w None) tt ins
    | None => Fatal "sync: unlock of unlocked mutex"
    end
  | Load f => Done w (load f (kv w)) ins
  | Store f v => Done (with_kv w (store f v (kv w))) tt ins
  | MapGet m k => Done w (map_get m k (kv w)) ins
  | MapSet m k v => Done (with_kv w (map_set m k v (kv w))) tt ins
  | MapDelete m k => Done (with_kv w (map_delete m k (kv w))) tt ins
  | RfGetState =>
    match ins with
    | RaftState term isLeader :: rest => Done w (term, isLeader) rest
    | _ => Starved
    end
  | RfStart op =>
    match ins with
    | RaftStarted index term isLeader :: rest => Done w (index, term, isLeader) rest
    | _ => Starved
    end
  | RfSnapshot index snapshot =>
    Done (with_snapshots w ((index, snapshot) :: snapshots w)) tt ins
  | MakeChan cap =>
    let c := fresh (dom (chans w)) in
    Done (with_chans w (<[c := mkChan cap [] false]> (chans w))) c ins
  | Send c v =>
    match chans w !! c with
    | None => Blocked
    | Some ch =>
      if ch_closed ch then Fatal "send on closed channel"
      else if (length (ch_buf ch) <? ch_cap ch)%nat then
        Done (with_chans w (<[c := mkChan (ch_cap ch) (ch_buf ch ++ [v]) false]> (chans w)))
             tt ins
      else Blocked
    end
  | Close c =>
    match chans w !! c with
    | None => Fatal "close of nil channel"
    | Some ch =>
      if ch_closed ch then Fatal "close of closed channel"
      else Done (with_chans w (<[c := mkChan (ch_cap ch) (ch_buf ch) true]> (chans w)))
                tt ins
    end
  | Recv c =>
    match chans w !! c with
    | None => Blocked
    | Some ch =>
      match ch_buf ch with
      | v :: buf =>
        Done (with_chans w (<[c := mkChan (ch_cap ch) buf (ch_closed ch)]> (chans w)))
             v ins
      | [] => if ch_closed ch then Done w zero_ApplyResult ins else Blocked
      end
    end
  | TimeNow =>
    match ins with
    | Clock now :: rest => Done w now rest
    | _ => Starved
    end
  | NewUUID =>
    match ins with
    | Fresh uuid :: rest => Done w uuid rest
    | _ => Starved
    end
  | LogPrint text => Done (with_logs w (text :: logs w)) tt ins
  end.

(** Where a goroutine running alone gets to. *)
Inductive status (R : Type) : Type :=
| Returned (r : R) (w : World) (rest : list input)
| Waiting (p : prog R) (w : World) (rest : list input)
| Crashed (msg : string) (w : World)
| NoInput (p : prog R) (w : World).
Arguments Returned {R} r w rest.
Arguments Waiting {R} p w rest.
Arguments Crashed {R} msg w.
Arguments NoInput {R} p w.

(** [run tid p ins w]: goroutine [tid] runs [p] from [w] with nobody else
    moving, until it returns, panics, or cannot go on. *)
Fixpoint run {R} (tid : nat) (p : prog R) (ins : list input) (w : World) : status R :=
  match p with
  | Ret r => Returned r w ins
  | Panic msg => Crashed msg w
  | Do a k =>
    match perform tid a ins w with
    | Done w' r rest => run tid (k r) rest (record tid (Ev a r) w')
    | Blocked => Waiting p w ins
    | Fatal msg => Crashed msg w
    | Starved => NoInput p w
    end
  end.

(** One step of goroutine [tid], for interleaved executions: [None] when
    the goroutine has returned or cannot move. *)
Definition step1 {R} (tid : nat) (p : prog R) (ins : list input) (w : World)
  : option (prog R * World * list input) :=
  match p with
  | Do a k =>
    match perform tid a ins w with
    | Done w' r rest => Some (k r, record tid (Ev a r) w', rest)
    | _ => None
    end
  | _ => None
  end.

(** ** The server

    The methods of [KVServer], statement by statement. The lines that
    [kv.logPrintf] prints when [kv.logEnabled] is set are left out: they
    read [kv.logEnabled] and [kv.me], which nothing writes after start-up,
    and write to the log only. The warnings of [log.Printf] are kept. *)

Definition DefaultSessionTimeout : Z := 60 * 60.
Definition SessionIdSeparator : string := "-".
Definition DefaultServerPort : Z := 8080.
Definition Second : Z := 1000000000.

(** Requests and replies of the three remote procedures. *)
Record OpenSessionRequest : Type := mkOpenSessionRequest {
  osq_password : string;
  osq_request_type : RequestType
}.
Record OpenSessionReply : Type := mkOpenSessionReply {
  osr_session_id : string;
  osr_err_code : ErrCode
}.
Record GetRequest : Type := mkGetRequest {
  gq_key : string;
  gq_session_id : string;
  gq_request_type : RequestType
}.
Record GetReply : Type := mkGetReply {
  gr_value : string;
  gr_err_code : ErrCode
}.
Record UpdateRequest : Type := mkUpdateRequest {
  uq_key : string;
  uq_value : string;
  uq_request_type : RequestType;
  uq_session_id : string
}.
Record UpdateReply : Type := mkUpdateReply {
  ur_err_code : ErrCode
}.

(** [checkSession]: the session exists; if so its last visit becomes now. *)
Definition checkSession (sessionId : string) : prog bool :=
  do Lock;;
  last ← do (MapGet MsessionMap sessionId);
  match last with
  | Some _ =>
    now ← do TimeNow;
    do (MapSet MsessionMap sessionId now);;
    do Unlock;;
    mret true
  | None =>
    do Unlock;;
    mret false
  end.

(** [submit]: hand the command to consensus and wait for the apply pump to
    report on the log index it was given. *)
Definition submit (op : Op) : prog (option ApplyResult * ErrCode) :=
  started ← do (RfStart op);
  let '(commandIndex, commandTerm, isLeader) := started in
  if negb isLeader then mret (None, WRONG_LEADER)
  else
    do Lock;;
    c ← do (MapGet MreplyChan commandIndex);
    match c with
    | Some c =>
      (* tell the previous client to stop waiting *)
      do (Send c (mkApplyResult commandTerm EmptyString));;
      do (Close c)
    | None => mret tt
    end;;
    ch ← do (MakeChan 1);
    do (MapSet MreplyChan commandIndex ch);;
    do Unlock;;
    res ← do (Recv ch);
    if Term res =? commandTerm then mret (Some res, OK)
    else mret (None, WRONG_LEADER).

Definition OpenSession (request : OpenSessionRequest) : prog OpenSessionReply :=
  if negb (RequestType_eqb (osq_request_type request) OPEN_SESSION) then
    mret (mkOpenSessionReply EmptyString INVALID_REQUEST_TYPE)
  else
    pw ← do (Load Fpassword);
    if negb (String.eqb (osq_password request) pw) then
      mret (mkOpenSessionReply EmptyString INVALID_PASSWORD)
    else
      uuid ← do NewUUID;
      let command := mkOp OPEN_SESSION EmptyString EmptyString uuid in
      submitted ← submit command;
      match submitted with
      | (Some applyResult, OK) => mret (mkOpenSessionReply (SessionId applyResult) OK)
      | (None, OK) => Panic "nil pointer dereference"
      | (_, errCode) => mret (mkOpenSessionReply EmptyString errCode)
      end.

Definition Get (args : GetRequest) : prog GetReply :=
  if negb (RequestType_eqb (gq_request_type args) GET) then
    mret (mkGetReply EmptyString INVALID_REQUEST_TYPE)
  else
    state ← do RfGetState;
    if negb state.2 then mret (mkGetReply EmptyString WRONG_LEADER)
    else
      valid ← checkSession (gq_session_id args);
      if negb valid then mret (mkGetReply EmptyString INVALID_SESSION)
      else
        let command := mkOp GET (gq_key args) EmptyString EmptyString in
        submitted ← submit command;
        match submitted.2 with
        | OK =>
          v ← do (MapGet Mtab (gq_key args));
          match v with
          | None => mret (mkGetReply EmptyString NO_KEY)
          | Some v => mret (mkGetReply v OK)
          end
        | errCode => mret (mkGetReply EmptyString errCode)
        end.

Definition Update (args : UpdateRequest) : prog UpdateReply :=
  let reqType := uq_request_type args in
  if negb (RequestType_eqb reqType PUT) && negb (RequestType_eqb reqType APPEND)
     && negb (RequestType_eqb reqType DELETE) then
    mret (mkUpdateReply INVALID_REQUEST_TYPE)
  else
    state ← do RfGetState;
    if negb state.2 then mret (mkUpdateReply WRONG_LEADER)
    else
      valid ← checkSession (uq_session_id args);
      if negb valid then mret (mkUpdateReply INVALID_SESSION)
      else
        let command := mkOp reqType (uq_key args) (uq_value args) EmptyString in
        submitted ← submit command;
        mret (mkUpdateReply submitted.2).

(** [makeSnapshot]: the three persistent fields, encoded one after the
    other. *)
Definition makeSnapshot : prog (result string) :=
  uid ← do (Load FuniqueId);
  match json.Encode_int uid with
  | Err e => mret (Err ("encode uniqueId fails: " +:+ e))
  | Ok b1 =>
    ci ← do (Load FcommitIndex);
    match json.Encode_int ci with
    | Err e => mret (Err ("encode commitIndex fails: " +:+ e))
    | Ok b2 =>
      t ← do (Load Ftab);
      match json.Encode_map t with
      | Err e => mret (Err ("encode tab fails: " +:+ e))
      | Ok b3 => mret (Ok (b1 +:+ b2 +:+ b3))
      end
    end
  end.

(** [recoverFrom]: decode the three fields and, when all three decoded,
    install them. [None] is the nil error. *)
Definition recoverFrom (snapshot : string) : prog (option string) :=
  if (String.length snapshot <? 1)%nat then mret None
  else
    match json.Decode_int 0 snapshot with
    | Err e => mret (Some ("recover from snapshot: decode currentTerm fails: " +:+ e))
    | Ok (nextClientId, r1) =>
      match json.Decode_int 0 r1 with
      | Err e => mret (Some ("recover from snapshot: decode commitIndex fails: " +:+ e))
      | Ok (commitIndex, r2) =>
        match json.Decode_map r2 with
        | Err e => mret (Some ("recover from snapshot: decode tab fails: " +:+ e))
        | Ok (tab, _) =>
          do (Store FuniqueId nextClientId);;
          do (Store FcommitIndex commitIndex);;
          do (Store Ftab tab);;
          mret None
        end
      end
    end.

(** The loop of [apply] handles one message of [kv.applyCh] per turn. Its
    body is given in four parts: the dispatch on the command's type, the
    delivery to the pending slot, the snapshot at the threshold, and the
    body itself, which runs the three under [kv.mu]. *)

(** The dispatch on [commandType]; yields [sessionId]. *)
Definition applyOp (op : Op) : prog string :=
  match OpRequestType op with
  | OPEN_SESSION =>
    uid ← do (Load FuniqueId);
    let sessionId := strconv.FormatInt uid +:+ SessionIdSeparator +:+ UUID op in
    now ← do TimeNow;
    do (MapSet MsessionMap sessionId now);;
    uid ← do (Load FuniqueId);
    do (Store FuniqueId (GoInt.add uid 1));;
    mret sessionId
  | PUT =>
    do (MapSet Mtab (Key op) (Value op));;
    mret EmptyString
  | APPEND =>
    v ← do (MapGet Mtab (Key op));
    let v := default EmptyString v +:+ Value op in
    do (MapSet Mtab (Key op) v);;
    mret EmptyString
  | DELETE =>
    do (MapDelete Mtab (Key op));;
    mret EmptyString
  | GET => mret EmptyString
  | UnknownRequestType _ =>
    do (LogPrint "warning: receive unknown request type");;
    mret EmptyString
  end.

(** The result goes to whoever waits at [commandIndex]. *)
Definition deliver (commandIndex commandTerm : Z) (sessionId : string) : prog unit :=
  ch ← do (MapGet MreplyChan commandIndex);
  match ch with
  | Some ch =>
    do (Send ch (mkApplyResult commandTerm sessionId));;
    do (Close ch);;
    do (MapDelete MreplyChan commandIndex)
  | None => mret tt
  end.

(** A snapshot is made when the index reaches [nextSnapshotIndex]. *)
Definition snapshotIfDue (commandIndex : Z) : prog unit :=
  mrs ← do (Load FmaxRaftState);
  if 0 <? mrs then
    nsi ← do (Load FnextSnapshotIndex);
    if commandIndex =? nsi then
      mrs ← do (Load FmaxRaftState);
      do (Store FnextSnapshotIndex (GoInt.add commandIndex mrs));;
      made ← makeSnapshot;
      match made with
      | Err e => Panic ("make snapshot: " +:+ e)
      | Ok snapshot => do (RfSnapshot commandIndex snapshot)
      end
    else mret tt
  else mret tt.

Definition apply_msg (msg : ApplyMsg) : prog unit :=
  if CommandValid msg then
    let commandIndex := CommandIndex msg in
    let commandTerm := CommandTerm msg in
    do Lock;;
    ci ← do (Load FcommitIndex);
    if negb (commandIndex =? GoInt.add ci 1) then
      do Unlock;;
      ci ← do (Load FcommitIndex);
      do (LogPrint ("warning: ignore out dated log, expected log index "
                    +:+ strconv.FormatInt (GoInt.add ci 1) +:+ ", but receive "
                    +:+ strconv.FormatInt commandIndex))
    else
      do (Store FcommitIndex commandIndex);;
      sessionId ← applyOp (Command msg);
      deliver commandIndex commandTerm sessionId;;
      snapshotIfDue commandIndex;;
      do Unlock
  else if SnapshotValid msg then
    do Lock;;
    err ← recoverFrom (Snapshot msg);
    match err with
    | Some e => Panic e
    | None =>
      ci ← do (Load FcommitIndex);
      (if negb (ci =? SnapshotIndex msg) then
         do (LogPrint ("warning: commitIndex in snapshot is " +:+ strconv.FormatInt ci
                       +:+ " but raft snapshot index is "
                       +:+ strconv.FormatInt (SnapshotIndex msg)))
       else mret tt);;
      do Unlock
    end
  else
    do (LogPrint "warning: receive unknown type log").

(** [apply], the apply pump, on the messages the stream delivers. *)
Fixpoint apply (msgs : list ApplyMsg) : prog unit :=
  match msgs with
  | [] => mret tt
  | msg :: rest => apply_msg msg;; apply rest
  end.

(** One sweep of [cleanupSessions], after its sleep. *)
Fixpoint expiredSessions (timeout : Z) (sessions : list (string * Z))
  : prog (list string) :=
  match sessions with
  | [] => mret []
  | (sessionId, lastVisitTime) :: rest =>
    now ← do TimeNow;
    more ← expiredSessions timeout rest;
    mret (if timeout <=? now - lastVisitTime then sessionId :: more else more)
  end.

Fixpoint deleteSessions (expired : list string) : prog unit :=
  match expired with
  | [] => mret tt
  | s :: rest => do (MapDelete MsessionMap s);; deleteSessions rest
  end.

Definition cleanupSessions : prog unit :=
  timeout ← do (Load FsessionTimeout);
  do Lock;;
  sessions ← do (Load FsessionMap);
  expired ← expiredSessions timeout (map_to_list sessions);
  deleteSessions expired;;
  do Unlock.

(** *** Start-up *)

Record KVServerConf : Type := mkKVServerConf {
  Password : string;
  Port : Z;
  MaxRaftState : Z;
  SessionTimeout : Z;
  LogEnabled : bool
}.

Record KVServiceConf : Type := mkKVServiceConf {
  Me : Z;
  KVServerSection : KVServerConf
}.

(** What start-up meets outside the server: the parsed configuration, the
    storage and the snapshot it holds, and whether the listener and the
    consensus module could be started. *)
Record Environment : Type := mkEnvironment {
  env_conf : result KVServiceConf;
  env_storage : result string;
  env_listen : Z -> result unit;
  env_raft : result unit
}.

(** A started server: its state, the port it serves at, and whether the
    goroutine of [cleanupSessions] was started next to the apply pump. *)
Record Started : Type := mkStarted {
  st_world : World;
  st_port : Z;
  st_reaper : bool
}.

Definition emptyWorld (k : KVServer) : World := mkWorld k None ∅ [] [] [].

Definition StartKVServer (env : Environment) : result Started :=
  match env_conf env with
  | Err e => Err e
  | Ok serviceConf =>
    let kvServerConf := KVServerSection serviceConf in
    let port := Port kvServerConf in
    if port <? 0 then
      Err ("configure KVServer: KVServer port " +:+ strconv.FormatInt port +:+ " is invalid")
    else
      let port := if port =? 0 then DefaultServerPort else port in
      let me := Me serviceConf in
      match env_storage env with
      | Err e => Err ("make storage: " +:+ e)
      | Ok snapshot =>
        let kv0 := mkKVServer ∅ ∅ 0 0 ∅ me EmptyString 0 0 false 0 in
        let recovered :=
          if (0 <? String.length snapshot)%nat then
            match run 0 (recoverFrom snapshot) [] (emptyWorld kv0) with
            | Returned None w _ => Ok w
            | Returned (Some e) _ _ => Err ("restore KVServer snapshot: " +:+ e)
            | Crashed e _ => Err e
            | _ => Err "restore KVServer snapshot"
            end
          else
            Ok (emptyWorld (store FcommitIndex 0 (store Ftab ∅ (store FuniqueId 1 kv0)))) in
        match recovered with
        | Err e => Err e
        | Ok w =>
          let kv1 := kv w in
          (* apply configuration *)
          let maxRaftState := MaxRaftState kvServerConf in
          let '(maxRaftState, nextSnapshotIndex) :=
            if 0 <? maxRaftState
            then (maxRaftState, GoInt.add (commitIndex kv1) maxRaftState)
            else (-1, -1) in
          let sessionTimeout := SessionTimeout kvServerConf in
          let sessionTimeout :=
            if 0 <=? sessionTimeout then
              if sessionTimeout =? 0 then DefaultSessionTimeout else sessionTimeout
            else sessionTimeout in
          let kv2 :=
            mkKVServer (replyChan kv1) (sessionMap kv1) (uniqueId kv1) (commitIndex kv1)
                       (tab kv1) me (Password kvServerConf) maxRaftState
                       nextSnapshotIndex (LogEnabled kvServerConf)
                       (GoInt.mul sessionTimeout Second) in
          (* start listener *)
          match env_listen env port with
          | Err e => Err ("start KVServer: " +:+ e)
          | Ok _ =>
            match env_raft env with
            | Err e => Err e
            | Ok _ =>
              Ok (mkStarted (emptyWorld kv2) port (0 <? sessionTimeout))
            end
          end
        end
      end
  end.

(** * Properties *)

(** ** Running programs *)

Definition world_of {R} (s : status R) : World :=
  match s with
  | Returned _ w _ | Waiting _ w _ | Crashed _ w | NoInput _ w => w
  end.

Lemma bind_unfold {A B} (p : prog A) (f : A -> prog B) : p ≫= f = bind p f.
Proof. reflexivity. Qed.

Lemma run_bind {A B} tid (p : prog A) (f : A -> prog B) ins w :
  run tid (p ≫= f) ins w =
  match run tid p ins w with
  | Returned r w' ins' => run tid (f r) ins' w'
  | Waiting p' w' ins' => Waiting (p' ≫= f) w' ins'
  | Crashed m w' => Crashed m w'
  | NoInput p' w' => NoInput (p' ≫= f) w'
  end.
Proof.
  rewrite bind_unfold. revert ins w.
  induction p as [r | X a k IH | m]; intros ins w; simpl; try reflexivity.
  destruct (perform tid a ins w) as [w' r rest | | m | ]; try reflexivity.
  apply IH.
Qed.

Lemma run_do {A} tid (a : act A) ins w :
  run tid (do a) ins w =
  match perform tid a ins w with
  | Done w' r rest => Returned r (record tid (Ev a r) w') rest
  | Blocked => Waiting (do a) w ins
  | Fatal m => Crashed m w
  | Starved => NoInput (do a) w
  end.
Proof. unfold do. simpl. destruct (perform tid a ins w); reflexivity. Qed.

Lemma run_ret {A} tid (r : A) ins w : run tid (mret r) ins w = Returned r w ins.
Proof. reflexivity. Qed.

(** A property of the world that a program never breaks, however far it
    gets. *)
Definition keeps {R} (P : World -> Prop) (p : prog R) : Prop :=
  forall tid ins w, P w -> P (world_of (run tid p ins w)).

Lemma keeps_ret {R} P (r : R) : keeps P (mret r).
Proof. intros tid ins w H. exact H. Qed.

Lemma keeps_panic {R} P m : keeps P (@Panic R m).
Proof. intros tid ins w H. exact H. Qed.

Lemma keeps_bind {A B} P (p : prog A) (f : A -> prog B) :
  keeps P p -> (forall r, keeps P (f r)) -> keeps P (p ≫= f).
Proof.
  intros Hp Hf tid ins w H. rewrite run_bind.
  specialize (Hp tid ins w H).
  destruct (run tid p ins w) as [r w' ins' | p' w' ins' | m w' | p' w']; simpl in *;
    try exact Hp.
  apply Hf, Hp.
Qed.

Lemma keeps_do {A} P (a : act A) :
  (forall tid ins w w' r rest,
      perform tid a ins w = Done w' r rest -> P w -> P (record tid (Ev a r) w')) ->
  keeps P (do a).
Proof.
  intros Ha tid ins w H. rewrite run_do.
  destruct (perform tid a ins w) as [w' r rest | | m | ] eqn:E; simpl; try exact H.
  eapply Ha; eauto.
Qed.

Ltac keeps_action :=
  apply keeps_do;
  let H := fresh "Hdone" in
  intros ? ? ? ? ? ? H ?; simpl in H;
  repeat match type of H with
         | context [match ?x with _ => _ end] => destruct x eqn:?; try discriminate H
         end;
  injection H as <- _ _; simpl; try assumption; try (intuition auto; fail).

Ltac keeps_step :=
  lazymatch goal with
  | |- keeps _ (mret _) => apply keeps_ret
  | |- keeps _ (Panic _) => apply keeps_panic
  | |- keeps _ (_ ≫= _) => apply keeps_bind; [ | intros ? ]
  | |- keeps _ (do ?a) => keeps_action
  | |- keeps _ (match ?x with _ => _ end) => destruct x
  | |- keeps _ (let '(_, _) := ?x in _) => destruct x
  end.

Ltac keeps_tac := repeat keeps_step.




Arguments strconv.FormatInt : simpl never.
Arguments strconv.ParseInt : simpl never.
Arguments json.encode_map : simpl never.
Arguments json.Encode_int : simpl never.
Arguments json.Encode_map : simpl never.
Arguments json.readValue : simpl never.
Arguments json.Decode_int : simpl never.
Arguments json.Decode_map : simpl never.
Arguments GoInt.add : simpl never.
Arguments GoInt.mul : simpl never.
Arguments GoInt.wrap : simpl never.

Lemma run_bind_do {A B} tid (a : act A) (f : A -> prog B) ins w :
  run tid (do a ≫= f) ins w =
  match perform tid a ins w with
  | Done w' r rest => run tid (f r) rest (record tid (Ev a r) w')
  | Blocked => Waiting (do a ≫= f) w ins
  | Fatal m => Crashed m w
  | Starved => NoInput (do a ≫= f) w
  end.
Proof. rewrite run_bind, run_do. destruct (perform tid a ins w); reflexivity. Qed.

(** One action forward in a goal about [run]. *)
Ltac run_step :=
  cbv zeta;
  first [ rewrite run_bind_do | rewrite run_do | rewrite run_ret ];
  cbn [perform mu kv chans snapshots logs record with_mu with_kv with_chans
       with_snapshots with_logs].

(** From the moment the pump holds the lock at the expected index: the
    world once the index is recorded, before the command is dispatched. *)
Definition committed (tid : nat) (index : Z) (w : World) : World :=
  record tid (Ev (Store FcommitIndex index) tt)
    (with_kv
       (record tid (Ev (Load FcommitIndex) (commitIndex (kv w)))
          (record tid (Ev Lock tt) (with_mu w (Some tid))))
       (store FcommitIndex index (kv w))).

Lemma apply_msg_expected tid msg ins w :
  mu w = None ->
  CommandValid msg = true ->
  CommandIndex msg = GoInt.add (commitIndex (kv w)) 1 ->
  run tid (apply_msg msg) ins w =
  run tid (sessionId ← applyOp (Command msg);
           deliver (CommandIndex msg) (CommandTerm msg) sessionId;;
           snapshotIfDue (CommandIndex msg);;
           do Unlock)
      ins (committed tid (CommandIndex msg) w).
Proof.
  intros Hmu Hv Hi. unfold apply_msg. rewrite Hv.
  run_step. rewrite Hmu. cbn beta iota. run_step. simpl load.
  rewrite Hi, Z.eqb_refl. cbn [negb]. run_step. reflexivity.
Qed.

(** A message that is not at the expected index is dropped: the lock is
    taken and released, a warning is printed, and no field changes. *)
Lemma apply_msg_unexpected tid msg ins w :
  mu w = None ->
  CommandValid msg = true ->
  CommandIndex msg <> GoInt.add (commitIndex (kv w)) 1 ->
  exists w',
    run tid (apply_msg msg) ins w = Returned tt w' ins
    /\ kv w' = kv w /\ mu w' = None /\ chans w' = chans w
    /\ snapshots w' = snapshots w.
Proof.
  intros Hmu Hv Hi. unfold apply_msg. rewrite Hv.
  run_step. rewrite Hmu. cbn beta iota. run_step. simpl load.
  apply Z.eqb_neq in Hi. rewrite Hi. cbn [negb].
  run_step. run_step. run_step.
  eexists. split; [reflexivity | simpl; auto].
Qed.

(** ** The state machine *)














(** A server that has applied every index up to the largest [int], as a
    snapshot carrying that index leaves it, and the command message whose
    index is the smallest [int]. *)
Definition kv_at (ci : Z) : KVServer :=
  mkKVServer ∅ ∅ 1 ci ∅ 1 "123456" (-1) (-1) false (GoInt.mul 3600 Second).

Definition command_msg (index term : Z) (op : Op) : ApplyMsg :=
  mkApplyMsg true op index term false EmptyString 0.

Definition get_op (key : string) : Op := mkOp GET key EmptyString EmptyString.




(** ** Session identifiers *)









(** ** Start-up configuration *)

Definition sample_env (port maxRaftState timeout : Z) (snapshot : string) : Environment :=
  mkEnvironment
    (Ok (mkKVServiceConf 1 (mkKVServerConf "123456" port maxRaftState timeout false)))
    (Ok snapshot) (fun _ => Ok tt) (Ok tt).

(** The same environment with another [sessionTimeout] in its
    configuration. *)
Definition with_SessionTimeout (env : Environment) (timeout : Z) : Environment :=
  match env_conf env with
  | Ok conf =>
    let c := KVServerSection conf in
    mkEnvironment
      (Ok (mkKVServiceConf (Me conf)
             (mkKVServerConf (Password c) (Port c) (MaxRaftState c) timeout
                             (LogEnabled c))))
      (env_storage env) (env_listen env) (env_raft env)
  | Err _ => env
  end.

(** C5 as stated fails on both counts: with [sessionTimeout = 0] the
    server starts the reaper, with a timeout of an hour; with
    [sessionTimeout = -1] the server starts. *)
Lemma sessionTimeout_zero_and_negative :
  (exists st, StartKVServer (sample_env 8080 100 0 EmptyString) = Ok st
              /\ st_reaper st = true
              /\ sessionTimeout (kv (st_world st)) = 3600 * Second)
  /\ (exists st, StartKVServer (sample_env 8080 100 (-1) EmptyString) = Ok st
                 /\ st_reaper st = false).
Proof.
  split; eexists; (split; [vm_compute; reflexivity |]); simpl; auto.
Qed.

Lemma StartKVServer_sessionTimeout env conf st :
  env_conf env = Ok conf ->
  StartKVServer env = Ok st ->
  let t := SessionTimeout (KVServerSection conf) in
  st_reaper st = (0 <? (if t =? 0 then DefaultSessionTimeout else t))
  /\ sessionTimeout (kv (st_world st))
     = GoInt.mul (if t =? 0 then DefaultSessionTimeout else t) Second.
Proof.
  unfold StartKVServer. intros Hc H. rewrite Hc in H. cbv zeta.
  destruct (Port (KVServerSection conf) <? 0); [discriminate |].
  destruct (env_storage env) as [snapshot | e]; [| discriminate].
  match type of H with
  | context [match ?r with Ok w => _ | Err e => Err e end] => destruct r as [w | e]
  end; [| discriminate].
  destruct (0 <? MaxRaftState (KVServerSection conf));
    destruct (env_listen env _); try discriminate;
    destruct (env_raft env); try discriminate;
    injection H as <-; cbn [st_reaper st_world kv emptyWorld sessionTimeout];
    destruct (SessionTimeout (KVServerSection conf)) as [| p | p];
    simpl; auto.
Qed.

Lemma StartKVServer_any_sessionTimeout env t :
  is_ok (StartKVServer (with_SessionTimeout env t)) = is_ok (StartKVServer env).
Proof.
  unfold with_SessionTimeout, StartKVServer.
  destruct (env_conf env) as [conf | e] eqn:Hc; [| rewrite Hc; reflexivity].
  cbn [env_conf env_storage env_listen env_raft KVServerSection Port Me
       MaxRaftState SessionTimeout Password LogEnabled].
  destruct (Port (KVServerSection conf) <? 0); [reflexivity |].
  destruct (env_storage env) as [snapshot | e]; [| reflexivity].
  match goal with
  | |- context [match ?r with Ok w => _ | Err e => Err e end] => destruct r as [w | e]
  end; [| reflexivity].
  destruct (0 <? MaxRaftState (KVServerSection conf));
    destruct (env_listen env _); try reflexivity;
    destruct (env_raft env); reflexivity.
Qed.

(** *** Who removes a session *)

(** An action that neither deletes an entry of [kv.sessionMap] nor
    replaces the map. *)
Definition spares {A} (a : act A) : Prop :=
  match a with
  | MapDelete m _ => match m with MsessionMap => False | _ => True end
  | Store f _ => match f with FsessionMap => False | _ => True end
  | _ => True
  end.

(** A program none of whose actions, on any of its paths, removes a
    session. *)
Inductive spares_sessions {R} : prog R -> Prop :=
| spares_ret r : spares_sessions (Ret r)
| spares_panic msg : spares_sessions (Panic msg)
| spares_do {A} (a : act A) k :
    spares a -> (forall x, spares_sessions (k x)) -> spares_sessions (Do a k).

Lemma spares_sessions_bind {A B} (p : prog A) (f : A -> prog B) :
  spares_sessions p -> (forall r, spares_sessions (f r)) -> spares_sessions (p ≫= f).
Proof.
  intros Hp Hf. rewrite bind_unfold.
  induction Hp as [r | msg | X a k Ha Hk IH]; cbn [bind];
    [apply Hf | constructor | constructor; assumption].
Qed.

Lemma spares_sessions_do {A} (a : act A) : spares a -> spares_sessions (do a).
Proof. intros Ha. constructor; [exact Ha | intros x; constructor]. Qed.

Definition has_session (sid : string) (w : World) : Prop :=
  is_Some (sessionMap (kv w) !! sid).

Lemma spares_perform {A} tid (a : act A) ins w w' r rest sid :
  spares a ->
  perform tid a ins w = Done w' r rest ->
  has_session sid w -> has_session sid w'.
Proof.
  unfold has_session. intros Ha H Hs.
  destruct a; try destruct m; try destruct f; try contradiction; simpl in H;
    repeat match type of H with
           | context [match ?x with _ => _ end] => destruct x eqn:?; try discriminate H
           end;
    injection H as <- _ _; simpl; try assumption.
  destruct (decide (k = sid)) as [-> | Hne];
    [rewrite lookup_insert_eq; eauto | rewrite lookup_insert_ne; assumption].
Qed.

(** However far such a program gets, every session is still there, and
    what is left of the program removes none either. *)
Lemma spares_sessions_run {R} (p : prog R) :
  spares_sessions p ->
  forall sid tid ins w,
    has_session sid w ->
    has_session sid (world_of (run tid p ins w))
    /\ match run tid p ins w with
       | Waiting p' _ _ | NoInput p' _ => spares_sessions p'
       | _ => True
       end.
Proof.
  induction 1 as [r | msg | X a k Ha Hk IH]; intros sid tid ins w Hs; cbn [run world_of].
  - auto.
  - auto.
  - destruct (perform tid a ins w) as [w' r rest | | msg |] eqn:E; cbn [world_of].
    + apply IH. apply (spares_perform tid a ins w w' r rest sid Ha E) in Hs. exact Hs.
    + split; [exact Hs | constructor; assumption].
    + auto.
    + split; [exact Hs | constructor; assumption].
Qed.

Ltac spares_step :=
  lazymatch goal with
  | |- spares_sessions (mret _) => constructor
  | |- spares_sessions (Panic _) => constructor
  | |- spares_sessions (_ ≫= _) => apply spares_sessions_bind; [ | intros ? ]
  | |- spares_sessions (do ?a) => apply spares_sessions_do; exact I
  | |- spares_sessions (match ?x with _ => _ end) => destruct x
  | |- spares_sessions (let '(_, _) := ?x in _) => destruct x
  end.

Ltac spares_tac := repeat spares_step.

Lemma submit_spares op : spares_sessions (submit op).
Proof. unfold submit. spares_tac. Qed.

Lemma checkSession_spares sessionId : spares_sessions (checkSession sessionId).
Proof. unfold checkSession. spares_tac. Qed.

Lemma OpenSession_spares request : spares_sessions (OpenSession request).
Proof. unfold OpenSession. pose proof submit_spares. spares_tac; auto. Qed.

Lemma Get_spares args : spares_sessions (Get args).
Proof.
  unfold Get. pose proof submit_spares. pose proof checkSession_spares.
  spares_tac; auto.
Qed.

Lemma Update_spares args : spares_sessions (Update args).
Proof.
  unfold Update. pose proof submit_spares. pose proof checkSession_spares.
  spares_tac; auto.
Qed.

Lemma apply_msg_spares msg : spares_sessions (apply_msg msg).
Proof.
  unfold apply_msg, applyOp, deliver, snapshotIfDue, makeSnapshot, recoverFrom.
  spares_tac.
Qed.

Lemma apply_spares msgs : spares_sessions (apply msgs).
Proof.
  induction msgs as [| msg rest IH]; cbn [apply]; [constructor |].
  apply spares_sessions_bind; [apply apply_msg_spares | intros _; exact IH].
Qed.

(** C5, as the code has it. A configured [sessionTimeout] of [0] selects
    the default of 3600 seconds and the reaper is started; a negative one is
    accepted (start-up succeeds or fails as it would with any other value)
    and the reaper is not started, and then no session is ever removed:
    neither the three handlers nor the apply pump remove one
    ([spares_sessions_run] says what that means for their runs). *)
Theorem sessionTimeout_configuration env conf st :
  env_conf env = Ok conf ->
  StartKVServer env = Ok st ->
  let t := SessionTimeout (KVServerSection conf) in
  (t = 0 -> st_reaper st = true
            /\ sessionTimeout (kv (st_world st)) = 3600 * Second)
  /\ (t < 0 -> st_reaper st = false
               /\ (forall request, spares_sessions (OpenSession request))
               /\ (forall args, spares_sessions (Get args))
               /\ (forall args, spares_sessions (Update args))
               /\ (forall msgs, spares_sessions (apply msgs)))
  /\ (forall t', is_ok (StartKVServer (with_SessionTimeout env t')) = true).
Proof.
  intros Hc H t.
  destruct (StartKVServer_sessionTimeout env conf st Hc H) as [Hr Ht].
  fold t in Hr, Ht.
  split; [| split].
  - intros E. rewrite Hr, Ht, E. split; reflexivity.
  - intros E. split.
    + rewrite Hr. destruct (t =? 0) eqn:E0; [lia |]. apply Z.ltb_ge. lia.
    + split; [exact OpenSession_spares |]. split; [exact Get_spares |].
      split; [exact Update_spares | exact apply_spares].
  - intros t'. rewrite StartKVServer_any_sessionTimeout, H. reflexivity.
Qed.

Lemma sessionTimeout_configuration_witness :
  exists st,
    StartKVServer (sample_env 8080 100 (-1) EmptyString) = Ok st
    /\ st_reaper st = false
    /\ is_ok (StartKVServer
                (with_SessionTimeout (sample_env 8080 100 (-1) EmptyString) 0)) = true.
Proof.
  destruct (StartKVServer (sample_env 8080 100 (-1) EmptyString)) as [st | e] eqn:E;
    [| vm_compute in E; discriminate].
  exists st. split; [reflexivity |].
  pose proof (sessionTimeout_configuration
                (sample_env 8080 100 (-1) EmptyString) _ st eq_refl E) as H.
  destruct H as (_ & H1 & H2). destruct H1 as [H1 _]; [reflexivity |].
  split; [exact H1 | apply H2].
Defined.

(** ** The request coordinator *)

(** The slot at [index] is free, or holds a channel of capacity one that
    is open and empty. *)
Definition slot_ok (w : World) (index : Z) : Prop :=
  match replyChan (kv w) !! index with
  | None => True
  | Some c => chans w !! c = Some (mkChan 1 [] false)
  end.

(** What [submit] returns once it has received [res], having observed
    [term] when it started the command. *)
Definition submit_result (term : Z) (res : ApplyResult) : option ApplyResult * ErrCode :=
  if Term res =? term then (Some res, OK) else (None, WRONG_LEADER).

Lemma fresh_chan_None (w : World) : chans w !! fresh (dom (chans w)) = None.
Proof. apply not_elem_of_dom, is_fresh. Qed.

Lemma submit_not_leader tid op index term rest w :
  run tid (submit op) (RaftStarted index term false :: rest) w
  = Returned (None, WRONG_LEADER)
             (record tid (Ev (RfStart op) (index, term, false)) w) rest.
Proof. unfold submit. run_step. reflexivity. Qed.

(** The world when [submit] has installed its slot and released the lock,
    from a world in which the slot at [index] was free. *)
Definition installed (tid : nat) (op : Op) (index term : Z) (w : World) : World :=
  let ch := fresh (dom (chans w)) in
  mkWorld (map_set MreplyChan index ch (kv w)) None
          (<[ch := mkChan 1 [] false]> (chans w)) (snapshots w) (logs w)
          ((tid, Ev Unlock tt)
             :: (tid, Ev (MapSet MreplyChan index ch) tt)
             :: (tid, Ev (MakeChan 1) ch)
             :: (tid, Ev (MapGet MreplyChan index) None)
             :: (tid, Ev Lock tt)
             :: (tid, Ev (RfStart op) (index, term, true))
             :: trace w).

(** The same, from a world in which channel [c] was waiting at [index]:
    [c] is told the new term and closed before the new slot goes in. *)
Definition displaced (tid : nat) (op : Op) (index term : Z) (c : chan_id) (w : World)
  : World :=
  let sentinel := mkApplyResult term EmptyString in
  let chans1 := <[c := mkChan 1 [sentinel] true]> (chans w) in
  let ch := fresh (dom chans1) in
  mkWorld (map_set MreplyChan index ch (kv w)) None
          (<[ch := mkChan 1 [] false]> chans1) (snapshots w) (logs w)
          ((tid, Ev Unlock tt)
             :: (tid, Ev (MapSet MreplyChan index ch) tt)
             :: (tid, Ev (MakeChan 1) ch)
             :: (tid, Ev (Close c) tt)
             :: (tid, Ev (Send c sentinel) tt)
             :: (tid, Ev (MapGet MreplyChan index) (Some c))
             :: (tid, Ev Lock tt)
             :: (tid, Ev (RfStart op) (index, term, true))
             :: trace w).

Definition await (term : Z) (ch : chan_id) : prog (option ApplyResult * ErrCode) :=
  res ← do (Recv ch);
  if Term res =? term then mret (Some res, OK) else mret (None, WRONG_LEADER).

Lemma submit_free tid op index term rest w :
  mu w = None ->
  replyChan (kv w) !! index = None ->
  run tid (submit op) (RaftStarted index term true :: rest) w
  = Waiting (await term (fresh (dom (chans w)))) (installed tid op index term w) rest.
Proof.
  intros Hmu Hfree. unfold submit.
  run_step. cbn [negb]. run_step. rewrite Hmu.
  run_step. cbn [map_get]. rewrite Hfree.
  rewrite run_bind, run_ret.
  do 3 run_step.
  unfold await. run_step.
  rewrite lookup_insert_eq. reflexivity.
Qed.

Lemma submit_displace tid op index term rest c w :
  mu w = None ->
  replyChan (kv w) !! index = Some c ->
  chans w !! c = Some (mkChan 1 [] false) ->
  run tid (submit op) (RaftStarted index term true :: rest) w
  = Waiting (await term (fresh (dom (<[c := mkChan 1 [mkApplyResult term EmptyString] true]>
                                      (chans w)))))
            (displaced tid op index term c w) rest.
Proof.
  intros Hmu Hreg Hc. unfold submit.
  run_step. cbn [negb]. run_step. rewrite Hmu.
  run_step. cbn [map_get]. rewrite Hreg.
  rewrite run_bind. run_step. rewrite Hc. cbn [ch_closed ch_buf ch_cap length Nat.ltb Nat.leb app].
  run_step. rewrite lookup_insert_eq. cbn [ch_closed ch_buf ch_cap].
  rewrite insert_insert_eq.
  do 3 run_step.
  unfold await. run_step.
  rewrite lookup_insert_eq. reflexivity.
Qed.

Lemma await_receives tid term ch res buf cap closed ins w :
  chans w !! ch = Some (mkChan cap (res :: buf) closed) ->
  exists w',
    run tid (await term ch) ins w = Returned (submit_result term res) w' ins
    /\ kv w' = kv w /\ mu w' = mu w.
Proof.
  intros Hc. unfold await. run_step. rewrite Hc. cbn [ch_buf ch_cap ch_closed].
  unfold submit_result.
  destruct (Term res =? term); rewrite run_ret; eexists; (split; [reflexivity | auto]).
Qed.

(** C1. [submit] returns [WRONG_LEADER] and no result at once when
    consensus does not lead. Otherwise it installs its slot and waits on it;
    and once a result is there, it returns [OK] with that result exactly
    when the result's term is the one [Start] gave, and [WRONG_LEADER] with
    no result otherwise. *)
Theorem submit_outcome tid op index term rest w :
  mu w = None ->
  slot_ok w index ->
  (exists w', run tid (submit op) (RaftStarted index term false :: rest) w
              = Returned (None, WRONG_LEADER) w' rest
              /\ kv w' = kv w /\ chans w' = chans w)
  /\ (exists ch w',
         run tid (submit op) (RaftStarted index term true :: rest) w
         = Waiting (await term ch) w' rest
         /\ replyChan (kv w') !! index = Some ch
         /\ chans w' !! ch = Some (mkChan 1 [] false)
         /\ forall res buf cap closed ins w2,
             chans w2 !! ch = Some (mkChan cap (res :: buf) closed) ->
             exists w3,
               run tid (await term ch) ins w2
               = Returned (if Term res =? term then (Some res, OK)
                           else (None, WRONG_LEADER)) w3 ins).
Proof.
  intros Hmu Hslot. split.
  - rewrite submit_not_leader. eexists. split; [reflexivity | auto].
  - unfold slot_ok in Hslot.
    destruct (replyChan (kv w) !! index) as [c |] eqn:Hreg.
    + rewrite (submit_displace _ _ _ _ _ c) by assumption.
      eexists _, _. split; [reflexivity |].
      split; [simpl; apply lookup_insert_eq |].
      split; [simpl; apply lookup_insert_eq |].
      intros res buf cap closed ins w2 H2.
      destruct (await_receives tid term _ res buf cap closed ins w2 H2) as (w3 & Hr & _).
      exists w3. exact Hr.
    + rewrite submit_free by assumption.
      eexists _, _. split; [reflexivity |].
      split; [simpl; apply lookup_insert_eq |].
      split; [simpl; apply lookup_insert_eq |].
      intros res buf cap closed ins w2 H2.
      destruct (await_receives tid term _ res buf cap closed ins w2 H2) as (w3 & Hr & _).
      exists w3. exact Hr.
Qed.

Definition update_type (t : RequestType) : bool :=
  RequestType_eqb t PUT || RequestType_eqb t APPEND || RequestType_eqb t DELETE.

Lemma update_type_test t :
  negb (RequestType_eqb t PUT) && negb (RequestType_eqb t APPEND)
  && negb (RequestType_eqb t DELETE) = negb (update_type t).
Proof. unfold update_type. rewrite !negb_orb. reflexivity. Qed.

(** A command reaches consensus through [rf.Start] only. *)
Definition is_RfStart (e : nat * event) : bool :=
  match e with
  | (_, Ev (RfStart _) _) => true
  | _ => false
  end.

Definition submitted_to_consensus (events : list (nat * event)) : bool :=
  existsb is_RfStart events.

(** The events of [checkSession] on a session that is not in the
    registry. *)
Definition session_rejected (tid : nat) (sessionId : string) : list (nat * event) :=
  [(tid, Ev Unlock tt); (tid, Ev (MapGet MsessionMap sessionId) None); (tid, Ev Lock tt)].

Lemma checkSession_invalid tid sessionId ins w :
  mu w = None ->
  sessionMap (kv w) !! sessionId = None ->
  exists w',
    run tid (checkSession sessionId) ins w = Returned false w' ins
    /\ kv w' = kv w /\ mu w' = None /\ chans w' = chans w
    /\ trace w' = (session_rejected tid sessionId ++ trace w)%list.
Proof.
  intros Hmu Hs. unfold checkSession.
  run_step. rewrite Hmu. run_step. cbn [map_get]. rewrite Hs.
  run_step. rewrite run_ret. eexists. split; [reflexivity | simpl; auto].
Qed.

Lemma Get_rejections tid args w :
  (gq_request_type args <> GET ->
   forall ins, run tid (Get args) ins w
               = Returned (mkGetReply EmptyString INVALID_REQUEST_TYPE) w ins)
  /\ (gq_request_type args = GET ->
      forall term rest,
        run tid (Get args) (RaftState term false :: rest) w
        = Returned (mkGetReply EmptyString WRONG_LEADER)
                   (record tid (Ev RfGetState (term, false)) w) rest)
  /\ (gq_request_type args = GET ->
      mu w = None ->
      sessionMap (kv w) !! gq_session_id args = None ->
      forall term rest,
      exists w',
        run tid (Get args) (RaftState term true :: rest) w
        = Returned (mkGetReply EmptyString INVALID_SESSION) w' rest
        /\ kv w' = kv w
        /\ trace w' = (session_rejected tid (gq_session_id args)
                       ++ (tid, Ev RfGetState (term, true)) :: trace w)%list).
Proof.
  split; [| split].
  - intros Ht ins. unfold Get.
    destruct (gq_request_type args); try congruence; reflexivity.
  - intros Ht term rest. unfold Get. rewrite Ht. cbn [RequestType_eqb negb].
    run_step. reflexivity.
  - intros Ht Hmu Hs term rest. unfold Get. rewrite Ht. cbn [RequestType_eqb negb].
    run_step. cbn [snd negb]. rewrite run_bind.
    destruct (checkSession_invalid tid (gq_session_id args) rest
                (record tid (Ev RfGetState (term, true)) w) Hmu Hs)
      as (w' & Hr & Hk & _ & _ & Htr).
    rewrite Hr. cbn [negb]. rewrite run_ret.
    exists w'. split; [reflexivity |]. split; [exact Hk | exact Htr].
Qed.

Lemma Update_rejections tid args w :
  (update_type (uq_request_type args) = false ->
   forall ins, run tid (Update args) ins w
               = Returned (mkUpdateReply INVALID_REQUEST_TYPE) w ins)
  /\ (update_type (uq_request_type args) = true ->
      forall term rest,
        run tid (Update args) (RaftState term false :: rest) w
        = Returned (mkUpdateReply WRONG_LEADER)
                   (record tid (Ev RfGetState (term, false)) w) rest)
  /\ (update_type (uq_request_type args) = true ->
      mu w = None ->
      sessionMap (kv w) !! uq_session_id args = None ->
      forall term rest,
      exists w',
        run tid (Update args) (RaftState term true :: rest) w
        = Returned (mkUpdateReply INVALID_SESSION) w' rest
        /\ kv w' = kv w
        /\ trace w' = (session_rejected tid (uq_session_id args)
                       ++ (tid, Ev RfGetState (term, true)) :: trace w)%list).
Proof.
  split; [| split].
  - intros Ht ins. unfold Update. cbv zeta. rewrite update_type_test, Ht. reflexivity.
  - intros Ht term rest. unfold Update. cbv zeta. rewrite update_type_test, Ht.
    cbn [negb]. run_step. reflexivity.
  - intros Ht Hmu Hs term rest. unfold Update. cbv zeta. rewrite update_type_test, Ht.
    cbn [negb]. run_step. cbn [snd negb]. rewrite run_bind.
    destruct (checkSession_invalid tid (uq_session_id args) rest
                (record tid (Ev RfGetState (term, true)) w) Hmu Hs)
      as (w' & Hr & Hk & _ & _ & Htr).
    rewrite Hr. cbn [negb]. rewrite run_ret.
    exists w'. split; [reflexivity |]. split; [exact Hk | exact Htr].
Qed.

(** The events a goroutine added to the trace between two worlds. *)
Definition added (w w' : World) : list (nat * event) :=
  take (length (trace w') - length (trace w)) (trace w').

Lemma added_app ev w w' : trace w' = (ev ++ trace w)%list -> added w w' = ev.
Proof.
  intros H. unfold added. rewrite H, length_app.
  replace (length ev + length (trace w) - length (trace w))%nat with (length ev) by lia.
  apply take_app_length.
Qed.

(** A request turned away: the reply, with the state of the server as it
    was and no call of [rf.Start] among the events added. *)
Definition rejected {R} (tid : nat) (p : prog R) (ins rest : list input)
           (w : World) (reply : R) : Prop :=
  exists w', run tid p ins w = Returned reply w' rest
             /\ kv w' = kv w
             /\ submitted_to_consensus (added w w') = false.

(** C10. [Get] and [Update] test the request type first, then leadership,
    then the session: a request of a wrong type gets [INVALID_REQUEST_TYPE]
    whether or not the node leads; a request of the right type at a node
    that does not lead gets [WRONG_LEADER] whatever its session; a request
    with an unknown session at the leader gets [INVALID_SESSION]; and in
    none of the three cases is [rf.Start] called. *)
Theorem rejection_order tid (g : GetRequest) (u : UpdateRequest) term rest w :
  mu w = None ->
  (gq_request_type g <> GET ->
   forall leader,
     rejected tid (Get g) (RaftState term leader :: rest)
              (RaftState term leader :: rest) w
              (mkGetReply EmptyString INVALID_REQUEST_TYPE))
  /\ (gq_request_type g = GET ->
      rejected tid (Get g) (RaftState term false :: rest) rest w
               (mkGetReply EmptyString WRONG_LEADER))
  /\ (gq_request_type g = GET ->
      sessionMap (kv w) !! gq_session_id g = None ->
      rejected tid (Get g) (RaftState term true :: rest) rest w
               (mkGetReply EmptyString INVALID_SESSION))
  /\ (update_type (uq_request_type u) = false ->
      forall leader,
        rejected tid (Update u) (RaftState term leader :: rest)
                 (RaftState term leader :: rest) w
                 (mkUpdateReply INVALID_REQUEST_TYPE))
  /\ (update_type (uq_request_type u) = true ->
      rejected tid (Update u) (RaftState term false :: rest) rest w
               (mkUpdateReply WRONG_LEADER))
  /\ (update_type (uq_request_type u) = true ->
      sessionMap (kv w) !! uq_session_id u = None ->
      rejected tid (Update u) (RaftState term true :: rest) rest w
               (mkUpdateReply INVALID_SESSION)).
Proof.
  intros Hmu.
  destruct (Get_rejections tid g w) as (G1 & G2 & G3).
  destruct (Update_rejections tid u w) as (U1 & U2 & U3).
  unfold rejected.
  split; [| split; [| split; [| split; [| split]]]].
  - intros Ht leader. exists w. rewrite G1 by assumption.
    split; [reflexivity |]. split; [reflexivity |].
    rewrite (added_app [] w w) by reflexivity. reflexivity.
  - intros Ht. eexists. rewrite G2 by assumption.
    split; [reflexivity |]. split; [reflexivity |].
    rewrite (added_app [(tid, Ev RfGetState (term, false))]) by reflexivity.
    reflexivity.
  - intros Ht Hs. destruct (G3 Ht Hmu Hs term rest) as (w' & Hr & Hk & Htr).
    exists w'. split; [exact Hr |]. split; [exact Hk |].
    rewrite (added_app (session_rejected tid (gq_session_id g)
                          ++ [(tid, Ev RfGetState (term, true))])%list)
      by (rewrite Htr, <- app_assoc; reflexivity).
    reflexivity.
  - intros Ht leader. exists w. rewrite U1 by assumption.
    split; [reflexivity |]. split; [reflexivity |].
    rewrite (added_app [] w w) by reflexivity. reflexivity.
  - intros Ht. eexists. rewrite U2 by assumption.
    split; [reflexivity |]. split; [reflexivity |].
    rewrite (added_app [(tid, Ev RfGetState (term, false))]) by reflexivity.
    reflexivity.
  - intros Ht Hs. destruct (U3 Ht Hmu Hs term rest) as (w' & Hr & Hk & Htr).
    exists w'. split; [exact Hr |]. split; [exact Hk |].
    rewrite (added_app (session_rejected tid (uq_session_id u)
                          ++ [(tid, Ev RfGetState (term, true))])%list)
      by (rewrite Htr, <- app_assoc; reflexivity).
    reflexivity.
Qed.

(** ** The reply registry *)

(** A pending slot: a channel of capacity one, open and empty. *)
Definition pending_slot : chan := mkChan 1 [] false.

(** The registry holds pending slots only, and no channel under two
    indices. *)
Definition registry_ok (w : World) : Prop :=
  (forall i c, replyChan (kv w) !! i = Some c -> chans w !! c = Some pending_slot)
  /\ (forall i j c, replyChan (kv w) !! i = Some c ->
                    replyChan (kv w) !! j = Some c -> i = j).

(** The invariant between critical sections. *)
Definition registry_inv (w : World) : Prop := mu w = None /\ registry_ok w.

Lemma registry_ok_frame w w' :
  replyChan (kv w') = replyChan (kv w) -> chans w' = chans w ->
  registry_ok w -> registry_ok w'.
Proof. unfold registry_ok. intros -> ->. auto. Qed.

Lemma registry_ok_fresh w i :
  registry_ok w -> replyChan (kv w) !! i <> Some (fresh (dom (chans w))).
Proof.
  intros [Hp _] H. apply Hp in H. rewrite fresh_chan_None in H. discriminate.
Qed.

Lemma registry_ok_install w index ch (cs : gmap chan_id chan) k' :
  registry_ok w ->
  cs !! ch = None ->
  (forall i c, i <> index -> replyChan (kv w) !! i = Some c -> cs !! c = Some pending_slot) ->
  replyChan k' = <[index := ch]> (replyChan (kv w)) ->
  forall w', kv w' = k' -> chans w' = <[ch := pending_slot]> cs ->
  registry_ok w'.
Proof.
  intros [Hp Hinj] Hfresh Hothers Hk w' Hkv Hcs. split.
  - intros i c. rewrite Hkv, Hk, Hcs. destruct (decide (i = index)) as [-> | Hne].
    + rewrite lookup_insert_eq. intros [= <-]. apply lookup_insert_eq.
    + rewrite lookup_insert_ne by auto. intros Hi.
      pose proof (Hothers i c Hne Hi) as Hc.
      rewrite lookup_insert_ne; [exact Hc | congruence].
  - intros i j c. rewrite Hkv, Hk.
    destruct (decide (i = index)) as [-> | Hi], (decide (j = index)) as [-> | Hj];
      rewrite ?lookup_insert_eq, ?lookup_insert_ne by auto; try reflexivity.
    + intros [= <-] Hj'. apply (Hothers j ch Hj) in Hj'. congruence.
    + intros Hi' [= <-]. apply (Hothers i ch Hi) in Hi'. congruence.
    + apply Hinj.
Qed.

Lemma installed_inv tid op index term w :
  registry_inv w ->
  replyChan (kv w) !! index = None ->
  registry_inv (installed tid op index term w).
Proof.
  intros [Hmu Hok] Hfree. split; [reflexivity |].
  eapply (registry_ok_install w index (fresh (dom (chans w))) (chans w)); eauto.
  - apply fresh_chan_None.
  - intros i c _ Hi. apply Hok in Hi. exact Hi.
  - reflexivity.
Qed.

Lemma displaced_inv tid op index term c w :
  registry_inv w ->
  replyChan (kv w) !! index = Some c ->
  registry_inv (displaced tid op index term c w).
Proof.
  intros [Hmu Hok] Hreg. split; [reflexivity |].
  set (cs := <[c := mkChan 1 [mkApplyResult term EmptyString] true]> (chans w)).
  eapply (registry_ok_install w index (fresh (dom cs)) cs); eauto.
  - apply not_elem_of_dom, is_fresh.
  - intros i c' Hne Hi. destruct Hok as [Hp Hinj].
    assert (c' <> c) by (intros ->; apply Hne; eapply Hinj; eauto).
    subst cs. rewrite lookup_insert_ne by auto. eapply Hp; eauto.
  - reflexivity.
Qed.

(** The world after the apply pump has delivered to the channel [ch] that
    waited at [index]. *)
Definition delivered (tid : nat) (index : Z) (ch : chan_id) (res : ApplyResult)
           (w : World) : World :=
  mkWorld (map_delete MreplyChan index (kv w)) (mu w)
          (<[ch := mkChan 1 [res] true]> (chans w)) (snapshots w) (logs w)
          ((tid, Ev (MapDelete MreplyChan index) tt)
             :: (tid, Ev (Close ch) tt)
             :: (tid, Ev (Send ch res) tt)
             :: (tid, Ev (MapGet MreplyChan index) (Some ch))
             :: trace w).

Lemma deliver_pending tid index term sessionId ch ins w :
  replyChan (kv w) !! index = Some ch ->
  chans w !! ch = Some pending_slot ->
  run tid (deliver index term sessionId) ins w
  = Returned tt (delivered tid index ch (mkApplyResult term sessionId) w) ins.
Proof.
  intros Hreg Hc. unfold deliver.
  run_step. cbn [map_get]. rewrite Hreg.
  run_step. rewrite Hc. cbn [pending_slot ch_closed ch_buf ch_cap length Nat.ltb Nat.leb app].
  run_step. rewrite lookup_insert_eq. cbn [ch_closed ch_buf ch_cap].
  rewrite insert_insert_eq. run_step. reflexivity.
Qed.

Lemma deliver_nobody tid index term sessionId ins w :
  replyChan (kv w) !! index = None ->
  run tid (deliver index term sessionId) ins w
  = Returned tt (record tid (Ev (MapGet MreplyChan index) None) w) ins.
Proof.
  intros Hreg. unfold deliver. run_step. cbn [map_get]. rewrite Hreg. reflexivity.
Qed.

Lemma delivered_ok tid index ch res w :
  registry_ok w ->
  replyChan (kv w) !! index = Some ch ->
  registry_ok (delivered tid index ch res w).
Proof.
  intros [Hp Hinj] Hreg. split.
  - intros i c. simpl. destruct (decide (i = index)) as [-> | Hne].
    + rewrite lookup_delete_eq. discriminate.
    + rewrite lookup_delete_ne by auto. intros Hi.
      assert (c <> ch) by (intros ->; apply Hne; eapply Hinj; eauto).
      rewrite lookup_insert_ne by auto. eapply Hp; eauto.
  - intros i j c. simpl.
    destruct (decide (i = index)) as [-> | Hi]; [rewrite lookup_delete_eq; discriminate |].
    destruct (decide (j = index)) as [-> | Hj]; [rewrite lookup_delete_eq; discriminate |].
    rewrite !lookup_delete_ne by auto. apply Hinj.
Qed.

Lemma deliver_ok tid index term sessionId ins w :
  registry_ok w ->
  exists w',
    run tid (deliver index term sessionId) ins w = Returned tt w' ins
    /\ registry_ok w' /\ mu w' = mu w.
Proof.
  intros Hok. destruct (replyChan (kv w) !! index) as [ch |] eqn:Hreg.
  - rewrite (deliver_pending _ _ _ _ ch) by (auto; apply Hok in Hreg; exact Hreg).
    eexists. split; [reflexivity |]. split; [apply delivered_ok; auto | reflexivity].
  - rewrite deliver_nobody by assumption.
    eexists. split; [reflexivity |]. split; [| reflexivity].
    eapply registry_ok_frame; [| | exact Hok]; reflexivity.
Qed.

Lemma run_bind_returned {A B} tid (p : prog A) (f : A -> prog B) ins w r w' rest :
  run tid (p ≫= f) ins w = Returned r w' rest ->
  exists r1 w1 ins1,
    run tid p ins w = Returned r1 w1 ins1 /\ run tid (f r1) ins1 w1 = Returned r w' rest.
Proof.
  rewrite run_bind.
  destruct (run tid p ins w) as [r1 w1 ins1 | | |]; try discriminate.
  intros H. eauto.
Qed.

Lemma keeps_returned {R} P (p : prog R) tid ins w r w' rest :
  keeps P p -> P w -> run tid p ins w = Returned r w' rest -> P w'.
Proof. intros Hk HP Hr. specialize (Hk tid ins w HP). rewrite Hr in Hk. exact Hk. Qed.

(** Programs that touch neither the registry, nor a channel, nor the
    lock. *)
Definition frame (w0 : World) (w : World) : Prop :=
  replyChan (kv w) = replyChan (kv w0) /\ chans w = chans w0 /\ mu w = mu w0.

Lemma applyOp_frame w0 op : keeps (frame w0) (applyOp op).
Proof. unfold applyOp, frame. keeps_tac. Qed.

Lemma snapshotIfDue_frame w0 index : keeps (frame w0) (snapshotIfDue index).
Proof. unfold snapshotIfDue, makeSnapshot, frame. keeps_tac. Qed.

Lemma recoverFrom_frame w0 snapshot : keeps (frame w0) (recoverFrom snapshot).
Proof. unfold recoverFrom, frame. keeps_tac. Qed.

Lemma unlock_returned tid ins w r w' rest :
  run tid (do Unlock) ins w = Returned r w' rest ->
  kv w' = kv w /\ chans w' = chans w /\ mu w' = None.
Proof.
  rewrite run_do. cbn [perform]. destruct (mu w); [| discriminate].
  intros [= <- <- <-]. simpl. auto.
Qed.

Lemma apply_msg_inv tid msg ins w w' rest :
  registry_inv w ->
  run tid (apply_msg msg) ins w = Returned tt w' rest ->
  registry_inv w'.
Proof.
  intros [Hmu Hok] Hrun.
  destruct (CommandValid msg) eqn:Hv.
  - destruct (Z.eq_dec (CommandIndex msg) (GoInt.add (commitIndex (kv w)) 1)) as [Hi | Hi].
    + rewrite apply_msg_expected in Hrun by assumption.
      apply run_bind_returned in Hrun as (sid & w1 & ins1 & Hop & Hrun).
      apply run_bind_returned in Hrun as (? & w2 & ins2 & Hdel & Hrun).
      apply run_bind_returned in Hrun as (? & w3 & ins3 & Hsnap & Hrun).
      apply (keeps_returned _ _ _ _ _ _ _ _ (applyOp_frame _ _) (conj eq_refl (conj eq_refl eq_refl)))
        in Hop as (Hr1 & Hc1 & Hm1).
      assert (Hok1 : registry_ok w1)
        by (eapply registry_ok_frame; [exact Hr1 | exact Hc1 |];
            eapply registry_ok_frame; [| | exact Hok]; reflexivity).
      destruct (deliver_ok tid (CommandIndex msg) (CommandTerm msg) sid ins1 w1 Hok1)
        as (w2' & Hdel' & Hok2 & Hm2).
      rewrite Hdel in Hdel'. simplify_eq.
      apply (keeps_returned _ _ _ _ _ _ _ _ (snapshotIfDue_frame _ _)
                            (conj eq_refl (conj eq_refl eq_refl)))
        in Hsnap as (Hr3 & Hc3 & Hm3).
      apply unlock_returned in Hrun as (Hk4 & Hc4 & Hm4).
      split; [exact Hm4 |].
      eapply registry_ok_frame; [rewrite Hk4; exact Hr3 | rewrite Hc4; exact Hc3 |].
      exact Hok2.
    + destruct (apply_msg_unexpected tid msg ins w Hmu Hv Hi)
        as (w'' & Hr & Hk & Hm & Hc & _).
      rewrite Hr in Hrun. simplify_eq.
      split; [exact Hm |]. eapply registry_ok_frame; [| | exact Hok]; congruence.
  - unfold apply_msg in Hrun. rewrite Hv in Hrun.
    destruct (SnapshotValid msg).
    + rewrite run_bind_do in Hrun. cbn [perform] in Hrun. rewrite Hmu in Hrun.
      apply run_bind_returned in Hrun as (err & w1 & ins1 & Hrec & Hrun).
      apply (keeps_returned _ _ _ _ _ _ _ _ (recoverFrom_frame _ _)
                            (conj eq_refl (conj eq_refl eq_refl)))
        in Hrec as (Hr1 & Hc1 & Hm1).
      destruct err as [e |]; [discriminate |].
      rewrite run_bind_do in Hrun. cbn [perform] in Hrun.
      apply run_bind_returned in Hrun as (? & w2 & ins2 & Hlog & Hrun).
      assert (Hf2 : kv w2 = kv w1 /\ chans w2 = chans w1).
      { destruct (negb _) in Hlog.
        - rewrite run_do in Hlog. cbn [perform] in Hlog.
          injection Hlog as <- <-. simpl. auto.
        - rewrite run_ret in Hlog. injection Hlog as <- <-. simpl. auto. }
      destruct Hf2 as [Hk2 Hc2].
      apply unlock_returned in Hrun as (Hk4 & Hc4 & Hm4).
      split; [exact Hm4 |].
      eapply registry_ok_frame; [| | exact Hok].
      * rewrite Hk4, Hk2. exact Hr1.
      * rewrite Hc4, Hc2. exact Hc1.
    + rewrite run_do in Hrun. cbn [perform] in Hrun. injection Hrun as <- <-.
      split; [exact Hmu |]. eapply registry_ok_frame; [| | exact Hok]; reflexivity.
Qed.

Lemma receive_ok tid c ins w w' res rest :
  registry_ok w ->
  perform tid (Recv c) ins w = Done w' res rest ->
  registry_ok w' /\ mu w' = mu w.
Proof.
  intros Hok. cbn [perform].
  destruct (chans w !! c) as [ch |] eqn:Hc; [| discriminate].
  destruct (ch_buf ch) as [| v buf] eqn:Hb.
  - destruct (ch_closed ch); [| discriminate]. intros [= <- <- <-]. auto.
  - intros [= <- <- <-]. split; [| reflexivity].
    destruct Hok as [Hp Hinj]. split; [| exact Hinj].
    intros i c' Hi. simpl in *.
    assert (c' <> c).
    { intros ->. apply Hp in Hi. rewrite Hc in Hi. injection Hi as ->.
      discriminate. }
    rewrite lookup_insert_ne by auto. eapply Hp; eauto.
Qed.

Lemma checkSession_frame sessionId tid ins w r w' rest :
  mu w = None ->
  run tid (checkSession sessionId) ins w = Returned r w' rest ->
  replyChan (kv w') = replyChan (kv w) /\ chans w' = chans w /\ mu w' = None.
Proof.
  intros Hmu. unfold checkSession.
  rewrite run_bind_do. cbn [perform]. rewrite Hmu.
  rewrite run_bind_do. cbn [perform].
  destruct (map_get MsessionMap sessionId _).
  - rewrite run_bind_do. cbn [perform]. destruct ins as [| [] ins]; try discriminate.
    rewrite run_bind_do. cbn [perform]. rewrite run_bind_do. cbn [perform mu record with_kv with_mu].
    rewrite run_ret. intros [= <- <- <-]. simpl. auto.
  - rewrite run_bind_do. cbn [perform mu record with_kv with_mu].
    rewrite run_ret. intros [= <- <- <-]. simpl. auto.
Qed.

(** The moves of the server between two moments at which [kv.mu] is free:
    a coordinator passes [checkSession]; a coordinator runs [submit] up to
    its wait (or is turned away); a waiting coordinator takes what is in its
    channel; the apply pump handles one message. *)
Inductive server_step : World -> World -> Prop :=
| step_check tid sessionId ins w r w' rest :
    run tid (checkSession sessionId) ins w = Returned r w' rest ->
    server_step w w'
| step_submit_rejected tid op index term rest w w' :
    run tid (submit op) (RaftStarted index term false :: rest) w
    = Returned (None, WRONG_LEADER) w' rest ->
    server_step w w'
| step_submit tid op index term rest w ch w' :
    run tid (submit op) (RaftStarted index term true :: rest) w
    = Waiting (await term ch) w' rest ->
    server_step w w'
| step_receive tid ch ins w res w' rest :
    perform tid (Recv ch) ins w = Done w' res rest ->
    server_step w w'
| step_apply tid msg ins w w' rest :
    run tid (apply_msg msg) ins w = Returned tt w' rest ->
    server_step w w'.

Inductive reachable (w0 : World) : World -> Prop :=
| reach_start : reachable w0 w0
| reach_step w w' : reachable w0 w -> server_step w w' -> reachable w0 w'.

Lemma server_step_inv w w' : registry_inv w -> server_step w w' -> registry_inv w'.
Proof.
  intros Hinv Hstep. pose proof Hinv as [Hmu Hok].
  destruct Hstep as [tid sid ins w r w' rest H | tid op index term rest w w' H
                     | tid op index term rest w ch w' H | tid ch ins w res w' rest H
                     | tid msg ins w w' rest H].
  - apply checkSession_frame in H as (Hr & Hc & Hm); [| exact Hmu].
    split; [exact Hm |]. eapply registry_ok_frame; eauto.
  - rewrite submit_not_leader in H. injection H as <-.
    split; [exact Hmu |]. eapply registry_ok_frame; [| | exact Hok]; reflexivity.
  - destruct (replyChan (kv w) !! index) as [c |] eqn:Hreg.
    + rewrite (submit_displace _ _ _ _ _ c) in H; auto.
      * injection H as _ <-. apply displaced_inv; assumption.
      * apply Hok in Hreg. exact Hreg.
    + rewrite submit_free in H by assumption.
      injection H as _ <-. apply installed_inv; assumption.
  - apply (receive_ok _ _ _ _ _ _ _ Hok) in H as [Hok' Hm].
    split; [congruence | exact Hok'].
  - eapply apply_msg_inv; eauto.
Qed.

Lemma started_inv env st : StartKVServer env = Ok st -> registry_inv (st_world st).
Proof.
  unfold StartKVServer. intros H.
  destruct (env_conf env) as [conf | e]; [| discriminate].
  destruct (Port (KVServerSection conf) <? 0); [discriminate |].
  destruct (env_storage env) as [snapshot | e]; [| discriminate].
  set (kv0 := mkKVServer ∅ ∅ 0 0 ∅ (Me conf) EmptyString 0 0 false 0) in H.
  assert (Hrec : forall w,
             (if (0 <? String.length snapshot)%nat
              then match run 0 (recoverFrom snapshot) [] (emptyWorld kv0) with
                   | Returned None w _ => Ok w
                   | Returned (Some e) _ _ => Err ("restore KVServer snapshot: " +:+ e)
                   | Crashed e _ => Err e
                   | _ => Err "restore KVServer snapshot"
                   end
              else Ok (emptyWorld (store FcommitIndex 0 (store Ftab ∅ (store FuniqueId 1 kv0)))))
             = Ok w -> replyChan (kv w) = ∅).
  { intros w. destruct (0 <? String.length snapshot)%nat.
    - destruct (run 0 (recoverFrom snapshot) [] (emptyWorld kv0))
        as [r w1 ins1 | | |] eqn:Hr; try discriminate.
      destruct r; [discriminate |]. intros [= <-].
      apply (keeps_returned _ _ _ _ _ _ _ _ (recoverFrom_frame (emptyWorld kv0) _)
                            (conj eq_refl (conj eq_refl eq_refl))) in Hr as (Hr1 & _).
      exact Hr1.
    - intros [= <-]. reflexivity. }
  match type of H with
  | context [match ?r with Ok w => _ | Err e => Err e end] =>
    destruct r as [w | e] eqn:Hw; [| discriminate]
  end.
  pose proof (Hrec w eq_refl) as Hempty.
  destruct (0 <? MaxRaftState (KVServerSection conf));
    destruct (env_listen env _); try discriminate;
    destruct (env_raft env); try discriminate;
    injection H as <-; (split; [reflexivity |]); split; simpl; rewrite Hempty;
    intros *; rewrite lookup_empty; discriminate.
Qed.

(** At every moment between critical sections, from start-up on, each
    index has at most one slot, the slot is pending, and no channel waits
    under two indices. *)
Lemma reachable_inv env st w :
  StartKVServer env = Ok st -> reachable (st_world st) w -> registry_inv w.
Proof.
  intros Hs Hr. induction Hr as [| w w' _ IH Hstep].
  - eapply started_inv; eauto.
  - eapply server_step_inv; eauto.
Qed.

(** C6. In every world the server reaches between critical sections, an
    index has at most one slot and the slot is pending. When [submit] is
    given an index at which channel [c] waits, it sends [c] a result that
    carries the term just observed, closes [c], and only then makes the new
    channel of capacity one and puts it at the index. When the apply pump,
    holding the lock over the same registry and channels, delivers at an
    index where [c] waits, it sends the result, closes [c] and removes the
    entry. (Events are listed latest first.) *)
Theorem pending_slots env st w tid op index term sessionId rest c :
  StartKVServer env = Ok st ->
  reachable (st_world st) w ->
  replyChan (kv w) !! index = Some c ->
  registry_inv w
  /\ (exists ch w',
         run tid (submit op) (RaftStarted index term true :: rest) w
         = Waiting (await term ch) w' rest
         /\ added w w'
            = [(tid, Ev Unlock tt);
               (tid, Ev (MapSet MreplyChan index ch) tt);
               (tid, Ev (MakeChan 1) ch);
               (tid, Ev (Close c) tt);
               (tid, Ev (Send c (mkApplyResult term EmptyString)) tt);
               (tid, Ev (MapGet MreplyChan index) (Some c));
               (tid, Ev Lock tt);
               (tid, Ev (RfStart op) (index, term, true))]
         /\ chans w' !! c = Some (mkChan 1 [mkApplyResult term EmptyString] true)
         /\ ch <> c
         /\ replyChan (kv w') !! index = Some ch
         /\ chans w' !! ch = Some pending_slot
         /\ registry_inv w')
  /\ (forall ins w1,
         replyChan (kv w1) = replyChan (kv w) -> chans w1 = chans w ->
         let res := mkApplyResult term sessionId in
         exists w',
           run tid (deliver index term sessionId) ins w1 = Returned tt w' ins
           /\ added w1 w'
              = [(tid, Ev (MapDelete MreplyChan index) tt);
                 (tid, Ev (Close c) tt);
                 (tid, Ev (Send c res) tt);
                 (tid, Ev (MapGet MreplyChan index) (Some c))]
           /\ chans w' !! c = Some (mkChan 1 [res] true)
           /\ replyChan (kv w') !! index = None
           /\ registry_ok w').
Proof.
  intros Hs Hreach Hreg.
  pose proof (reachable_inv env st w Hs Hreach) as Hinv.
  pose proof Hinv as [Hmu Hok].
  assert (Hc : chans w !! c = Some pending_slot) by (apply Hok in Hreg; exact Hreg).
  split; [exact Hinv |]. split.
  - rewrite (submit_displace _ _ _ _ _ c) by assumption.
    set (cs := <[c := mkChan 1 [mkApplyResult term EmptyString] true]> (chans w)).
    assert (Hne : fresh (dom cs) <> c).
    { intros E. pose proof (is_fresh (dom cs)) as Hf. rewrite E in Hf.
      apply Hf, elem_of_dom. subst cs. rewrite lookup_insert_eq. eauto. }
    eexists _, _. split; [reflexivity |].
    split; [apply added_app; reflexivity |].
    split; [simpl; fold cs; rewrite lookup_insert_ne by auto; apply lookup_insert_eq |].
    split; [exact Hne |].
    split; [simpl; apply lookup_insert_eq |].
    split; [simpl; apply lookup_insert_eq |].
    apply displaced_inv; assumption.
  - intros ins w1 Hr1 Hc1 res.
    assert (Hok1 : registry_ok w1) by (eapply registry_ok_frame; eauto).
    rewrite (deliver_pending _ _ _ _ c) by congruence.
    eexists. split; [reflexivity |].
    split; [apply added_app; reflexivity |].
    split; [simpl; apply lookup_insert_eq |].
    split; [simpl; apply lookup_delete_eq |].
    apply delivered_ok; [assumption | congruence].
Qed.

(** ** Reading [tab] for a [Get] *)

(** What is left of [Get] once [submit] waits on [ch]. *)
Definition Get_waiting (args : GetRequest) (term : Z) (ch : chan_id) : prog GetReply :=
  submitted ← await term ch;
  match submitted.2 with
  | OK =>
    v ← do (MapGet Mtab (gq_key args));
    match v with
    | None => mret (mkGetReply EmptyString NO_KEY)
    | Some v => mret (mkGetReply v OK)
    end
  | errCode => mret (mkGetReply EmptyString errCode)
  end.

Definition Get_reply (v : option string) : GetReply :=
  match v with
  | None => mkGetReply EmptyString NO_KEY
  | Some v => mkGetReply v OK
  end.

(** A [Get] with a good session at the leader gets as far as waiting on
    its slot, the lock released. *)
Lemma Get_submits tid args t now index term rest last w :
  gq_request_type args = GET ->
  mu w = None ->
  sessionMap (kv w) !! gq_session_id args = Some last ->
  replyChan (kv w) !! index = None ->
  exists ch w',
    run tid (Get args)
        (RaftState t true :: Clock now :: RaftStarted index term true :: rest) w
    = Waiting (Get_waiting args term ch) w' rest
    /\ mu w' = None
    /\ replyChan (kv w') !! index = Some ch
    /\ tab (kv w') = tab (kv w).
Proof.
  intros Ht Hmu Hs Hfree. unfold Get. rewrite Ht. cbn [RequestType_eqb negb].
  run_step. cbn [snd negb]. rewrite run_bind. unfold checkSession.
  run_step. rewrite Hmu. run_step. cbn [map_get]. rewrite Hs.
  do 3 run_step. rewrite run_ret. cbn [negb].
  rewrite run_bind, submit_free by (simpl; auto).
  eexists _, _. split; [reflexivity |]. simpl.
  split; [reflexivity |]. split; [apply lookup_insert_eq | reflexivity].
Qed.

(** Once the result is in the channel, the handler takes it and reads
    [tab] at once, with no [Lock] between the two: it does so even while
    another goroutine holds [kv.mu]. *)
Lemma Get_reads_unlocked tid args term ch res buf cap closed ins holder w :
  chans w !! ch = Some (mkChan cap (res :: buf) closed) ->
  Term res = term ->
  mu w = holder ->
  exists w',
    run tid (Get_waiting args term ch) ins w
    = Returned (Get_reply (tab (kv w) !! gq_key args)) w' ins
    /\ added w w' = [(tid, Ev (MapGet Mtab (gq_key args)) (tab (kv w) !! gq_key args));
                     (tid, Ev (Recv ch) res)]
    /\ mu w' = holder.
Proof.
  intros Hc Ht Hmu. unfold Get_waiting, await.
  rewrite run_bind. run_step. rewrite Hc. cbn [ch_buf ch_cap ch_closed].
  rewrite Ht, Z.eqb_refl, run_ret. cbn [snd].
  run_step. cbn [map_get].
  destruct (tab (kv w) !! gq_key args) as [v |]; rewrite run_ret;
    (eexists; split; [reflexivity |]; split; [apply added_app; reflexivity | exact Hmu]).
Qed.

(** *** An interleaving *)

Inductive thread : Type :=
| Thread {R} (p : prog R).

(** Goroutines take turns as [sched] says, one action per turn; inputs of
    the environment are consumed in the order they are asked for. *)
Fixpoint run_schedule (sched : list nat) (pool : list thread) (ins : list input)
         (w : World) : option (list thread * World * list input) :=
  match sched with
  | [] => Some (pool, w, ins)
  | tid :: sched' =>
    match pool !! tid with
    | Some (Thread p) =>
      match step1 tid p ins w with
      | Some (p', w', ins') => run_schedule sched' (<[tid := Thread p']> pool) ins' w'
      | None => None
      end
    | None => None
    end
  end.

(** A leader with one session, holding ["old"] at key ["k"]. Goroutine 0
    is the apply pump, which is delivered the [Get] at index 1 and then a
    [Put] of ["new"] at index 2; goroutine 1 is the handler of the [Get]. *)
Definition race_world : World :=
  emptyWorld (mkKVServer ∅ {["1-abc" := 0]} 2 0 {["k" := "old"]} 1 "123456" (-1) (-1)
                         false (GoInt.mul 3600 Second)).

Definition race_pool : list thread :=
  [Thread (apply [command_msg 1 1 (get_op "k");
                  command_msg 2 1 (mkOp PUT "k" "new" EmptyString)]);
   Thread (Get (mkGetRequest "k" "1-abc" GET))].

Definition race_inputs : list input :=
  [RaftState 1 true; Clock 5; RaftStarted 1 1 true].

(** The handler runs up to its wait (twelve actions); the pump applies and
    delivers index 1 (nine actions), then takes the lock for index 2 and
    writes ["new"] (four actions); the handler then receives and reads. *)
Definition race_schedule : list nat :=
  (replicate 12 1 ++ replicate 9 0 ++ replicate 4 0 ++ replicate 2 1)%nat%list.

Definition holds_lock (tid : nat) (w : World) : bool :=
  match mu w with
  | Some holder => Nat.eqb holder tid
  | None => false
  end.

(** C9, the defect. The handler of a [Get] whose command was committed at
    index 1 reads [tab] while the apply pump holds [kv.mu] in the middle of
    applying index 2, and replies with the value that index 2 wrote: the
    read is not under the lock. *)
Theorem Get_reads_tab_without_lock :
  match run_schedule race_schedule race_pool race_inputs race_world with
  | Some (pool, w, rest) =>
    pool !! 1%nat = Some (Thread (Ret (mkGetReply "new" OK)))
    /\ head (trace w) = Some (1%nat, Ev (MapGet Mtab "k") (Some "new"))
    /\ mu w = Some 0%nat
    /\ holds_lock 1 w = false
    /\ commitIndex (kv w) = 2
  | None => False
  end.
Proof. vm_compute. repeat split. Qed.

(** *** The properties above at particular inputs *)

Lemma submit_outcome_witness :
  exists w',
    run 0 (submit (get_op "k")) [RaftStarted 1 1 false] (emptyWorld (kv_at 0))
    = Returned (None, WRONG_LEADER) w' [].
Proof.
  destruct (submit_outcome 0 (get_op "k") 1 1 [] (emptyWorld (kv_at 0)))
    as [(w' & H & _) _].
  - reflexivity.
  - exact I.
  - exists w'. exact H.
Defined.

Lemma rejection_order_witness :
  rejected 0 (Get (mkGetRequest "k" "9-none" GET)) [RaftState 3 false] []
           (emptyWorld (kv_at 0)) (mkGetReply EmptyString WRONG_LEADER).
Proof.
  destruct (rejection_order 0 (mkGetRequest "k" "9-none" GET)
                            (mkUpdateRequest "k" "v" PUT "9-none") 3 []
                            (emptyWorld (kv_at 0)))
    as (_ & H & _).
  - reflexivity.
  - apply H. reflexivity.
Defined.

Lemma pending_slots_witness :
  exists st w,
    StartKVServer (sample_env 8080 100 3600 EmptyString) = Ok st
    /\ reachable (st_world st) w
    /\ replyChan (kv w) !! 1 = Some 0%nat
    /\ registry_inv w.
Proof.
  destruct (StartKVServer (sample_env 8080 100 3600 EmptyString)) as [st | e] eqn:E;
    [| vm_compute in E; discriminate].
  assert (Hmu : mu (st_world st) = None) by (apply (started_inv _ _ E)).
  assert (Hfree : replyChan (kv (st_world st)) !! 1 = None)
    by (vm_compute in E; injection E as <-; reflexivity).
  assert (Hnone : chans (st_world st) = ∅)
    by (vm_compute in E; injection E as <-; reflexivity).
  pose (w := installed 0 (get_op "k") 1 1 (st_world st)).
  assert (Hreach : reachable (st_world st) w).
  { eapply reach_step; [apply reach_start |].
    eapply (step_submit 0 (get_op "k") 1 1 []). apply submit_free; assumption. }
  assert (Hreg : replyChan (kv w) !! 1 = Some 0%nat).
  { subst w. simpl. rewrite lookup_insert_eq, Hnone. reflexivity. }
  exists st, w. split; [reflexivity |]. split; [exact Hreach |]. split; [exact Hreg |].
  apply (pending_slots _ st w 0 (get_op "k") 1 2 EmptyString [] 0%nat E Hreach Hreg).
Defined.

(** ** The snapshot encoding *)

(** *** Strings *)

Lemma app_cons (x : ascii) (a b : string) : String x a +:+ b = String x (a +:+ b).
Proof. reflexivity. Qed.

Lemma app_nil (b : string) : EmptyString +:+ b = b.
Proof. reflexivity. Qed.

Lemma string_app_assoc (a b c : string) : (a +:+ b) +:+ c = a +:+ (b +:+ c).
Proof.
  induction a as [| x a IH]; rewrite ?app_cons, ?app_nil;
    [reflexivity | rewrite IH; reflexivity].
Qed.

Lemma string_app_nil_r (a : string) : a +:+ EmptyString = a.
Proof.
  induction a as [| x a IH]; rewrite ?app_cons, ?app_nil;
    [reflexivity | rewrite IH; reflexivity].
Qed.

Lemma string_app_length (a b : string) :
  String.length (a +:+ b) = (String.length a + String.length b)%nat.
Proof.
  induction a as [| x a IH]; rewrite ?app_cons, ?app_nil; simpl;
    [reflexivity | rewrite IH; reflexivity].
Qed.

(** A string cut in two places: one of the cuts comes first. *)
Lemma string_app_eq_app (p q a b : string) :
  p +:+ q = a +:+ b ->
  (exists r, a = p +:+ r /\ q = r +:+ b)
  \/ (exists r, r <> EmptyString /\ p = a +:+ r /\ b = r +:+ q).
Proof.
  revert a. induction p as [| x p IH]; intros a H; rewrite ?app_cons, ?app_nil in H.
  - left. exists a. auto.
  - destruct a as [| y a]; rewrite ?app_cons, ?app_nil in H.
    + right. exists (String x p). split; [discriminate | auto].
    + injection H as -> H. destruct (IH a H) as [(r & -> & ->) | (r & Hr & -> & ->)].
      * left. exists r. auto.
      * right. exists r. auto.
Qed.

Lemma b2z_range (c : ascii) : 0 <= b2z c < 256.
Proof.
  unfold b2z. pose proof (N_ascii_bounded c). lia.
Qed.

Lemma z2b_b2z (c : ascii) : z2b (b2z c) = c.
Proof. unfold z2b, b2z. rewrite N2Z.id. apply ascii_N_embedding. Qed.

Lemma b2z_z2b (z : Z) : 0 <= z < 256 -> b2z (z2b z) = z.
Proof.
  intros H. unfold z2b, b2z. rewrite N_ascii_embedding by lia. lia.
Qed.

Lemma b2z_inj (c d : ascii) : b2z c = b2z d -> c = d.
Proof. intros H. rewrite <- (z2b_b2z c), <- (z2b_b2z d), H. reflexivity. Qed.

Lemma isc_true (c d : ascii) : json.isc c d = true <-> c = d.
Proof. unfold json.isc. apply Ascii.eqb_eq. Qed.

Lemma isc_b2z (c d : ascii) : json.isc c d = (b2z c =? b2z d).
Proof.
  destruct (Ascii.eqb_spec c d) as [-> | Hne]; unfold json.isc.
  - rewrite Ascii.eqb_refl, Z.eqb_refl. reflexivity.
  - apply Ascii.eqb_neq in Hne as Hne'. rewrite Hne'. symmetry. apply Z.eqb_neq.
    intros E. apply Hne, b2z_inj, E.
Qed.

(** *** Decimal numbers *)

Lemma digit_b2z (d : Z) : 0 <= d < 10 -> b2z (strconv.digit d) = 48 + d.
Proof. intros H. unfold strconv.digit. apply b2z_z2b. lia. Qed.

Lemma digit_is_digit (d : Z) : 0 <= d < 10 -> strconv.is_digit (strconv.digit d) = true.
Proof.
  intros H. unfold strconv.is_digit. rewrite digit_b2z by assumption.
  apply andb_true_intro. split; apply Z.leb_le; lia.
Qed.

(** The power of ten just above [u], computed as [formatBits] counts. *)
Fixpoint weight (fuel : nat) (u : Z) : Z :=
  match fuel with
  | O => 1
  | S f => if u <? 10 then 10 else 10 * weight f (u / 10)
  end.

Lemma parseDigits_formatBits fuel : forall u acc a,
  0 <= u < 10 ^ Z.of_nat fuel ->
  strconv.parseDigits a (strconv.formatBits fuel u acc)
  = strconv.parseDigits (a * weight fuel u + u) acc.
Proof.
  induction fuel as [| f IH]; intros u acc a Hu.
  - simpl in *. assert (u = 0) by lia. subst. f_equal. lia.
  - cbn [strconv.formatBits weight]. destruct (u <? 10) eqn:E.
    + apply Z.ltb_lt in E. cbn [strconv.parseDigits].
      rewrite digit_is_digit, digit_b2z by (rewrite Z.mod_small; lia).
      rewrite Z.mod_small by lia. f_equal. lia.
    + apply Z.ltb_ge in E.
      rewrite IH.
      * cbn [strconv.parseDigits].
        pose proof (Z.mod_pos_bound u 10 ltac:(lia)) as Hm.
        rewrite digit_is_digit, digit_b2z by lia.
        f_equal. pose proof (Z.div_mod u 10 ltac:(lia)). lia.
      * rewrite Nat2Z.inj_succ, Z.pow_succ_r in Hu by lia.
        split; [apply Z.div_pos; lia | apply Z.div_lt_upper_bound; lia].
Qed.

Lemma formatBits_nonempty fuel u acc :
  strconv.formatBits (S fuel) u acc <> EmptyString.
Proof.
  revert u acc. induction fuel as [| f IH]; intros u acc; cbn [strconv.formatBits].
  - destruct (u <? 10); discriminate.
  - destruct (u <? 10); [discriminate |]. apply IH.
Qed.

Lemma ParseInt_FormatInt (z : Z) :
  GoInt.in_range z -> strconv.ParseInt (strconv.FormatInt z) = Some z.
Proof.
  unfold GoInt.in_range, GoInt.MinInt64, GoInt.MaxInt64. intros Hz.
  unfold strconv.FormatInt. destruct (z <? 0) eqn:E.
  - apply Z.ltb_lt in E. unfold strconv.ParseInt.
    replace (Ascii.eqb "-" "+") with false by reflexivity.
    replace (Ascii.eqb "-" "-") with true by reflexivity.
    destruct (strconv.formatBits 20 (- z) EmptyString) eqn:F;
      [exfalso; eapply formatBits_nonempty; eauto |].
    rewrite <- F, parseDigits_formatBits by (simpl; lia).
    cbn [strconv.parseDigits].
    replace (0 * weight 20 (- z) + - z) with (- z) by lia.
    destruct (2 ^ 64 <=? - z) eqn:E1; [apply Z.leb_le in E1; lia |].
    cbn [negb andb].
    destruct (2 ^ 63 <? - z) eqn:E2; [apply Z.ltb_lt in E2; lia |].
    f_equal. lia.
  - apply Z.ltb_ge in E. unfold strconv.ParseInt.
    destruct (strconv.formatBits 20 z EmptyString) as [| c t] eqn:F;
      [exfalso; eapply formatBits_nonempty; eauto |].
    assert (Hc : strconv.is_digit c = true).
    { destruct (strconv.parseDigits 0 (String c t)) eqn:P.
      - cbn [strconv.parseDigits] in P. destruct (strconv.is_digit c); [reflexivity | discriminate].
      - rewrite <- F, parseDigits_formatBits in P by (simpl; lia). discriminate. }
    assert (Hp : Ascii.eqb c "+" = false).
    { apply Ascii.eqb_neq. intros ->. discriminate. }
    assert (Hm : Ascii.eqb c "-" = false).
    { apply Ascii.eqb_neq. intros ->. discriminate. }
    rewrite Hp, Hm. rewrite <- F, parseDigits_formatBits by (simpl; lia).
    cbn [strconv.parseDigits].
    replace (0 * weight 20 z + z) with z by lia.
    destruct (2 ^ 64 <=? z) eqn:E1; [apply Z.leb_le in E1; lia |].
    cbn [negb andb].
    destruct (2 ^ 63 <=? z) eqn:E2; [apply Z.leb_le in E2; lia |].
    reflexivity.
Qed.

(** *** The scanner over a text *)

Definition terminal (code : json.scanCode) : bool :=
  match code with
  | json.scanEnd | json.scanEndObject | json.scanEndArray | json.scanError => true
  | _ => false
  end.

(** The scanner after [txt], when no byte of [txt] ends a value or is an
    error. *)
Fixpoint scan_over (s : json.scanner) (txt : string) : option json.scanner :=
  match txt with
  | EmptyString => Some s
  | String c t =>
    let '(s', code) := json.stepFn s c in
    if terminal code then None else scan_over s' t
  end.

Lemma scan_over_app s a b :
  scan_over s (a +:+ b) = scan_over s a ≫= fun s' => scan_over s' b.
Proof.
  revert s. induction a as [| c a IH]; intros s; rewrite ?app_cons, ?app_nil.
  - reflexivity.
  - cbn [scan_over]. destruct (json.stepFn s c) as [s' code].
    destruct (terminal code); [reflexivity | apply IH].
Qed.

Definition prepend (txt : string) (r : result (string * string)) : result (string * string) :=
  match r with
  | Ok (tok, rest) => Ok (txt +:+ tok, rest)
  | Err e => Err e
  end.

Lemma readValue_go_over txt : forall s s' seen rest,
  scan_over s txt = Some s' ->
  json.readValue_go s seen (txt +:+ rest)
  = prepend txt (json.readValue_go s' (seen || json.nonSpace txt) rest).
Proof.
  induction txt as [| c t IH]; intros s s' seen rest H.
  - injection H as <-. rewrite app_nil. cbn [json.nonSpace]. rewrite orb_false_r.
    destruct (json.readValue_go s seen rest) as [[tok r] | e]; reflexivity.
  - rewrite app_cons. cbn [scan_over] in H. cbn [json.readValue_go json.nonSpace].
    destruct (json.stepFn s c) as [s1 code].
    destruct code; try discriminate H; cbn [terminal] in H;
      rewrite (IH _ _ _ _ H), orb_assoc;
      destruct (json.readValue_go s' _ rest) as [[tok r] | e]; reflexivity.
Qed.

(** At the end of the input a value is complete exactly when a space
    would end it. *)
Lemma readValue_go_eof txt s s' seen :
  scan_over s txt = Some s' ->
  json.readValue_go s seen txt
  = if json.is_scanEnd (json.stepFn s' " ").2 then Ok (txt, EmptyString)
    else Err (if seen || json.nonSpace txt then "unexpected EOF" else "EOF").
Proof.
  intros H. rewrite <- (string_app_nil_r txt) at 1.
  rewrite (readValue_go_over _ _ _ _ _ H). cbn [json.readValue_go].
  destruct (json.is_scanEnd _); cbn [prepend]; [rewrite string_app_nil_r |]; reflexivity.
Qed.

(** White space before a value. *)
Fixpoint all_space (s : string) : bool :=
  match s with
  | EmptyString => true
  | String c t => json.isSpace c && all_space t
  end.

Lemma scan_over_space ws st ps :
  all_space ws = true ->
  st = json.stateBeginValue \/ st = json.stateBeginString
  \/ st = json.stateBeginStringOrEmpty ->
  scan_over (json.Scanner st ps) ws = Some (json.Scanner st ps).
Proof.
  intros Hws Hst. induction ws as [| c t IH]; [reflexivity |].
  cbn [all_space] in Hws. apply andb_prop in Hws as [Hc Ht].
  cbn [scan_over].
  destruct Hst as [-> | [-> | ->]];
    unfold json.stepFn, json.do_stateBeginValue, json.do_stateBeginString;
    cbn [json.step]; rewrite Hc; cbn [terminal]; apply IH; auto.
Qed.

Lemma skipSpace_app ws s :
  all_space ws = true -> json.skipSpace (ws +:+ s) = json.skipSpace s.
Proof.
  induction ws as [| c t IH]; intros H; rewrite ?app_cons, ?app_nil; [reflexivity |].
  cbn [all_space] in H. apply andb_prop in H as [Hc Ht].
  cbn [json.skipSpace]. rewrite Hc. auto.
Qed.

(** *** Numbers in the stream *)

Definition stateNumberStart (st : json.stepState) : Prop :=
  st = json.stateBeginValue \/ st = json.stateNeg \/ st = json.state1.

Lemma is_digit_range c : strconv.is_digit c = true <-> 48 <= b2z c <= 57.
Proof. unfold strconv.is_digit. rewrite andb_true_iff, !Z.leb_le. reflexivity. Qed.

Lemma isc_digit c (d : ascii) :
  strconv.is_digit c = true -> strconv.is_digit d = false -> json.isc c d = false.
Proof.
  intros Hc Hd. rewrite isc_b2z. apply Z.eqb_neq. intros E.
  apply is_digit_range in Hc. rewrite E in Hc. apply is_digit_range in Hc. congruence.
Qed.

Lemma isSpace_digit c : strconv.is_digit c = true -> json.isSpace c = false.
Proof.
  intros Hc. apply is_digit_range in Hc. unfold json.isSpace.
  repeat (apply orb_false_intro); apply Z.eqb_neq; lia.
Qed.

(** A digit other than zero starts a number or goes on with one; any
    digit goes on with one. *)
Lemma stepFn_digit st ps c :
  strconv.is_digit c = true ->
  (st = json.state1 \/ (stateNumberStart st /\ b2z c <> 48)) ->
  exists code, json.stepFn (json.Scanner st ps) c = (json.Scanner json.state1 ps, code)
               /\ terminal code = false.
Proof.
  intros Hc Hst.
  assert (H0 : b2z c <> 48 -> json.isc c "0" = false)
    by (intros H; rewrite isc_b2z; apply Z.eqb_neq; exact H).
  destruct Hst as [-> | [[-> | [-> | ->]] Hnz]];
    unfold json.stepFn, json.do_stateBeginValue; cbn [json.step].
  - rewrite Hc. eexists. split; reflexivity.
  - rewrite (isSpace_digit c Hc), !(isc_digit c) by (assumption || reflexivity).
    rewrite (H0 Hnz), (isc_digit c "t"), (isc_digit c "f"), (isc_digit c "n"), Hc
      by (assumption || reflexivity).
    eexists. split; reflexivity.
  - rewrite (H0 Hnz), Hc. eexists. split; reflexivity.
  - rewrite Hc. eexists. split; reflexivity.
Qed.

Lemma scan_over_formatBits fuel : forall u acc st ps,
  0 < u < 10 ^ Z.of_nat fuel ->
  stateNumberStart st ->
  scan_over (json.Scanner st ps) (strconv.formatBits fuel u acc)
  = scan_over (json.Scanner json.state1 ps) acc.
Proof.
  induction fuel as [| f IH]; intros u acc st ps Hu Hst.
  - simpl in Hu. lia.
  - cbn [strconv.formatBits]. destruct (u <? 10) eqn:E.
    + apply Z.ltb_lt in E. cbn [scan_over].
      destruct (stepFn_digit st ps (strconv.digit (u mod 10))) as (code & -> & ->).
      * apply digit_is_digit. rewrite Z.mod_small; lia.
      * right. split; [exact Hst |]. rewrite digit_b2z, Z.mod_small by (rewrite ?Z.mod_small; lia).
        lia.
      * reflexivity.
    + apply Z.ltb_ge in E. rewrite IH; auto.
      * cbn [scan_over].
        pose proof (Z.mod_pos_bound u 10 ltac:(lia)) as Hm.
        destruct (stepFn_digit json.state1 ps (strconv.digit (u mod 10))) as (code & -> & ->).
        -- apply digit_is_digit. lia.
        -- left. reflexivity.
        -- reflexivity.
      * rewrite Nat2Z.inj_succ, Z.pow_succ_r in Hu by lia.
        split; [apply Z.div_str_pos; lia | apply Z.div_lt_upper_bound; lia].
Qed.

(** The scanner crosses the decimal rendering of an integer and is then in
    a state that any byte other than a digit, a point or an exponent mark
    leaves. *)
Definition after_number (s : json.scanner) : Prop :=
  exists st, s = json.Scanner st [] /\ (st = json.state0 \/ st = json.state1).

Lemma scan_over_FormatInt z :
  GoInt.in_range z ->
  exists s, scan_over json.reset (strconv.FormatInt z) = Some s /\ after_number s.
Proof.
  unfold GoInt.in_range, GoInt.MinInt64, GoInt.MaxInt64. intros Hz.
  unfold strconv.FormatInt. destruct (z <? 0) eqn:E.
  - apply Z.ltb_lt in E. cbn [scan_over]. unfold json.reset.
    replace (json.stepFn (json.Scanner json.stateBeginValue []) "-")
      with (json.Scanner json.stateNeg [], json.scanBeginLiteral) by reflexivity.
    cbn [terminal]. rewrite scan_over_formatBits by (simpl; unfold stateNumberStart; auto; lia).
    eexists. split; [reflexivity |]. eexists. eauto.
  - apply Z.ltb_ge in E. destruct (Z.eq_dec z 0) as [-> | Hnz].
    + eexists. split; [vm_compute; reflexivity |]. eexists. eauto.
    + unfold json.reset.
      rewrite scan_over_formatBits by (simpl; unfold stateNumberStart; auto; lia).
      eexists. split; [reflexivity |]. eexists. eauto.
Qed.

Lemma after_number_ends s c :
  after_number s ->
  json.isc c "." = false -> json.isc c "e" = false -> json.isc c "E" = false ->
  strconv.is_digit c = false ->
  (json.stepFn s c).2 = json.scanEnd.
Proof.
  intros (st & -> & [-> | ->]) H1 H2 H3 H4;
    unfold json.stepFn, json.do_state0, json.do_stateEndValue, json.do_stateEndTop;
    cbn [json.step json.parseState]; rewrite ?H4, H1, H2, H3; cbn [orb];
    destruct (json.isSpace c); reflexivity.
Qed.

Lemma readValue_number z seen rest :
  GoInt.in_range z ->
  json.readValue_go json.reset seen (strconv.FormatInt z +:+ json.newline +:+ rest)
  = Ok (strconv.FormatInt z, json.newline +:+ rest).
Proof.
  intros Hz. destruct (scan_over_FormatInt z Hz) as (s & Hs & Ha).
  rewrite (readValue_go_over _ _ _ _ _ Hs).
  unfold json.newline. rewrite app_cons. cbn [json.readValue_go].
  pose proof (after_number_ends s (z2b 10) Ha eq_refl eq_refl eq_refl eq_refl) as He.
  destruct (json.stepFn s (z2b 10)) as [s' code]. cbn [snd] in He. subst code.
  cbn [prepend]. rewrite string_app_nil_r. reflexivity.
Qed.

Lemma formatBits_head fuel u :
  0 <= u < 10 ^ Z.of_nat (S fuel) ->
  exists c t, strconv.formatBits (S fuel) u EmptyString = String c t
              /\ strconv.is_digit c = true.
Proof.
  intros Hu.
  destruct (strconv.formatBits (S fuel) u EmptyString) as [| c t] eqn:F;
    [exfalso; eapply formatBits_nonempty; eauto |].
  exists c, t. split; [reflexivity |].
  destruct (strconv.parseDigits 0 (String c t)) eqn:P.
  - cbn [strconv.parseDigits] in P. destruct (strconv.is_digit c); [reflexivity | discriminate].
  - rewrite <- F, parseDigits_formatBits in P by assumption. discriminate.
Qed.

Lemma FormatInt_head z :
  GoInt.in_range z ->
  exists c t, strconv.FormatInt z = String c t
              /\ (json.isc c "-" || strconv.is_digit c = true)
              /\ json.isSpace c = false /\ json.isc c "n" = false.
Proof.
  unfold GoInt.in_range, GoInt.MinInt64, GoInt.MaxInt64. intros Hz.
  unfold strconv.FormatInt. destruct (z <? 0) eqn:E.
  - eexists _, _. split; [reflexivity |]. repeat split.
  - apply Z.ltb_ge in E.
    destruct (formatBits_head 19 z) as (c & t & -> & Hc); [simpl; lia |].
    exists c, t. split; [reflexivity |]. rewrite Hc, orb_true_r.
    split; [reflexivity |]. split; [apply isSpace_digit; exact Hc |].
    apply isc_digit; [exact Hc | reflexivity].
Qed.

(** Decoding an integer written by the encoder, white space before it or
    not: the integer, and the stream from the newline on. *)
Lemma Decode_int_Encode cur ws z rest :
  GoInt.in_range z ->
  all_space ws = true ->
  json.Decode_int cur (ws +:+ strconv.FormatInt z +:+ json.newline +:+ rest)
  = Ok (z, json.newline +:+ rest).
Proof.
  intros Hz Hws. unfold json.Decode_int, json.readValue.
  rewrite (readValue_go_over ws _ json.reset)
    by (apply scan_over_space; auto).
  rewrite readValue_number by assumption. cbn [prepend].
  unfold json.unmarshal_int. rewrite skipSpace_app by assumption.
  destruct (FormatInt_head z Hz) as (c & t & E & Hc & Hsp & Hn).
  rewrite E. cbn [json.skipSpace]. rewrite Hsp, Hn, Hc, <- E.
  rewrite ParseInt_FormatInt by assumption. reflexivity.
Qed.

(** *** UTF-8 *)

Definition cont (b : Z) : Prop := 128 <= b <= 191.

(** The bounds on the second byte that the first byte sets. *)
Definition lo3 (p0 : Z) : Z := if p0 =? 224 then 160 else 128.
Definition hi3 (p0 : Z) : Z := if p0 =? 237 then 159 else 191.
Definition lo4 (p0 : Z) : Z := if p0 =? 240 then 144 else 128.
Definition hi4 (p0 : Z) : Z := if p0 =? 244 then 143 else 191.

Ltac split_ifs :=
  repeat match goal with
         | |- context [if ?b then _ else _] =>
           let E := fresh "E" in destruct b eqn:E
         end.

Ltac zbool :=
  repeat match goal with
         | H : (_ <? _) = true |- _ => apply Z.ltb_lt in H
         | H : (_ <? _) = false |- _ => apply Z.ltb_ge in H
         | H : (_ <=? _) = true |- _ => apply Z.leb_le in H
         | H : (_ <=? _) = false |- _ => apply Z.leb_gt in H
         | H : (_ =? _) = true |- _ => apply Z.eqb_eq in H
         | H : (_ =? _) = false |- _ => apply Z.eqb_neq in H
         | H : (_ || _) = false |- _ => apply orb_false_elim in H as [? ?]
         | H : (_ && _) = true |- _ => apply andb_prop in H as [? ?]
         end.

Lemma first_cases p0 :
  128 <= p0 < 256 ->
  (p0 < 194 \/ 245 <= p0) /\ utf8.first p0 = 241
  \/ (194 <= p0 <= 223 /\ utf8.first p0 = 2)
  \/ (224 <= p0 <= 239
      /\ utf8.first p0 = (if p0 =? 224 then 19 else if p0 =? 237 then 35 else 3))
  \/ (240 <= p0 <= 244
      /\ utf8.first p0 = (if p0 =? 240 then 52 else if p0 =? 244 then 68 else 4)).
Proof.
  intros H. unfold utf8.first. split_ifs; zbool; subst; try lia;
    first [ left; split; [lia | reflexivity]
          | right; left; split; [lia | reflexivity]
          | right; right; left; split; [lia | reflexivity]
          | right; right; right; split; [lia | reflexivity] ].
Qed.

Lemma land_low (b k : Z) : 0 <= k -> Z.land b (Z.ones k) = b mod 2 ^ k.
Proof. intros H. apply Z.land_ones. exact H. Qed.

Lemma land_63 b : cont b -> Z.land b 63 = b - 128.
Proof.
  unfold cont. intros H. change 63 with (Z.ones 6). rewrite land_low by lia.
  change (2 ^ 6) with 64. Z.to_euclidean_division_equations. lia.
Qed.

Lemma land_31 p : 192 <= p <= 223 -> Z.land p 31 = p - 192.
Proof.
  intros H. change 31 with (Z.ones 5). rewrite land_low by lia.
  change (2 ^ 5) with 32. Z.to_euclidean_division_equations. lia.
Qed.

Lemma land_15 p : 224 <= p <= 239 -> Z.land p 15 = p - 224.
Proof.
  intros H. change 15 with (Z.ones 4). rewrite land_low by lia.
  change (2 ^ 4) with 16. Z.to_euclidean_division_equations. lia.
Qed.

Lemma land_7 p : 240 <= p <= 247 -> Z.land p 7 = p - 240.
Proof.
  intros H. change 7 with (Z.ones 3). rewrite land_low by lia.
  change (2 ^ 3) with 8. Z.to_euclidean_division_equations. lia.
Qed.

Lemma land_mul_pow2_small a b k :
  0 <= k -> 0 <= b < 2 ^ k -> Z.land (a * 2 ^ k) b = 0.
Proof.
  intros Hk Hb. apply Z.bits_inj'. intros n Hn.
  rewrite Z.land_spec, Z.bits_0.
  destruct (Z.lt_ge_cases n k) as [Hlt | Hge].
  - rewrite Z.mul_pow2_bits_low by lia. reflexivity.
  - destruct (Z.eq_dec b 0) as [-> | Hnz]; [rewrite Z.bits_0; apply andb_false_r |].
    rewrite (Z.bits_above_log2 b n); [apply andb_false_r | lia |].
    apply Z.log2_lt_pow2; [lia |].
    apply Z.lt_le_trans with (2 ^ k); [lia |].
    apply Z.pow_le_mono_r; lia.
Qed.

Lemma lor_add a b k :
  0 <= k -> 0 <= b < 2 ^ k -> Z.lor (a * 2 ^ k) b = a * 2 ^ k + b.
Proof.
  intros Hk Hb. rewrite <- Z.add_lor_land, land_mul_pow2_small by assumption. lia.
Qed.

Lemma shiftl_mul a k : 0 <= k -> Z.shiftl a k = a * 2 ^ k.
Proof. apply Z.shiftl_mul_pow2. Qed.

Lemma shiftr_div a k : 0 <= k -> Z.shiftr a k = a / 2 ^ k.
Proof. apply Z.shiftr_div_pow2. Qed.

(** The runes of two, three and four bytes. *)
Definition rune2 (p0 b1 : Z) : Z := (p0 - 192) * 64 + (b1 - 128).
Definition rune3 (p0 b1 b2 : Z) : Z := ((p0 - 224) * 64 + (b1 - 128)) * 64 + (b2 - 128).
Definition rune4 (p0 b1 b2 b3 : Z) : Z :=
  (((p0 - 240) * 64 + (b1 - 128)) * 64 + (b2 - 128)) * 64 + (b3 - 128).

Definition ok2 (p0 b1 : Z) : Prop := 194 <= p0 <= 223 /\ cont b1.
Definition ok3 (p0 b1 b2 : Z) : Prop :=
  224 <= p0 <= 239 /\ lo3 p0 <= b1 <= hi3 p0 /\ cont b2.
Definition ok4 (p0 b1 b2 b3 : Z) : Prop :=
  240 <= p0 <= 244 /\ lo4 p0 <= b1 <= hi4 p0 /\ cont b2 /\ cont b3.

Lemma outside_false lo hi b : lo <= b <= hi -> utf8.outside lo hi b = false.
Proof.
  intros H. unfold utf8.outside. apply orb_false_intro; apply Z.ltb_ge; lia.
Qed.

Lemma outside_true lo hi b : ~ (lo <= b <= hi) -> utf8.outside lo hi b = true.
Proof.
  intros H. unfold utf8.outside.
  destruct (b <? lo) eqn:E1; [reflexivity |]. destruct (hi <? b) eqn:E2; [reflexivity |].
  zbool. lia.
Qed.

(** Evaluate what [DecodeRune] derives from the constant [x] found in
    [first]. *)
Ltac eval_first x :=
  let sz := eval vm_compute in (Z.land x 7) in
  let ar := eval vm_compute in (utf8.acceptRanges (Z.shiftr x 4)) in
  let big := eval vm_compute in (240 <=? x) in
  change (Z.land x 7) with sz;
  change (utf8.acceptRanges (Z.shiftr x 4)) with ar;
  change (240 <=? x) with big;
  cbn beta iota zeta;
  repeat match goal with
         | |- context [?a <=? ?b] =>
           is_ground a; is_ground b;
           let v := eval vm_compute in (a <=? b) in change (a <=? b) with v
         end;
  cbn beta iota zeta.

Lemma DecodeRune2 c0 c1 t :
  ok2 (b2z c0) (b2z c1) ->
  utf8.DecodeRune (String c0 (String c1 t)) = (rune2 (b2z c0) (b2z c1), 2%nat).
Proof.
  intros [H0 H1]. unfold utf8.DecodeRune.
  pose proof (b2z_range c0) as Hr.
  destruct (first_cases (b2z c0) ltac:(lia)) as [[? ?] | [[_ ->] | [[? ?] | [? ?]]]];
    try lia.
  eval_first 2.
  rewrite outside_false by exact H1.
  rewrite land_31, land_63, shiftl_mul, lor_add by (unfold cont in *; lia).
  reflexivity.
Qed.

Lemma cont_of c0 b : lo3 c0 <= b <= hi3 c0 \/ lo4 c0 <= b <= hi4 c0 -> cont b.
Proof. unfold lo3, hi3, lo4, hi4, cont. split_ifs; lia. Qed.

Lemma lor3 a b c :
  0 <= b < 64 -> 0 <= c < 64 ->
  Z.lor (Z.lor (a * 2 ^ 12) (b * 2 ^ 6)) c = (a * 64 + b) * 64 + c.
Proof.
  intros Hb Hc. rewrite lor_add by lia.
  replace (a * 2 ^ 12 + b * 2 ^ 6) with ((a * 64 + b) * 2 ^ 6) by lia.
  rewrite lor_add by lia. lia.
Qed.

Lemma lor4 a b c d :
  0 <= b < 64 -> 0 <= c < 64 -> 0 <= d < 64 ->
  Z.lor (Z.lor (Z.lor (a * 2 ^ 18) (b * 2 ^ 12)) (c * 2 ^ 6)) d
  = ((a * 64 + b) * 64 + c) * 64 + d.
Proof.
  intros Hb Hc Hd. rewrite lor_add by lia.
  replace (a * 2 ^ 18 + b * 2 ^ 12) with ((a * 64 + b) * 2 ^ 12) by lia.
  rewrite lor3 by lia. lia.
Qed.

Lemma DecodeRune3 c0 c1 c2 t :
  ok3 (b2z c0) (b2z c1) (b2z c2) ->
  utf8.DecodeRune (String c0 (String c1 (String c2 t)))
  = (rune3 (b2z c0) (b2z c1) (b2z c2), 3%nat).
Proof.
  intros (H0 & H1 & H2). unfold utf8.DecodeRune.
  assert (Hc1 : cont (b2z c1)) by (apply (cont_of (b2z c0)); auto).
  pose proof (b2z_range c0) as Hr.
  destruct (first_cases (b2z c0) ltac:(lia)) as [[? ?] | [[? ?] | [[_ ->] | [? ?]]]];
    try lia.
  unfold lo3, hi3 in H1.
  destruct (b2z c0 =? 224) eqn:E1; destruct (b2z c0 =? 237) eqn:E2; zbool; try lia;
    [eval_first 19 | eval_first 35 | eval_first 3];
    rewrite (outside_false _ _ (b2z c1)) by (unfold utf8.locb, utf8.hicb; lia);
    rewrite (outside_false _ _ (b2z c2)) by exact H2;
    cbn [orb];
    rewrite land_15, !land_63, !shiftl_mul by (assumption || lia);
    unfold cont in *; rewrite lor3 by lia; reflexivity.
Qed.

Lemma DecodeRune4 c0 c1 c2 c3 t :
  ok4 (b2z c0) (b2z c1) (b2z c2) (b2z c3) ->
  utf8.DecodeRune (String c0 (String c1 (String c2 (String c3 t))))
  = (rune4 (b2z c0) (b2z c1) (b2z c2) (b2z c3), 4%nat).
Proof.
  intros (H0 & H1 & H2 & H3). unfold utf8.DecodeRune.
  assert (Hc1 : cont (b2z c1)) by (apply (cont_of (b2z c0)); auto).
  pose proof (b2z_range c0) as Hr.
  destruct (first_cases (b2z c0) ltac:(lia)) as [[? ?] | [[? ?] | [[? ?] | [_ ->]]]];
    try lia.
  unfold lo4, hi4 in H1.
  destruct (b2z c0 =? 240) eqn:E1; destruct (b2z c0 =? 244) eqn:E2; zbool; try lia;
    [eval_first 52 | eval_first 68 | eval_first 4];
    rewrite (outside_false _ _ (b2z c1)) by (unfold utf8.locb, utf8.hicb; lia);
    rewrite (outside_false _ _ (b2z c2)) by exact H2;
    rewrite (outside_false _ _ (b2z c3)) by exact H3;
    cbn [orb];
    rewrite land_7, !land_63, !shiftl_mul by (assumption || lia);
    unfold cont in *; rewrite lor4 by lia; reflexivity.
Qed.

Lemma outside_false_inv lo hi b : utf8.outside lo hi b = false -> lo <= b <= hi.
Proof. unfold utf8.outside. intros H. zbool. lia. Qed.

(** What [DecodeRune] finds at a byte that is not ASCII: an invalid
    encoding, or a rune of two, three or four bytes. *)
Lemma DecodeRune_cases c0 t :
  128 <= b2z c0 ->
  utf8.DecodeRune (String c0 t) = (utf8.RuneError, 1%nat)
  \/ (exists c1 t', t = String c1 t' /\ ok2 (b2z c0) (b2z c1))
  \/ (exists c1 c2 t', t = String c1 (String c2 t') /\ ok3 (b2z c0) (b2z c1) (b2z c2))
  \/ (exists c1 c2 c3 t',
         t = String c1 (String c2 (String c3 t'))
         /\ ok4 (b2z c0) (b2z c1) (b2z c2) (b2z c3)).
Proof.
  intros H. pose proof (b2z_range c0) as Hr.
  destruct (first_cases (b2z c0) ltac:(lia)) as [[_ Hf] | [[H2 Hf] | [[H3 Hf] | [H4 Hf]]]].
  - left. unfold utf8.DecodeRune. rewrite Hf. reflexivity.
  - destruct t as [| c1 t'];
      [left; unfold utf8.DecodeRune; rewrite Hf; reflexivity |].
    destruct (utf8.outside utf8.locb utf8.hicb (b2z c1)) eqn:O1.
    + left. unfold utf8.DecodeRune. rewrite Hf. eval_first 2.
      unfold utf8.locb, utf8.hicb in O1. rewrite O1. reflexivity.
    + right. left. exists c1, t'. split; [reflexivity |].
      split; [lia | apply outside_false_inv in O1; exact O1].
  - destruct t as [| c1 [| c2 t']];
      try (left; unfold utf8.DecodeRune; rewrite Hf;
           destruct (b2z c0 =? 224); [| destruct (b2z c0 =? 237)]; reflexivity).
    destruct (utf8.outside (lo3 (b2z c0)) (hi3 (b2z c0)) (b2z c1)) eqn:O1;
      [| destruct (utf8.outside utf8.locb utf8.hicb (b2z c2)) eqn:O2].
    + left. unfold utf8.DecodeRune. rewrite Hf. unfold lo3, hi3 in O1.
      destruct (b2z c0 =? 224) eqn:E1; destruct (b2z c0 =? 237) eqn:E2; zbool; try lia;
        [eval_first 19 | eval_first 35 | eval_first 3];
        unfold utf8.locb, utf8.hicb in *; rewrite O1; reflexivity.
    + left. unfold utf8.DecodeRune. rewrite Hf. unfold lo3, hi3 in O1.
      destruct (b2z c0 =? 224) eqn:E1; destruct (b2z c0 =? 237) eqn:E2; zbool; try lia;
        [eval_first 19 | eval_first 35 | eval_first 3];
        unfold utf8.locb, utf8.hicb in *; rewrite O1, O2; reflexivity.
    + right. right. left. exists c1, c2, t'. split; [reflexivity |].
      split; [lia |]. split; apply outside_false_inv; assumption.
  - destruct t as [| c1 [| c2 [| c3 t']]];
      try (left; unfold utf8.DecodeRune; rewrite Hf;
           destruct (b2z c0 =? 240); [| destruct (b2z c0 =? 244)]; reflexivity).
    destruct (utf8.outside (lo4 (b2z c0)) (hi4 (b2z c0)) (b2z c1)) eqn:O1;
      [| destruct (utf8.outside utf8.locb utf8.hicb (b2z c2)) eqn:O2;
         [| destruct (utf8.outside utf8.locb utf8.hicb (b2z c3)) eqn:O3]].
    + left. unfold utf8.DecodeRune. rewrite Hf. unfold lo4, hi4 in O1.
      destruct (b2z c0 =? 240) eqn:E1; destruct (b2z c0 =? 244) eqn:E2; zbool; try lia;
        [eval_first 52 | eval_first 68 | eval_first 4];
        unfold utf8.locb, utf8.hicb in *; rewrite O1; reflexivity.
    + left. unfold utf8.DecodeRune. rewrite Hf. unfold lo4, hi4 in O1.
      destruct (b2z c0 =? 240) eqn:E1; destruct (b2z c0 =? 244) eqn:E2; zbool; try lia;
        [eval_first 52 | eval_first 68 | eval_first 4];
        unfold utf8.locb, utf8.hicb in *; rewrite O1, O2; reflexivity.
    + left. unfold utf8.DecodeRune. rewrite Hf. unfold lo4, hi4 in O1.
      destruct (b2z c0 =? 240) eqn:E1; destruct (b2z c0 =? 244) eqn:E2; zbool; try lia;
        [eval_first 52 | eval_first 68 | eval_first 4];
        unfold utf8.locb, utf8.hicb in *; rewrite O1, O2, O3; reflexivity.
    + right. right. right. exists c1, c2, c3, t'. split; [reflexivity |].
      split; [lia |]. split; [apply outside_false_inv; exact O1 |].
      split; apply outside_false_inv; assumption.
Qed.

(** A rune read from two to four bytes is written back as those bytes. *)
Lemma lor_small hi lo k :
  0 <= k -> 0 <= lo < 2 ^ k -> hi mod 2 ^ k = 0 -> Z.lor hi lo = hi + lo.
Proof.
  intros Hk Hlo Hm.
  assert (E : hi = (hi / 2 ^ k) * 2 ^ k).
  { pose proof (Z.div_mod hi (2 ^ k) ltac:(lia)). lia. }
  rewrite E at 1. rewrite lor_add by assumption. lia.
Qed.

Ltac euclid := Z.to_euclidean_division_equations; lia.

Lemma string_of_bytes_2 a b c0 c1 :
  a = b2z c0 -> b = b2z c1 -> string_of_bytes [a; b] = String c0 (String c1 EmptyString).
Proof. intros -> ->. cbn [string_of_bytes]. rewrite !z2b_b2z. reflexivity. Qed.

Lemma EncodeRune2 c0 c1 :
  ok2 (b2z c0) (b2z c1) ->
  utf8.EncodeRune (rune2 (b2z c0) (b2z c1)) = String c0 (String c1 EmptyString).
Proof.
  unfold ok2, cont, rune2. intros [H0 H1]. set (p0 := b2z c0) in *. set (b1 := b2z c1) in *.
  unfold utf8.EncodeRune.
  destruct ((0 <=? _) && (_ <=? 127)) eqn:E1; [zbool; lia |].
  destruct ((0 <=? _) && (_ <=? 2047)) eqn:E2;
    [| apply andb_false_iff in E2 as [E2 | E2]; zbool; lia].
  apply string_of_bytes_2.
  - rewrite shiftr_div by lia. rewrite (lor_small 192 _ 6) by (try lia; euclid). euclid.
  - change 63 with (Z.ones 6). rewrite land_low by lia.
    rewrite (lor_small 128 _ 6) by (try lia; euclid). euclid.
Qed.

Lemma string_of_bytes_3 a b c c0 c1 c2 :
  a = b2z c0 -> b = b2z c1 -> c = b2z c2 ->
  string_of_bytes [a; b; c] = String c0 (String c1 (String c2 EmptyString)).
Proof. intros -> -> ->. cbn [string_of_bytes]. rewrite !z2b_b2z. reflexivity. Qed.

Lemma string_of_bytes_4 a b c d c0 c1 c2 c3 :
  a = b2z c0 -> b = b2z c1 -> c = b2z c2 -> d = b2z c3 ->
  string_of_bytes [a; b; c; d]
  = String c0 (String c1 (String c2 (String c3 EmptyString))).
Proof. intros -> -> -> ->. cbn [string_of_bytes]. rewrite !z2b_b2z. reflexivity. Qed.

Lemma rune3_range p0 b1 b2 :
  ok3 p0 b1 b2 ->
  2048 <= rune3 p0 b1 b2 <= 65535
  /\ ~ (55296 <= rune3 p0 b1 b2 <= 57343).
Proof.
  unfold ok3, cont, rune3, lo3, hi3. intros (H0 & H1 & H2).
  destruct (p0 =? 224) eqn:E1; destruct (p0 =? 237) eqn:E2; zbool; lia.
Qed.

Lemma rune4_range p0 b1 b2 b3 :
  ok4 p0 b1 b2 b3 -> 65536 <= rune4 p0 b1 b2 b3 <= 1114111.
Proof.
  unfold ok4, cont, rune4, lo4, hi4. intros (H0 & H1 & H2 & H3).
  destruct (p0 =? 240) eqn:E1; destruct (p0 =? 244) eqn:E2; zbool; lia.
Qed.

Lemma ok3_cont p0 b1 b2 : ok3 p0 b1 b2 -> 224 <= p0 <= 239 /\ cont b1 /\ cont b2.
Proof.
  unfold ok3, cont, lo3, hi3. intros (H0 & H1 & H2).
  destruct (p0 =? 224); destruct (p0 =? 237); lia.
Qed.

Lemma ok4_cont p0 b1 b2 b3 :
  ok4 p0 b1 b2 b3 -> 240 <= p0 <= 244 /\ cont b1 /\ cont b2 /\ cont b3.
Proof.
  unfold ok4, cont, lo4, hi4. intros (H0 & H1 & H2 & H3).
  destruct (p0 =? 240); destruct (p0 =? 244); lia.
Qed.

Lemma EncodeRune3 c0 c1 c2 :
  ok3 (b2z c0) (b2z c1) (b2z c2) ->
  utf8.EncodeRune (rune3 (b2z c0) (b2z c1) (b2z c2))
  = String c0 (String c1 (String c2 EmptyString)).
Proof.
  intros Hok. destruct (rune3_range _ _ _ Hok) as [Hr Hs].
  apply ok3_cont in Hok as (H0 & H1 & H2). unfold cont in *.
  set (p0 := b2z c0) in *. set (b1 := b2z c1) in *. set (b2 := b2z c2) in *.
  unfold utf8.EncodeRune, utf8.MaxRune, utf8.surrogateMin, utf8.surrogateMax.
  destruct ((0 <=? _) && (_ <=? 127)) eqn:E1; [zbool; lia |].
  destruct ((0 <=? _) && (_ <=? 2047)) eqn:E2; [zbool; lia |].
  destruct ((_ <? 0) || (1114111 <? _) || ((55296 <=? _) && (_ <=? 57343))) eqn:E3.
  { apply orb_prop in E3 as [E3 | E3]; [apply orb_prop in E3 as [E3 | E3] |]; zbool; lia. }
  destruct (_ <=? 65535) eqn:E4; [| zbool; lia].
  unfold rune3 in *.
  apply string_of_bytes_3.
  - rewrite shiftr_div by lia. rewrite (lor_small 224 _ 5) by (try lia; euclid). euclid.
  - change 63 with (Z.ones 6). rewrite shiftr_div, land_low by lia.
    rewrite (lor_small 128 _ 6) by (try lia; euclid). euclid.
  - change 63 with (Z.ones 6). rewrite land_low by lia.
    rewrite (lor_small 128 _ 6) by (try lia; euclid). euclid.
Qed.

Lemma EncodeRune4 c0 c1 c2 c3 :
  ok4 (b2z c0) (b2z c1) (b2z c2) (b2z c3) ->
  utf8.EncodeRune (rune4 (b2z c0) (b2z c1) (b2z c2) (b2z c3))
  = String c0 (String c1 (String c2 (String c3 EmptyString))).
Proof.
  intros Hok. pose proof (rune4_range _ _ _ _ Hok) as Hr.
  apply ok4_cont in Hok as (H0 & H1 & H2 & H3). unfold cont in *.
  set (p0 := b2z c0) in *. set (b1 := b2z c1) in *. set (b2 := b2z c2) in *.
  set (b3 := b2z c3) in *.
  unfold utf8.EncodeRune, utf8.MaxRune, utf8.surrogateMin, utf8.surrogateMax.
  destruct ((0 <=? _) && (_ <=? 127)) eqn:E1; [zbool; lia |].
  destruct ((0 <=? _) && (_ <=? 2047)) eqn:E2; [zbool; lia |].
  destruct ((_ <? 0) || (1114111 <? _) || ((55296 <=? _) && (_ <=? 57343))) eqn:E3.
  { apply orb_prop in E3 as [E3 | E3]; [apply orb_prop in E3 as [E3 | E3] |]; zbool; lia. }
  destruct (_ <=? 65535) eqn:E4; [zbool; lia |].
  unfold rune4 in *.
  apply string_of_bytes_4.
  - rewrite shiftr_div by lia. rewrite (lor_small 240 _ 4) by (try lia; euclid). euclid.
  - change 63 with (Z.ones 6). rewrite shiftr_div, land_low by lia.
    rewrite (lor_small 128 _ 6) by (try lia; euclid). euclid.
  - change 63 with (Z.ones 6). rewrite shiftr_div, land_low by lia.
    rewrite (lor_small 128 _ 6) by (try lia; euclid). euclid.
  - change 63 with (Z.ones 6). rewrite land_low by lia.
    rewrite (lor_small 128 _ 6) by (try lia; euclid). euclid.
Qed.

(** *** Strings, rune by rune *)

(** A valid encoding of two to four bytes and its rune. *)
Inductive rune_chunk : string -> Z -> Prop :=
| chunk2 c0 c1 :
    ok2 (b2z c0) (b2z c1) ->
    rune_chunk (String c0 (String c1 EmptyString)) (rune2 (b2z c0) (b2z c1))
| chunk3 c0 c1 c2 :
    ok3 (b2z c0) (b2z c1) (b2z c2) ->
    rune_chunk (String c0 (String c1 (String c2 EmptyString)))
               (rune3 (b2z c0) (b2z c1) (b2z c2))
| chunk4 c0 c1 c2 c3 :
    ok4 (b2z c0) (b2z c1) (b2z c2) (b2z c3) ->
    rune_chunk (String c0 (String c1 (String c2 (String c3 EmptyString))))
               (rune4 (b2z c0) (b2z c1) (b2z c2) (b2z c3)).

Lemma chunk_decode ch r t :
  rune_chunk ch r -> utf8.DecodeRune (ch +:+ t) = (r, String.length ch).
Proof.
  intros [c0 c1 H | c0 c1 c2 H | c0 c1 c2 c3 H]; rewrite ?app_cons, ?app_nil.
  - apply DecodeRune2, H.
  - apply DecodeRune3, H.
  - apply DecodeRune4, H.
Qed.

Lemma chunk_encode ch r : rune_chunk ch r -> utf8.EncodeRune r = ch.
Proof.
  intros [c0 c1 H | c0 c1 c2 H | c0 c1 c2 c3 H].
  - apply EncodeRune2, H.
  - apply EncodeRune3, H.
  - apply EncodeRune4, H.
Qed.

(** Every byte of a rune of several bytes is outside ASCII. *)
Fixpoint all_high (s : string) : Prop :=
  match s with
  | EmptyString => True
  | String c t => 128 <= b2z c /\ all_high t
  end.

Lemma chunk_high ch r : rune_chunk ch r -> all_high ch.
Proof.
  intros [c0 c1 H | c0 c1 c2 H | c0 c1 c2 c3 H]; cbn [all_high].
  - destruct H as [? ?]. unfold cont in *. lia.
  - apply ok3_cont in H as (? & ? & ?). unfold cont in *. lia.
  - apply ok4_cont in H as (? & ? & ? & ?). unfold cont in *. lia.
Qed.

(** A string as a sequence of ASCII bytes, runes of several bytes and, when
    [lossy], bytes that start no valid encoding. *)
Inductive chunks (lossy : bool) : string -> Prop :=
| chunks_nil : chunks lossy EmptyString
| chunks_ascii c t :
    b2z c < 128 -> chunks lossy t -> chunks lossy (String c t)
| chunks_invalid c t :
    lossy = true -> 128 <= b2z c ->
    utf8.DecodeRune (String c t) = (utf8.RuneError, 1%nat) ->
    chunks lossy t -> chunks lossy (String c t)
| chunks_rune ch r t :
    rune_chunk ch r -> chunks lossy t -> chunks lossy (ch +:+ t).

Lemma next_chunk c t :
  128 <= b2z c ->
  utf8.DecodeRune (String c t) = (utf8.RuneError, 1%nat)
  \/ exists ch r t', String c t = ch +:+ t' /\ rune_chunk ch r
                     /\ (String.length t' < String.length (String c t))%nat.
Proof.
  intros H. destruct (DecodeRune_cases c t H)
    as [E | [(c1 & t' & -> & Hok) | [(c1 & c2 & t' & -> & Hok)
                                    | (c1 & c2 & c3 & t' & -> & Hok)]]].
  - left. exact E.
  - right. eexists _, _, t'. split; [| split; [apply (chunk2 c c1 Hok) |]];
      [reflexivity | simpl; lia].
  - right. eexists _, _, t'. split; [| split; [apply (chunk3 c c1 c2 Hok) |]];
      [reflexivity | simpl; lia].
  - right. eexists _, _, t'. split; [| split; [apply (chunk4 c c1 c2 c3 Hok) |]];
      [reflexivity | simpl; lia].
Qed.

Lemma all_chunks s : chunks true s.
Proof.
  remember (String.length s) as n eqn:Hn. revert s Hn.
  induction n as [n IH] using lt_wf_ind. intros s Hn.
  destruct s as [| c t]; [constructor |].
  destruct (Z.lt_ge_cases (b2z c) 128) as [Hlt | Hge].
  - apply chunks_ascii; [exact Hlt |]. apply (IH (String.length t)); simpl in Hn; lia.
  - destruct (next_chunk c t ltac:(lia)) as [E | (ch & r & t' & Es & Hch & Hlen)].
    + apply chunks_invalid; [reflexivity | lia | exact E |].
      apply (IH (String.length t)); simpl in Hn; lia.
    + rewrite Es. apply (chunks_rune _ ch r); [exact Hch |].
      apply (IH (String.length t')); lia.
Qed.

Lemma chunk_not_error ch r :
  rune_chunk ch r -> (r =? utf8.RuneError) && Nat.eqb (String.length ch) 1 = false.
Proof. intros [c0 c1 H | c0 c1 c2 H | c0 c1 c2 c3 H]; apply andb_false_r. Qed.

Lemma valid_go_skip ch t :
  utf8.valid_go (String.length ch) (ch +:+ t) = utf8.valid_go 0 t.
Proof.
  induction ch as [| c ch IH]; rewrite ?app_cons, ?app_nil; [reflexivity |].
  simpl String.length. cbn [utf8.valid_go]. exact IH.
Qed.

Lemma valid_chunks s : utf8.ValidString s = true -> chunks false s.
Proof.
  unfold utf8.ValidString.
  remember (String.length s) as n eqn:Hn. revert s Hn.
  induction n as [n IH] using lt_wf_ind. intros s Hn Hv.
  destruct s as [| c t]; [constructor |].
  cbn [utf8.valid_go] in Hv. unfold utf8.RuneSelf in Hv.
  destruct (b2z c <? 128) eqn:Hlt.
  - apply chunks_ascii; [apply Z.ltb_lt; exact Hlt |].
    apply (IH (String.length t)); [simpl in Hn; lia | reflexivity | exact Hv].
  - apply Z.ltb_ge in Hlt.
    destruct (next_chunk c t ltac:(lia)) as [E | (ch & r & t' & Es & Hch & Hlen)].
    + rewrite E in Hv. discriminate.
    + rewrite Es, (chunk_decode ch r t' Hch) in Hv.
      rewrite chunk_not_error in Hv by exact Hch.
      rewrite Es. apply (chunks_rune _ ch r); [exact Hch |].
      apply (IH (String.length t')); [lia | reflexivity |].
      destruct ch as [| c0 tl]; [inversion Hch |].
      rewrite app_cons in Es. injection Es as -> ->.
      simpl String.length in Hv. cbn [Nat.pred] in Hv.
      rewrite valid_go_skip in Hv. exact Hv.
Qed.

(** *** The string encoder, rune by rune *)

Lemma appendString_go_unfold pend c t :
  json.appendString_go pend (String c t)
  = match pend with
    | json.Copy (S n) => String c (json.appendString_go (json.Copy n) t)
    | json.Drop (S n) => json.appendString_go (json.Drop n) t
    | _ =>
      let b := b2z c in
      if b <? utf8.RuneSelf then
        if json.htmlSafeSet b then String c (json.appendString_go (json.Copy 0) t)
        else json.escape b +:+ json.appendString_go (json.Copy 0) t
      else
        let '(r, size) := utf8.DecodeRune (String c t) in
        if (r =? utf8.RuneError) && Nat.eqb size 1 then
          json.replacement +:+ json.appendString_go (json.Copy 0) t
        else if (r =? 8232) || (r =? 8233) then
          "\u202" +:+ String (json.hex (Z.land r 15))
                             (json.appendString_go (json.Drop (Nat.pred size)) t)
        else String c (json.appendString_go (json.Copy (Nat.pred size)) t)
    end.
Proof. reflexivity. Qed.

Lemma appendString_go_Drop0 s :
  json.appendString_go (json.Drop 0) s = json.appendString_go (json.Copy 0) s.
Proof. destruct s; reflexivity. Qed.

Lemma appendString_go_copy w t :
  json.appendString_go (json.Copy (String.length w)) (w +:+ t)
  = w +:+ json.appendString_go (json.Copy 0) t.
Proof.
  induction w as [| c w IH]; rewrite ?app_cons, ?app_nil; [reflexivity |].
  simpl String.length. rewrite appendString_go_unfold, IH. reflexivity.
Qed.

Lemma appendString_go_drop w t :
  json.appendString_go (json.Drop (String.length w)) (w +:+ t)
  = json.appendString_go (json.Copy 0) t.
Proof.
  induction w as [| c w IH]; rewrite ?app_cons, ?app_nil;
    [apply appendString_go_Drop0 |].
  simpl String.length. rewrite appendString_go_unfold, IH. reflexivity.
Qed.

(** What the encoder writes for an ASCII byte and for a rune. *)
Definition enc_ascii (c : ascii) : string :=
  if json.htmlSafeSet (b2z c) then String c EmptyString else json.escape (b2z c).

Definition enc_rune (ch : string) (r : Z) : string :=
  if (r =? 8232) || (r =? 8233)
  then "\u202" +:+ String (json.hex (Z.land r 15)) EmptyString
  else ch.

Lemma encode_ascii c t :
  b2z c < 128 ->
  json.appendString_go (json.Copy 0) (String c t)
  = enc_ascii c +:+ json.appendString_go (json.Copy 0) t.
Proof.
  intros H. rewrite appendString_go_unfold. cbv zeta. unfold utf8.RuneSelf, enc_ascii.
  apply Z.ltb_lt in H. rewrite H. destruct (json.htmlSafeSet (b2z c)); reflexivity.
Qed.

Lemma encode_invalid c t :
  128 <= b2z c ->
  utf8.DecodeRune (String c t) = (utf8.RuneError, 1%nat) ->
  json.appendString_go (json.Copy 0) (String c t)
  = json.replacement +:+ json.appendString_go (json.Copy 0) t.
Proof.
  intros H E. rewrite appendString_go_unfold. cbv zeta. unfold utf8.RuneSelf.
  apply Z.ltb_ge in H. rewrite H, E. reflexivity.
Qed.

Lemma chunk_head ch r :
  rune_chunk ch r ->
  exists c tl, ch = String c tl /\ 128 <= b2z c
               /\ Nat.pred (String.length ch) = String.length tl.
Proof.
  intros [c0 c1 H | c0 c1 c2 H | c0 c1 c2 c3 H].
  - destruct H as [? ?]. eexists _, _. split; [reflexivity |]. split; [lia | reflexivity].
  - apply ok3_cont in H as (? & ? & ?).
    eexists _, _. split; [reflexivity |]. split; [lia | reflexivity].
  - apply ok4_cont in H as (? & ? & ? & ?).
    eexists _, _. split; [reflexivity |]. split; [lia | reflexivity].
Qed.

Lemma encode_rune ch r t :
  rune_chunk ch r ->
  json.appendString_go (json.Copy 0) (ch +:+ t)
  = enc_rune ch r +:+ json.appendString_go (json.Copy 0) t.
Proof.
  intros Hch. pose proof (chunk_decode ch r t Hch) as Hd.
  pose proof (chunk_not_error ch r Hch) as Hne.
  destruct (chunk_head ch r Hch) as (c & tl & -> & Hc & Hlen).
  rewrite app_cons in *. rewrite appendString_go_unfold. cbv zeta.
  unfold utf8.RuneSelf. apply Z.ltb_ge in Hc. rewrite Hc, Hd, Hne, Hlen.
  unfold enc_rune. destruct ((r =? 8232) || (r =? 8233)).
  - rewrite appendString_go_drop. reflexivity.
  - rewrite appendString_go_copy. reflexivity.
Qed.

(** *** Inside a string literal: the scanner *)

Definition inString (ps : list json.parseKind) : json.scanner :=
  json.Scanner json.stateInString ps.

Lemma scan_high c ps :
  128 <= b2z c -> json.stepFn (inString ps) c = (inString ps, json.scanContinue).
Proof.
  intros H. unfold json.stepFn, inString. cbn [json.step].
  rewrite !isc_b2z.
  replace (b2z c =? b2z dquote) with false by (symmetry; apply Z.eqb_neq; vm_compute (b2z dquote); lia).
  replace (b2z c =? b2z backslash) with false
    by (symmetry; apply Z.eqb_neq; vm_compute (b2z backslash); lia).
  replace (b2z c <? 32) with false by (symmetry; apply Z.ltb_ge; lia).
  reflexivity.
Qed.

Lemma scan_over_high w ps :
  all_high w -> scan_over (inString ps) w = Some (inString ps).
Proof.
  induction w as [| c w IH]; [reflexivity |]. intros [Hc Hw].
  cbn [scan_over]. rewrite scan_high by exact Hc. cbn [terminal]. auto.
Qed.

(** One of the 128 ASCII characters, case by case. *)
Ltac each_ascii c :=
  destruct c as [[] [] [] [] [] [] [] []].

Lemma scan_over_ascii c ps :
  b2z c < 128 -> scan_over (inString ps) (enc_ascii c) = Some (inString ps).
Proof. each_ascii c; intros H; first [reflexivity | vm_compute in H; discriminate H]. Qed.

Lemma scan_over_rune ch r ps :
  rune_chunk ch r -> scan_over (inString ps) (enc_rune ch r) = Some (inString ps).
Proof.
  intros Hch. unfold enc_rune.
  destruct (r =? 8232) eqn:E1; [apply Z.eqb_eq in E1; subst; reflexivity |].
  destruct (r =? 8233) eqn:E2; [apply Z.eqb_eq in E2; subst; reflexivity |].
  apply scan_over_high. eapply chunk_high; eauto.
Qed.

(** The scanner crosses the inside of any string the encoder writes. *)
Lemma scan_over_appendString_go s ps :
  scan_over (inString ps) (json.appendString_go (json.Copy 0) s) = Some (inString ps).
Proof.
  induction (all_chunks s) as [| c t Hc _ IH | c t _ Hc E _ IH | ch r t Hch _ IH].
  - reflexivity.
  - rewrite encode_ascii, scan_over_app, scan_over_ascii by assumption. exact IH.
  - rewrite encode_invalid, scan_over_app by assumption. exact IH.
  - rewrite (encode_rune ch r), scan_over_app, (scan_over_rune ch r) by assumption.
    exact IH.
Qed.

(** *** Inside a string literal: finding its end *)

Definition over_pair (enc : string) (o : option (string * string))
  : option (string * string) :=
  match o with
  | Some (lit, rest) => Some (enc +:+ lit, rest)
  | None => None
  end.

Ltac push_app := repeat (rewrite app_cons || rewrite app_nil).

Lemma rescan_plain c rest :
  json.isc c dquote = false -> json.isc c backslash = false ->
  json.rescanLiteral false (String c rest)
  = over_pair (String c EmptyString) (json.rescanLiteral false rest).
Proof.
  intros H1 H2. cbn [json.rescanLiteral]. rewrite H1, H2.
  destruct (json.rescanLiteral false rest) as [[l r] |]; reflexivity.
Qed.

Lemma over_pair_app a b o : over_pair a (over_pair b o) = over_pair (a +:+ b) o.
Proof. destruct o as [[l r] |]; [| reflexivity]. cbn [over_pair]. rewrite string_app_assoc. reflexivity. Qed.

Lemma isc_high c (d : ascii) : 128 <= b2z c -> b2z d < 128 -> json.isc c d = false.
Proof. intros H1 H2. rewrite isc_b2z. apply Z.eqb_neq. lia. Qed.

Lemma rescan_high w rest :
  all_high w ->
  json.rescanLiteral false (w +:+ rest) = over_pair w (json.rescanLiteral false rest).
Proof.
  induction w as [| c w IH]; intros Hw; push_app.
  - destruct (json.rescanLiteral false rest) as [[l r] |]; reflexivity.
  - destruct Hw as [Hc Hw].
    rewrite rescan_plain by (apply isc_high; [exact Hc | reflexivity]).
    rewrite IH, over_pair_app by exact Hw. reflexivity.
Qed.

Lemma rescan_ascii c rest :
  b2z c < 128 ->
  json.rescanLiteral false (enc_ascii c +:+ rest)
  = over_pair (enc_ascii c) (json.rescanLiteral false rest).
Proof.
  each_ascii c; intros H; try (vm_compute in H; discriminate H);
    match goal with
    | |- context [enc_ascii ?x] =>
      let v := eval vm_compute in (enc_ascii x) in change (enc_ascii x) with v
    end;
    push_app; cbn [json.rescanLiteral json.isc Ascii.eqb Bool.eqb dquote backslash];
    destruct (json.rescanLiteral false rest) as [[l r] |]; reflexivity.
Qed.

Ltac eval_hex :=
  repeat match goal with
         | |- context [json.hex ?x] =>
           let v := eval vm_compute in (json.hex x) in change (json.hex x) with v
         end.

Lemma rescan_rune ch r rest :
  rune_chunk ch r ->
  json.rescanLiteral false (enc_rune ch r +:+ rest)
  = over_pair (enc_rune ch r) (json.rescanLiteral false rest).
Proof.
  intros Hch. unfold enc_rune.
  destruct (r =? 8232) eqn:E1;
    [apply Z.eqb_eq in E1; subst; cbn [orb]; eval_hex; push_app;
     destruct (json.rescanLiteral false rest) as [[l r] |] eqn:E;
     cbn [json.rescanLiteral json.isc Ascii.eqb Bool.eqb dquote backslash orb];
     rewrite E; reflexivity |].
  destruct (r =? 8233) eqn:E2;
    [apply Z.eqb_eq in E2; subst; cbn [orb]; eval_hex; push_app;
     destruct (json.rescanLiteral false rest) as [[l r] |] eqn:E;
     cbn [json.rescanLiteral json.isc Ascii.eqb Bool.eqb dquote backslash orb];
     rewrite E; reflexivity |].
  apply rescan_high. eapply chunk_high; eauto.
Qed.

Lemma rescan_replacement rest :
  json.rescanLiteral false (json.replacement +:+ rest)
  = over_pair json.replacement (json.rescanLiteral false rest).
Proof.
  unfold json.replacement. push_app.
  destruct (json.rescanLiteral false rest) as [[l r] |] eqn:E;
    cbn [json.rescanLiteral json.isc Ascii.eqb Bool.eqb dquote backslash];
    rewrite E; reflexivity.
Qed.

(** The end of a literal written by the encoder is found at its closing
    quote. *)
Lemma rescan_appendString_go s rest :
  json.rescanLiteral false
    (json.appendString_go (json.Copy 0) s +:+ String dquote rest)
  = Some (json.appendString_go (json.Copy 0) s, rest).
Proof.
  induction (all_chunks s) as [| c t Hc _ IH | c t _ Hc E _ IH | ch r t Hch _ IH].
  - reflexivity.
  - rewrite encode_ascii, string_app_assoc, rescan_ascii, IH by assumption. reflexivity.
  - rewrite encode_invalid, string_app_assoc, rescan_replacement, IH by assumption.
    reflexivity.
  - rewrite (encode_rune ch r), string_app_assoc, (rescan_rune ch r), IH by assumption.
    reflexivity.
Qed.

(** *** Inside a string literal: its value *)

Definition onto (w : string) (o : option string) : option string :=
  match o with
  | Some x => Some (w +:+ x)
  | None => None
  end.

Lemma onto_app a b o : onto a (onto b o) = onto (a +:+ b) o.
Proof. destruct o; [| reflexivity]. cbn [onto]. rewrite string_app_assoc. reflexivity. Qed.

Lemma unquote_go_Drop0 fast s :
  json.unquote_go fast (json.Drop 0) s = json.unquote_go fast (json.Copy 0) s.
Proof. destruct s; reflexivity. Qed.

Lemma unquote_go_copy fast w rest :
  json.unquote_go fast (json.Copy (String.length w)) (w +:+ rest)
  = onto w (json.unquote_go fast (json.Copy 0) rest).
Proof.
  induction w as [| c w IH]; push_app; simpl String.length.
  - destruct (json.unquote_go fast (json.Copy 0) rest); reflexivity.
  - cbn [json.unquote_go]. rewrite IH.
    destruct (json.unquote_go fast (json.Copy 0) rest); reflexivity.
Qed.

Lemma unquote_go_drop fast w rest :
  json.unquote_go fast (json.Drop (String.length w)) (w +:+ rest)
  = json.unquote_go fast (json.Copy 0) rest.
Proof.
  induction w as [| c w IH]; push_app; simpl String.length;
    [apply unquote_go_Drop0 |].
  cbn [json.unquote_go]. exact IH.
Qed.

Lemma unquote_ascii fast c rest :
  b2z c < 128 ->
  json.unquote_go fast (json.Copy 0) (enc_ascii c +:+ rest)
  = onto (String c EmptyString)
         (json.unquote_go (fast && json.htmlSafeSet (b2z c)) (json.Copy 0) rest).
Proof.
  each_ascii c; intros H; try (vm_compute in H; discriminate H);
    match goal with
    | |- context [enc_ascii ?x] =>
      let v := eval vm_compute in (enc_ascii x) in change (enc_ascii x) with v
    end;
    match goal with
    | |- context [json.htmlSafeSet ?x] =>
      let v := eval vm_compute in (json.htmlSafeSet x) in change (json.htmlSafeSet x) with v
    end;
    push_app; cbn; rewrite ?unquote_go_Drop0, ?andb_true_r, ?andb_false_r;
    destruct (json.unquote_go _ (json.Copy 0) rest); reflexivity.
Qed.

Lemma unquote_go_high fast c t :
  128 <= b2z c ->
  json.unquote_go fast (json.Copy 0) (String c t)
  = let '(rr, size) := utf8.DecodeRune (String c t) in
    if fast && negb ((rr =? utf8.RuneError) && Nat.eqb size 1) then
      String c <$> json.unquote_go true (json.Copy (Nat.pred size)) t
    else
      String.app (utf8.EncodeRune rr)
        <$> json.unquote_go false (json.Drop (Nat.pred size)) t.
Proof.
  intros H. cbn [json.unquote_go].
  rewrite (isc_high c backslash), (isc_high c dquote) by (assumption || reflexivity).
  replace (b2z c <? 32) with false by (symmetry; apply Z.ltb_ge; lia).
  unfold utf8.RuneSelf.
  replace (b2z c <? 128) with false by (symmetry; apply Z.ltb_ge; lia).
  reflexivity.
Qed.

Lemma unquote_raw fast ch r rest :
  rune_chunk ch r ->
  json.unquote_go fast (json.Copy 0) (ch +:+ rest)
  = onto ch (json.unquote_go fast (json.Copy 0) rest).
Proof.
  intros Hch. pose proof (chunk_decode ch r rest Hch) as Hd.
  pose proof (chunk_not_error ch r Hch) as Hne.
  pose proof (chunk_encode ch r Hch) as He.
  destruct (chunk_head ch r Hch) as (c & tl & -> & Hc & Hlen).
  rewrite app_cons in *. rewrite unquote_go_high by exact Hc.
  rewrite Hd, Hne, Hlen. cbn [negb]. rewrite andb_true_r.
  destruct fast.
  - rewrite unquote_go_copy.
    destruct (json.unquote_go true (json.Copy 0) rest); reflexivity.
  - rewrite unquote_go_drop, He.
    destruct (json.unquote_go false (json.Copy 0) rest); reflexivity.
Qed.

Lemma unquote_rune fast ch r rest :
  rune_chunk ch r ->
  exists fast',
    json.unquote_go fast (json.Copy 0) (enc_rune ch r +:+ rest)
    = onto ch (json.unquote_go fast' (json.Copy 0) rest).
Proof.
  intros Hch. unfold enc_rune.
  pose proof (chunk_encode ch r Hch) as He.
  destruct (r =? 8232) eqn:E1;
    [apply Z.eqb_eq in E1; subst r; exists false; rewrite <- He; cbn [orb];
     eval_hex; push_app; cbn; rewrite unquote_go_Drop0;
     destruct (json.unquote_go false (json.Copy 0) rest); reflexivity |].
  destruct (r =? 8233) eqn:E2;
    [apply Z.eqb_eq in E2; subst r; exists false; rewrite <- He; cbn [orb];
     eval_hex; push_app; cbn; rewrite unquote_go_Drop0;
     destruct (json.unquote_go false (json.Copy 0) rest); reflexivity |].
  exists fast. cbn [orb]. apply (unquote_raw fast ch r rest Hch).
Qed.

(** Unquoting what the encoder wrote for a string of valid UTF-8 gives
    the string back. *)
Lemma unquote_appendString_go s :
  chunks false s ->
  forall fast,
    json.unquote_go fast (json.Copy 0) (json.appendString_go (json.Copy 0) s) = Some s.
Proof.
  induction 1 as [| c t Hc _ IH | c t Hl _ _ _ _ | ch r t Hch _ IH]; intros fast.
  - reflexivity.
  - rewrite encode_ascii, unquote_ascii, IH by assumption. reflexivity.
  - discriminate Hl.
  - rewrite (encode_rune ch r) by assumption.
    destruct (unquote_rune fast ch r (json.appendString_go (json.Copy 0) t) Hch)
      as (fast' & ->).
    rewrite IH. reflexivity.
Qed.

Lemma appendString_app s rest :
  json.appendString s +:+ rest
  = String dquote (json.appendString_go (json.Copy 0) s +:+ String dquote rest).
Proof.
  unfold json.appendString. rewrite app_cons, string_app_assoc, app_cons, app_nil.
  reflexivity.
Qed.

Lemma literal_string_appendString s rest :
  utf8.ValidString s = true ->
  json.literal_string (json.appendString s +:+ rest) = Ok (s, rest).
Proof.
  intros Hv. rewrite appendString_app. unfold json.literal_string.
  replace (json.isc dquote dquote) with true by reflexivity.
  rewrite rescan_appendString_go. unfold json.unquote.
  rewrite unquote_appendString_go by (apply valid_chunks; exact Hv).
  reflexivity.
Qed.

(** *** Objects *)

Definition member (k v : string) : string :=
  json.appendString k +:+ ":" +:+ json.appendString v.

Lemma encode_members_cons first k v t :
  json.encode_members first ((k, v) :: t)
  = (if first then EmptyString else ",") +:+ member k v +:+ json.encode_members false t.
Proof.
  cbn [json.encode_members]. unfold member. rewrite !string_app_assoc. reflexivity.
Qed.

Definition keyState (st : json.stepState) : Prop :=
  st = json.stateBeginStringOrEmpty \/ st = json.stateBeginString.

Definition atKey (st : json.stepState) : json.scanner :=
  json.Scanner st [json.parseObjectKey].
Definition afterValue : json.scanner :=
  json.Scanner json.stateEndValue [json.parseObjectValue].

Lemma scan_over_appendString st0 ps s :
  st0 = json.stateBeginStringOrEmpty \/ st0 = json.stateBeginString
  \/ st0 = json.stateBeginValue ->
  ps <> [] ->
  scan_over (json.Scanner st0 ps) (json.appendString s)
  = Some (json.Scanner json.stateEndValue ps).
Proof.
  intros Hst Hps. unfold json.appendString. cbn [scan_over].
  assert (E : json.stepFn (json.Scanner st0 ps) dquote
              = (inString ps, json.scanBeginLiteral)).
  { destruct ps as [| p ps]; [congruence |].
    destruct Hst as [-> | [-> | ->]]; reflexivity. }
  rewrite E. cbn [terminal].
  rewrite scan_over_app, scan_over_appendString_go. reflexivity.
Qed.

Lemma scan_over_member st k v :
  keyState st -> scan_over (atKey st) (member k v) = Some afterValue.
Proof.
  intros Hst. unfold member, atKey.
  rewrite scan_over_app, scan_over_appendString
    by (try discriminate; destruct Hst; auto).
  cbn [mbind option_bind]. rewrite scan_over_app. cbn [scan_over].
  replace (json.stepFn (json.Scanner json.stateEndValue [json.parseObjectKey]) ":")
    with (json.Scanner json.stateBeginValue [json.parseObjectValue], json.scanObjectKey)
    by reflexivity.
  cbn [terminal mbind option_bind].
  rewrite scan_over_appendString by (try discriminate; auto). reflexivity.
Qed.

Lemma scan_over_members l : forall st first,
  keyState st -> (first = true -> st = json.stateBeginStringOrEmpty) ->
  l <> [] ->
  scan_over (if first then atKey st else afterValue) (json.encode_members first l)
  = Some afterValue.
Proof.
  induction l as [| [k v] t IH]; intros st first Hst Hfirst Hne; [congruence |].
  rewrite encode_members_cons, scan_over_app.
  assert (E : scan_over (if first then atKey st else afterValue)
                        (if first then EmptyString else ",")
              = Some (atKey (if first then st else json.stateBeginString))).
  { destruct first; reflexivity. }
  rewrite E. cbn [mbind option_bind].
  rewrite scan_over_app.
  rewrite scan_over_member by (destruct first; [exact Hst | right; reflexivity]).
  cbn [mbind option_bind].
  destruct t as [| kv t']; [reflexivity |].
  apply (IH json.stateBeginString false); [right; reflexivity | discriminate | discriminate].
Qed.

(** The closing brace ends the value, and the stream goes on after it. *)
Lemma readValue_go_close s seen rest :
  s = afterValue \/ s = atKey json.stateBeginStringOrEmpty ->
  json.readValue_go s seen ("}" +:+ rest) = Ok ("}", rest).
Proof. intros [-> | ->]; reflexivity. Qed.

Lemma scan_over_open ws :
  all_space ws = true ->
  scan_over json.reset (ws +:+ "{") = Some (atKey json.stateBeginStringOrEmpty).
Proof.
  intros H. rewrite scan_over_app. unfold json.reset.
  rewrite scan_over_space by auto. reflexivity.
Qed.

Definition object_text (l : list (string * string)) : string :=
  "{" +:+ json.encode_members true l +:+ "}".

Lemma scan_over_object_body ws l :
  all_space ws = true ->
  exists s,
    scan_over json.reset (ws +:+ "{" +:+ json.encode_members true l) = Some s
    /\ (s = afterValue \/ s = atKey json.stateBeginStringOrEmpty).
Proof.
  intros H. rewrite <- string_app_assoc, scan_over_app, scan_over_open by exact H.
  cbn [mbind option_bind].
  destruct l as [| kv t].
  - eexists. split; [reflexivity | right; reflexivity].
  - exists afterValue. split; [| left; reflexivity].
    apply (scan_over_members (kv :: t) json.stateBeginStringOrEmpty true);
      [left; reflexivity | reflexivity | discriminate].
Qed.

(** An object written by the encoder is read as one value, whatever comes
    after it. *)
Lemma readValue_go_object ws l seen rest :
  all_space ws = true ->
  json.readValue_go json.reset seen (ws +:+ object_text l +:+ rest)
  = Ok (ws +:+ object_text l, rest).
Proof.
  intros H. destruct (scan_over_object_body ws l H) as (s & Hs & Hend).
  unfold object_text.
  replace (ws +:+ ("{" +:+ json.encode_members true l +:+ "}") +:+ rest)
    with ((ws +:+ "{" +:+ json.encode_members true l) +:+ "}" +:+ rest)
    by (rewrite !string_app_assoc; reflexivity).
  rewrite (readValue_go_over _ _ _ _ _ Hs), readValue_go_close by exact Hend.
  cbn [prepend]. rewrite !string_app_assoc. reflexivity.
Qed.

Definition members_text (l : list (string * string)) : string :=
  match l with
  | [] => EmptyString
  | (k, v) :: t => member k v +:+ json.encode_members false t
  end.

Lemma encode_members_true l : json.encode_members true l = members_text l.
Proof. destruct l as [| [k v] t]; [reflexivity |]. rewrite encode_members_cons. reflexivity. Qed.

Lemma encode_members_false l :
  l <> [] -> json.encode_members false l = "," +:+ members_text l.
Proof.
  destruct l as [| [k v] t]; [congruence |]. intros _.
  rewrite encode_members_cons. reflexivity.
Qed.

Definition valid_pair (kv : string * string) : Prop :=
  utf8.ValidString kv.1 = true /\ utf8.ValidString kv.2 = true.

Definition put (acc : gmap string string) (kv : string * string) : gmap string string :=
  <[kv.1 := kv.2]> acc.

Lemma appendString_head s : exists t, json.appendString s = String dquote t.
Proof. unfold json.appendString. eauto. Qed.

Lemma object_go_members l : forall fuel first acc,
  (length l < fuel)%nat ->
  (l = [] -> first = true) ->
  Forall valid_pair l ->
  json.object_go fuel first acc (members_text l +:+ "}") = Ok (foldl put acc l).
Proof.
  induction l as [| [k v] t IH]; intros fuel first acc Hfuel Hfirst Hvalid.
  - rewrite (Hfirst eq_refl). destruct fuel as [| fuel]; [simpl in Hfuel; lia |].
    reflexivity.
  - destruct fuel as [| fuel]; [simpl in Hfuel; lia |].
    inversion Hvalid as [| ? ? [Hk Hv] Ht]; subst. cbn [fst snd] in *.
    cbn [members_text foldl]. unfold member.
    rewrite !string_app_assoc.
    destruct (appendString_head k) as (tk & Ek).
    cbn [json.object_go].
    assert (Esp : forall x, json.skipSpace (json.appendString k +:+ x)
                            = json.appendString k +:+ x).
    { intros x. rewrite Ek, app_cons. reflexivity. }
    rewrite Esp. rewrite Ek at 1. rewrite app_cons.
    replace (json.isc dquote "}") with false by reflexivity. rewrite andb_false_r.
    cbn beta iota.
    rewrite literal_string_appendString by exact Hk.
    rewrite app_cons, app_nil. cbn [json.skipSpace].
    replace (json.isSpace ":") with false by reflexivity.
    replace (json.isc ":" ":") with true by reflexivity.
    destruct (appendString_head v) as (tv & Ev).
    assert (Esv : forall x, json.skipSpace (json.appendString v +:+ x)
                            = json.appendString v +:+ x).
    { intros x. rewrite Ev, app_cons. reflexivity. }
    rewrite Esv. rewrite Ev at 1. rewrite app_cons.
    replace (json.isc dquote dquote) with true by reflexivity.
    cbn beta iota.
    rewrite literal_string_appendString by exact Hv.
    destruct t as [| [k' v'] t'].
    + reflexivity.
    + rewrite encode_members_false by discriminate.
      rewrite app_cons, app_nil. cbn [json.skipSpace].
      replace (json.isSpace ",") with false by reflexivity.
      replace (json.isc "," "}") with false by reflexivity.
      replace (json.isc "," ",") with true by reflexivity.
      apply (IH fuel false (<[k := v]> acc)); [simpl in *; lia | discriminate | exact Ht].
Qed.

Lemma members_length l first :
  (length l <= String.length (json.encode_members first l))%nat.
Proof.
  revert first. induction l as [| [k v] t IH]; intros first; [simpl; lia |].
  rewrite encode_members_cons, !string_app_length. unfold member, json.appendString.
  rewrite string_app_length. specialize (IH false). simpl. lia.
Qed.

(** Insertion sort keeps the pairs. *)
Lemma insert_sorted_perm x l : json.insert_sorted x l ≡ₚ x :: l.
Proof.
  induction l as [| y t IH]; cbn [json.insert_sorted]; [reflexivity |].
  destruct (json.key_le x y); [reflexivity |].
  rewrite IH. apply Permutation_swap.
Qed.

Lemma sort_keys_perm l : json.sort_keys l ≡ₚ l.
Proof.
  unfold json.sort_keys. induction l as [| x t IH]; cbn [foldr]; [reflexivity |].
  rewrite insert_sorted_perm, IH. reflexivity.
Qed.

Lemma foldl_put_list_to_map (l : list (string * string)) :
  NoDup l.*1 -> foldl put ∅ l = list_to_map l.
Proof.
  intros Hnd.
  assert (H : forall acc, foldl put acc l = list_to_map (reverse l) ∪ acc).
  { clear Hnd. induction l as [| [k v] t IH]; intros acc; cbn [foldl].
    - rewrite reverse_nil. cbn. rewrite (left_id_L ∅ (∪)). reflexivity.
    - rewrite IH, reverse_cons, list_to_map_app. cbn [list_to_map foldr].
      unfold put. cbn [fst snd]. rewrite insert_empty.
      rewrite <- (assoc_L (∪)). f_equal.
      rewrite <- insert_union_singleton_l. reflexivity. }
  rewrite H, (right_id_L ∅ (∪)).
  apply list_to_map_proper; [| apply reverse_Permutation].
  rewrite fmap_reverse, reverse_Permutation. exact Hnd.
Qed.

Definition valid_map (m : gmap string string) : Prop :=
  forall k v, m !! k = Some v -> utf8.ValidString k = true /\ utf8.ValidString v = true.

(** The same, as a test. *)
Definition valid_tab (m : gmap string string) : bool :=
  forallb (fun kv => utf8.ValidString kv.1 && utf8.ValidString kv.2) (map_to_list m).

Lemma valid_tab_spec m : valid_tab m = true -> valid_map m.
Proof.
  unfold valid_tab. rewrite forallb_forall. intros H k v Hkv.
  apply elem_of_map_to_list, list_elem_of_In, H, andb_prop in Hkv. exact Hkv.
Qed.

Lemma sorted_pairs m :
  let l := json.sort_keys (map_to_list m) in
  foldl put ∅ l = m /\ (valid_map m -> Forall valid_pair l).
Proof.
  cbv zeta. pose proof (sort_keys_perm (map_to_list m)) as Hp. split.
  - rewrite foldl_put_list_to_map.
    + rewrite (list_to_map_proper _ (map_to_list m)); [apply list_to_map_to_list | | exact Hp].
      rewrite Hp. apply NoDup_fst_map_to_list.
    + rewrite Hp. apply NoDup_fst_map_to_list.
  - intros Hv. rewrite Hp. apply Forall_forall. intros [k v] Hin.
    apply elem_of_map_to_list in Hin. apply Hv in Hin. exact Hin.
Qed.

Lemma encode_map_text m :
  json.encode_map m = object_text (json.sort_keys (map_to_list m)).
Proof. reflexivity. Qed.

Lemma unmarshal_map_encode ws m :
  all_space ws = true ->
  valid_map m ->
  json.unmarshal_map (ws +:+ json.encode_map m) = Ok m.
Proof.
  intros Hws Hv. unfold json.unmarshal_map. rewrite skipSpace_app by exact Hws.
  rewrite encode_map_text. unfold object_text. rewrite app_cons, app_nil.
  cbn [json.skipSpace].
  replace (json.isSpace "{") with false by reflexivity.
  replace (json.isc "{" "{") with true by reflexivity.
  destruct (sorted_pairs m) as [Hm Hl]. cbv zeta in *.
  rewrite encode_members_true, object_go_members; [rewrite Hm; reflexivity | | | auto].
  - rewrite <- encode_members_true, string_app_length.
    pose proof (members_length (json.sort_keys (map_to_list m)) true). simpl. lia.
  - reflexivity.
Qed.

(** Decoding a map written by the encoder, after any white space: the
    map, and the stream from the newline on. *)
Lemma Decode_map_Encode ws m rest :
  all_space ws = true ->
  valid_map m ->
  json.Decode_map (ws +:+ json.encode_map m +:+ rest) = Ok (m, rest).
Proof.
  intros Hws Hv. unfold json.Decode_map, json.readValue.
  rewrite encode_map_text, readValue_go_object by exact Hws.
  rewrite <- encode_map_text, unmarshal_map_encode by assumption. reflexivity.
Qed.

(** ** The snapshot round trip *)

(** The blob [makeSnapshot] writes for a state. *)
Definition snapshot_of (k : KVServer) : string :=
  strconv.FormatInt (uniqueId k) +:+ json.newline
  +:+ strconv.FormatInt (commitIndex k) +:+ json.newline
  +:+ json.encode_map (tab k) +:+ json.newline.

Lemma makeSnapshot_returns tid ins w :
  exists w', run tid makeSnapshot ins w = Returned (Ok (snapshot_of (kv w))) w' ins
             /\ kv w' = kv w.
Proof.
  unfold makeSnapshot, json.Encode_int, json.Encode_map.
  do 3 run_step. run_step. eexists. split.
  - unfold snapshot_of. rewrite !string_app_assoc. reflexivity.
  - reflexivity.
Qed.

Lemma all_space_newline : all_space json.newline = true.
Proof. reflexivity. Qed.

Lemma FormatInt_length z : GoInt.in_range z -> (1 <= String.length (strconv.FormatInt z))%nat.
Proof.
  intros Hz. destruct (FormatInt_head z Hz) as (c & t & -> & _). simpl. lia.
Qed.

(** What [recoverFrom] installs: the three decoded fields, the rest of the
    server as it was. *)
Definition restored (uid ci : Z) (t : gmap string string) (k : KVServer) : KVServer :=
  store Ftab t (store FcommitIndex ci (store FuniqueId uid k)).

Lemma recoverFrom_installs tid ins w snapshot uid r1 ci r2 t r3 :
  (1 <= String.length snapshot)%nat ->
  json.Decode_int 0 snapshot = Ok (uid, r1) ->
  json.Decode_int 0 r1 = Ok (ci, r2) ->
  json.Decode_map r2 = Ok (t, r3) ->
  exists w', run tid (recoverFrom snapshot) ins w = Returned None w' ins
             /\ kv w' = restored uid ci t (kv w)
             /\ mu w' = mu w /\ chans w' = chans w.
Proof.
  intros Hlen H1 H2 H3. unfold recoverFrom.
  replace (String.length snapshot <? 1)%nat with false
    by (symmetry; apply Nat.ltb_ge; exact Hlen).
  rewrite H1, H2, H3. do 3 run_step. run_step.
  eexists. split; [reflexivity |]. split; [reflexivity |]. split; reflexivity.
Qed.

Lemma recoverFrom_snapshot_of tid ins w k :
  GoInt.in_range (uniqueId k) ->
  GoInt.in_range (commitIndex k) ->
  valid_map (tab k) ->
  exists w', run tid (recoverFrom (snapshot_of k)) ins w = Returned None w' ins
             /\ kv w' = restored (uniqueId k) (commitIndex k) (tab k) (kv w)
             /\ mu w' = mu w /\ chans w' = chans w.
Proof.
  intros Hu Hc Ht.
  eapply (recoverFrom_installs tid ins w).
  - unfold snapshot_of. rewrite string_app_length.
    pose proof (FormatInt_length _ Hu). lia.
  - apply (Decode_int_Encode 0 EmptyString); [exact Hu | reflexivity].
  - apply (Decode_int_Encode 0 json.newline); [exact Hc | reflexivity].
  - apply Decode_map_Encode; [reflexivity | exact Ht].
Qed.

(** C4. Snapshot round trip: from a state whose [uniqueId] and
    [commitIndex] are non-negative integers of their Go types and whose
    [tab] maps valid UTF-8 keys to valid UTF-8 values, [makeSnapshot]
    returns a blob, and [recoverFrom] on that blob, run by any goroutine
    from any state of the server, returns the nil error and leaves exactly
    the [uniqueId], the [commitIndex] and the [tab] the blob was made
    from. *)
Theorem snapshot_round_trip (tid tid' : nat) (ins ins' : list input) (w w0 : World) :
  0 <= uniqueId (kv w) <= GoInt.MaxInt64 ->
  0 <= commitIndex (kv w) <= GoInt.MaxInt64 ->
  valid_tab (tab (kv w)) = true ->
  exists blob w1 w2,
    run tid makeSnapshot ins w = Returned (Ok blob) w1 ins
    /\ run tid' (recoverFrom blob) ins' w0 = Returned None w2 ins'
    /\ uniqueId (kv w2) = uniqueId (kv w)
    /\ commitIndex (kv w2) = commitIndex (kv w)
    /\ tab (kv w2) = tab (kv w).
Proof.
  intros Hu Hc Ht.
  destruct (makeSnapshot_returns tid ins w) as (w1 & Hmake & _).
  destruct (recoverFrom_snapshot_of tid' ins' w0 (kv w)) as (w2 & Hrec & Hkv & _).
  - unfold GoInt.in_range, GoInt.MinInt64. lia.
  - unfold GoInt.in_range, GoInt.MinInt64. lia.
  - apply valid_tab_spec. exact Ht.
  - exists (snapshot_of (kv w)), w1, w2.
    split; [exact Hmake |]. split; [exact Hrec |].
    rewrite Hkv. split; [reflexivity |]. split; reflexivity.
Qed.

(** ** Truncated input *)

(** Inside a composite value: the scanner has an open object or array. *)
Definition inside (s : json.scanner) : Prop :=
  json.parseState s <> [] /\ json.step s <> json.stateEndTop.

Ltac split_tests H :=
  repeat match type of H with
         | context [if ?b then _ else _] => destruct b
         | context [match ?l with [] => _ | _ :: _ => _ end] => destruct l
         | context [match ?k with json.parseObjectKey => _ | _ => _ end] => destruct k
         end.

(** A byte read inside a composite value never ends the top-level value
    with [scanEnd]; unless it closes the value or is an error, the scanner
    is still inside. *)
Lemma inside_stepFn s c s' code :
  inside s ->
  json.stepFn s c = (s', code) ->
  code <> json.scanEnd /\ (terminal code = false -> inside s').
Proof.
  destruct s as [st [| top ps]]; intros [Hps Hst]; [contradiction |].
  cbn [json.step json.parseState] in Hst. clear Hps. intros H.
  destruct st; try contradiction;
    unfold json.stepFn, json.do_stateBeginValue, json.do_stateBeginString,
      json.do_state0, json.do_stateESign, json.do_stateEndValue, json.expect,
      json.pushParseState, json.popParseState, json.goto, json.error in H;
    cbn [json.step json.parseState] in H;
    split_tests H;
    injection H as <- <-;
    (split; [discriminate | cbn [terminal]; intros Ht; try discriminate Ht;
                            split; cbn [json.step json.parseState]; discriminate]).
Qed.

Lemma inside_scan_over txt : forall s s',
  inside s -> scan_over s txt = Some s' -> inside s'.
Proof.
  induction txt as [| c t IH]; intros s s' Hin H; cbn [scan_over] in H.
  - injection H as <-. exact Hin.
  - destruct (json.stepFn s c) as [s1 code] eqn:E.
    destruct (inside_stepFn _ _ _ _ Hin E) as [_ Hnext].
    destruct (terminal code); [discriminate |]. eauto.
Qed.

Lemma inside_eof s : inside s -> json.is_scanEnd (json.stepFn s " ").2 = false.
Proof.
  intros Hin. destruct (json.stepFn s " ") as [s1 code] eqn:E.
  destruct (inside_stepFn _ _ _ _ Hin E) as [Hne _]. cbn [snd].
  destruct code; try reflexivity. congruence.
Qed.

Lemma scan_over_prefix s p q s' :
  scan_over s (p +:+ q) = Some s' -> exists s1, scan_over s p = Some s1.
Proof.
  rewrite scan_over_app. destruct (scan_over s p) as [s1 |]; [eauto | discriminate].
Qed.

(** At the end of a text the scanner went over, the reader has the whole
    text as the value, or an error; nothing is left in the stream. *)
Lemma readValue_go_exhausted txt s s' seen :
  scan_over s txt = Some s' ->
  match json.readValue_go s seen txt with
  | Ok (tok, rest) => rest = EmptyString
  | Err _ => True
  end.
Proof.
  intros H. rewrite (readValue_go_eof _ _ _ _ H).
  destruct (json.is_scanEnd _); [reflexivity | exact I].
Qed.

Lemma readValue_go_inside txt s s' seen :
  scan_over s txt = Some s' -> inside s' ->
  exists e, json.readValue_go s seen txt = Err e.
Proof.
  intros H Hin. rewrite (readValue_go_eof _ _ _ _ H), (inside_eof _ Hin). eauto.
Qed.

Lemma readValue_space ws : all_space ws = true -> json.readValue ws = Err "EOF".
Proof.
  intros Hws. unfold json.readValue.
  rewrite (readValue_go_eof ws json.reset json.reset)
    by (apply scan_over_space; auto).
  assert (E : json.nonSpace ws = false).
  { induction ws as [| c t IH]; [reflexivity |]. cbn [all_space] in Hws.
    apply andb_prop in Hws as [Hc Ht]. cbn [json.nonSpace]. rewrite Hc, IH by exact Ht.
    reflexivity. }
  rewrite E. reflexivity.
Qed.

Lemma Decode_int_space cur ws : all_space ws = true -> json.Decode_int cur ws = Err "EOF".
Proof. intros H. unfold json.Decode_int. rewrite readValue_space by exact H. reflexivity. Qed.

Lemma Decode_map_space ws : all_space ws = true -> json.Decode_map ws = Err "EOF".
Proof. intros H. unfold json.Decode_map. rewrite readValue_space by exact H. reflexivity. Qed.

(** A result that leaves nothing to decode after it. *)
Definition starved {A} (r : result (A * string)) : Prop :=
  match r with
  | Ok (_, rest) => all_space rest = true
  | Err _ => True
  end.

Lemma all_space_app a b : all_space (a +:+ b) = all_space a && all_space b.
Proof.
  induction a as [| c a IH]; rewrite ?app_cons, ?app_nil; [reflexivity |].
  cbn [all_space]. rewrite IH, andb_assoc. reflexivity.
Qed.

(** An integer field cut anywhere up to its newline: the decoder fails,
    or has a value and only white space after it. *)
Lemma Decode_int_truncated cur ws z p q :
  GoInt.in_range z -> all_space ws = true ->
  p +:+ q = ws +:+ strconv.FormatInt z +:+ json.newline ->
  starved (json.Decode_int cur p).
Proof.
  intros Hz Hws E. rewrite <- string_app_assoc in E.
  apply string_app_eq_app in E as [(r & E & _) | (r & Hr & -> & E)].
  - destruct (scan_over_FormatInt z Hz) as (s & Hs & _).
    assert (Hall : scan_over json.reset (ws +:+ strconv.FormatInt z) = Some s).
    { rewrite scan_over_app. unfold json.reset. rewrite scan_over_space by auto. exact Hs. }
    rewrite E in Hall. apply scan_over_prefix in Hall as (s1 & Hs1).
    pose proof (readValue_go_exhausted p json.reset s1 false Hs1) as Hex.
    unfold json.Decode_int, json.readValue.
    destruct (json.readValue_go json.reset false p) as [[tok rest] | e]; [| exact I].
    subst rest. destruct (json.unmarshal_int cur tok); [reflexivity | exact I].
  - assert (r = json.newline /\ q = EmptyString) as [-> ->].
    { destruct r as [| c r]; [congruence |]. unfold json.newline in E.
      rewrite app_cons in E. injection E as <- E.
      destruct r; [rewrite app_nil in E; auto | discriminate E]. }
    rewrite string_app_assoc.
    rewrite <- (string_app_nil_r json.newline) at 1.
    rewrite Decode_int_Encode by assumption. reflexivity.
Qed.

(** An object cut before its closing brace is not a value. *)
Lemma Decode_map_truncated ws l p q :
  all_space ws = true -> q <> EmptyString ->
  p +:+ q = ws +:+ object_text l ->
  exists e, json.Decode_map p = Err e.
Proof.
  intros Hws Hq E.
  assert (exists e, json.readValue p = Err e) as (e & He);
    [| unfold json.Decode_map; rewrite He; eauto].
  unfold object_text in E.
  replace (ws +:+ "{" +:+ json.encode_members true l +:+ "}")
    with ((ws +:+ "{" +:+ json.encode_members true l) +:+ "}") in E
    by (rewrite !string_app_assoc; reflexivity).
  apply string_app_eq_app in E as [(r & E & _) | (r & Hr & _ & E)].
  - symmetry in E.
    apply string_app_eq_app in E as [(r1 & E1 & _) | (r1 & Hr1 & -> & E1)].
    + exists "EOF". apply readValue_space.
      rewrite E1, all_space_app in Hws. apply andb_prop in Hws as [H _]. exact H.
    + destruct r1 as [| c r1]; [congruence |].
      rewrite !app_cons, app_nil in E1. injection E1 as <- E1.
      unfold json.readValue.
      assert (Hbody : scan_over (atKey json.stateBeginStringOrEmpty)
                                (json.encode_members true l) <> None).
      { destruct (scan_over_object_body ws l Hws) as (s & Hs & _).
        rewrite <- string_app_assoc, scan_over_app, scan_over_open in Hs by exact Hws.
        cbn [mbind option_bind] in Hs. congruence. }
      rewrite E1, scan_over_app in Hbody.
      destruct (scan_over (atKey json.stateBeginStringOrEmpty) r1) as [s1 |] eqn:Hs1;
        [| cbn in Hbody; congruence].
      apply (readValue_go_inside _ _ s1).
      * replace (ws +:+ String "{" r1) with ((ws +:+ "{") +:+ r1)
          by (rewrite string_app_assoc; reflexivity).
        rewrite scan_over_app, scan_over_open by exact Hws. exact Hs1.
      * apply (inside_scan_over r1 (atKey json.stateBeginStringOrEmpty));
          [split; discriminate | exact Hs1].
  - exfalso. destruct r as [| c r]; [congruence |].
    rewrite app_cons in E. injection E as _ E.
    destruct r; [rewrite app_nil in E; congruence | discriminate E].
Qed.

(** ** Blobs the decoder rejects *)

(** [recoverFrom] rejects a blob: it returns an error and leaves the
    server as it found it. *)
Definition rejects (snapshot : string) : Prop :=
  forall tid ins w, exists e,
    run tid (recoverFrom snapshot) ins w = Returned (Some e) w ins.

(** One of the three decoding steps of [recoverFrom] fails. *)
Definition undecodable (snapshot : string) : Prop :=
  match json.Decode_int 0 snapshot with
  | Err _ => True
  | Ok (_, r1) =>
    match json.Decode_int 0 r1 with
    | Err _ => True
    | Ok (_, r2) =>
      match json.Decode_map r2 with
      | Err _ => True
      | Ok _ => False
      end
    end
  end.

Lemma recoverFrom_rejects snapshot :
  snapshot <> EmptyString -> undecodable snapshot -> rejects snapshot.
Proof.
  intros Hne Hun tid ins w. unfold recoverFrom, undecodable in *.
  destruct snapshot as [| c t]; [congruence |]. cbn [String.length Nat.ltb Nat.leb].
  destruct (json.Decode_int 0 (String c t)) as [[v1 r1] | e1]; [| eexists; apply run_ret].
  destruct (json.Decode_int 0 r1) as [[v2 r2] | e2]; [| eexists; apply run_ret].
  destruct (json.Decode_map r2) as [[v3 r3] | e3]; [contradiction | eexists; apply run_ret].
Qed.

Lemma starved_int_then_int cur r :
  starved (A := Z) r ->
  match r with
  | Err _ => True
  | Ok (_, r1) => json.Decode_int cur r1 = Err "EOF"
  end.
Proof. destruct r as [[v r1] | e]; [apply Decode_int_space | auto]. Qed.

(** The three fields of a snapshot, and a blob that carries them in a
    given order. *)
Inductive snapshot_field : Type := FieldUniqueId | FieldCommitIndex | FieldTab.

Definition encode_field (k : KVServer) (f : snapshot_field) : string :=
  match f with
  | FieldUniqueId => strconv.FormatInt (uniqueId k) +:+ json.newline
  | FieldCommitIndex => strconv.FormatInt (commitIndex k) +:+ json.newline
  | FieldTab => json.encode_map (tab k) +:+ json.newline
  end.

Definition blob_of (k : KVServer) (order : list snapshot_field) : string :=
  foldr (fun f acc => encode_field k f +:+ acc) EmptyString order.

Lemma blob_of_snapshot k :
  blob_of k [FieldUniqueId; FieldCommitIndex; FieldTab] = snapshot_of k.
Proof.
  unfold blob_of, snapshot_of, encode_field. cbn [foldr].
  rewrite !string_app_assoc, string_app_nil_r. reflexivity.
Qed.

Lemma newline_split r q :
  json.newline = r +:+ q ->
  (r = EmptyString /\ q = json.newline) \/ (r = json.newline /\ q = EmptyString).
Proof.
  destruct r as [| c r]; rewrite ?app_cons, ?app_nil; [auto |].
  unfold json.newline. intros [= <- E]. right.
  destruct r; [rewrite app_nil in E; subst; auto | discriminate E].
Qed.

Lemma Decode_int_first cur z rest :
  GoInt.in_range z ->
  json.Decode_int cur (strconv.FormatInt z +:+ json.newline +:+ rest)
  = Ok (z, json.newline +:+ rest).
Proof. intros Hz. apply (Decode_int_Encode cur EmptyString z rest Hz eq_refl). Qed.

Lemma truncated_undecodable k p q :
  GoInt.in_range (uniqueId k) -> GoInt.in_range (commitIndex k) ->
  p +:+ q = snapshot_of k ->
  q <> EmptyString -> q <> json.newline ->
  undecodable p.
Proof.
  intros Hu Hc E Hq Hnl. unfold snapshot_of, undecodable in *.
  set (N1 := strconv.FormatInt (uniqueId k)) in *.
  set (N2 := strconv.FormatInt (commitIndex k)) in *.
  set (OBJ := json.encode_map (tab k)) in *.
  replace (N1 +:+ json.newline +:+ N2 +:+ json.newline +:+ OBJ +:+ json.newline)
    with ((N1 +:+ json.newline) +:+ (N2 +:+ json.newline) +:+ OBJ +:+ json.newline) in E
    by (rewrite !string_app_assoc; reflexivity).
  subst N1 N2 OBJ.
  apply string_app_eq_app in E as [(r & E & _) | (y & _ & -> & E)].
  - (* cut within the first field *)
    pose proof (Decode_int_truncated 0 EmptyString (uniqueId k) p r Hu eq_refl
                  (eq_sym E)) as Hs.
    apply (starved_int_then_int 0) in Hs.
    destruct (json.Decode_int 0 p) as [[v1 r1] | e1]; [| exact I].
    rewrite Hs. exact I.
  - rewrite string_app_assoc.
    rewrite (Decode_int_first 0 (uniqueId k) y Hu).
    symmetry in E. apply string_app_eq_app in E as [(r & E & _) | (y' & _ & -> & E)].
    + (* cut within the second field *)
      assert (E' : (json.newline +:+ y) +:+ r
                   = json.newline +:+ strconv.FormatInt (commitIndex k) +:+ json.newline).
      { rewrite string_app_assoc. f_equal. symmetry. exact E. }
      pose proof (Decode_int_truncated 0 json.newline (commitIndex k) _ r Hc eq_refl E')
        as Hs.
      destruct (json.Decode_int 0 (json.newline +:+ y)) as [[v2 r2] | e2]; [| exact I].
      cbn [starved] in Hs. rewrite (Decode_map_space _ Hs). exact I.
    + (* cut within the third field *)
      rewrite string_app_assoc.
      rewrite (Decode_int_Encode 0 json.newline (commitIndex k) y' Hc eq_refl).
      symmetry in E. apply string_app_eq_app in E as [(r & E & Eq) | (z & Hz & _ & E)].
      * assert (Hr : r <> EmptyString).
        { intros ->. rewrite app_nil in Eq. contradiction. }
        destruct (Decode_map_truncated json.newline
                    (json.sort_keys (map_to_list (tab k))) (json.newline +:+ y') r
                    eq_refl Hr) as (e & He).
        { rewrite string_app_assoc. f_equal. symmetry. exact E. }
        rewrite He. exact I.
      * exfalso. apply newline_split in E as [[-> ->] | [-> ->]]; congruence.
Qed.

Lemma unmarshal_int_object cur ws l :
  all_space ws = true ->
  exists e, json.unmarshal_int cur (ws +:+ object_text l) = Err e.
Proof.
  intros Hws. unfold json.unmarshal_int. rewrite skipSpace_app by exact Hws.
  unfold object_text. rewrite app_cons. cbv zeta.
  replace (json.isc "{" "n") with false by reflexivity.
  replace (json.isc "{" "-") with false by reflexivity.
  replace (strconv.is_digit "{") with false by reflexivity.
  cbn [orb]. eauto.
Qed.

(** An object where an integer is expected is a type error. *)
Lemma Decode_int_object cur ws m rest :
  all_space ws = true ->
  exists e, json.Decode_int cur (ws +:+ json.encode_map m +:+ rest) = Err e.
Proof.
  intros Hws. unfold json.Decode_int, json.readValue.
  rewrite encode_map_text, readValue_go_object by exact Hws.
  destruct (unmarshal_int_object cur ws (json.sort_keys (map_to_list m)) Hws) as (e & ->).
  eauto.
Qed.

Lemma encode_field_nonempty k f rest : encode_field k f +:+ rest <> EmptyString.
Proof.
  intros H. apply (f_equal String.length) in H.
  destruct f; unfold encode_field in H; rewrite !string_app_length in H;
    unfold json.newline in H; simpl in H; lia.
Qed.

Lemma misordered_undecodable k a b c :
  GoInt.in_range (uniqueId k) -> GoInt.in_range (commitIndex k) ->
  a = FieldTab \/ (a <> FieldTab /\ b = FieldTab) ->
  undecodable (blob_of k [a; b; c]).
Proof.
  intros Hu Hc Horder. unfold blob_of, undecodable. cbn [foldr].
  assert (Hobj : forall rest,
             exists e, json.Decode_int 0
                         (json.newline +:+ encode_field k FieldTab +:+ rest) = Err e).
  { intros rest. unfold encode_field.
    rewrite string_app_assoc. apply Decode_int_object. reflexivity. }
  destruct Horder as [-> | [Ha ->]].
  - unfold encode_field at 1. rewrite string_app_assoc.
    destruct (Decode_int_object 0 EmptyString (tab k)
                (json.newline +:+ encode_field k b +:+ encode_field k c +:+ EmptyString)
                eq_refl) as (e & He).
    rewrite app_nil in He. rewrite He. exact I.
  - assert (exists z, GoInt.in_range z
                      /\ encode_field k a = strconv.FormatInt z +:+ json.newline)
      as (z & Hz & ->)
        by (destruct a; [exists (uniqueId k) | exists (commitIndex k) | congruence];
            (split; [assumption | reflexivity])).
    rewrite string_app_assoc.
    rewrite (Decode_int_first 0 z _ Hz).
    destruct (Hobj (encode_field k c +:+ EmptyString)) as (e & ->). exact I.
Qed.

Lemma apply_msg_decode_failure snapshot :
  rejects snapshot ->
  forall tid ins w msg,
    mu w = None -> CommandValid msg = false -> SnapshotValid msg = true ->
    Snapshot msg = snapshot ->
    exists e w', run tid (apply_msg msg) ins w = Crashed e w'.
Proof.
  intros Hrej tid ins w msg Hmu Hcmd Hsnap <-. unfold apply_msg.
  rewrite Hcmd, Hsnap. run_step. rewrite Hmu. cbn beta iota.
  rewrite run_bind.
  match goal with
  | |- context [run tid (recoverFrom _) ?i ?w1] =>
    destruct (Hrej tid i w1) as (e & ->)
  end.
  cbn beta iota. eexists _, _. reflexivity.
Qed.

(** C7, amended. What the decoder rejects, for the blob of a state whose
    integers are of their Go types: every strict prefix of the blob that
    is neither empty nor the blob without its last newline; every blob
    that carries the three fields once each with [tab] in the first or in
    the second place. [recoverFrom] then returns an error and installs
    nothing. And when [recoverFrom] rejects the blob of a snapshot
    message, the apply pump, once it has the lock, panics. *)
Theorem snapshot_rejection (k : KVServer) :
  GoInt.in_range (uniqueId k) ->
  GoInt.in_range (commitIndex k) ->
  (forall p q,
      p +:+ q = snapshot_of k ->
      p <> EmptyString -> q <> EmptyString -> q <> json.newline ->
      rejects p)
  /\ (forall a b c,
         NoDup [a; b; c] -> c <> FieldTab -> rejects (blob_of k [a; b; c]))
  /\ (forall snapshot tid ins w msg,
         rejects snapshot ->
         mu w = None -> CommandValid msg = false -> SnapshotValid msg = true ->
         Snapshot msg = snapshot ->
         exists e w', run tid (apply_msg msg) ins w = Crashed e w').
Proof.
  intros Hu Hc. split; [| split].
  - intros p q E Hp Hq Hnl. apply recoverFrom_rejects; [exact Hp |].
    apply (truncated_undecodable k p q); assumption.
  - intros a b c Hnd Hlast. apply recoverFrom_rejects.
    + unfold blob_of. cbn [foldr]. apply encode_field_nonempty.
    + apply misordered_undecodable; [exact Hu | exact Hc |].
      apply NoDup_cons in Hnd as [Ha Hnd]. apply NoDup_cons in Hnd as [Hb _].
      apply not_elem_of_cons in Ha as [Hab Ha]. apply not_elem_of_cons in Ha as [Hac _].
      apply not_elem_of_cons in Hb as [Hbc _].
      destruct a, b, c; try congruence;
        first [left; reflexivity | right; split; [discriminate | reflexivity]].
  - intros snapshot tid ins w msg Hrej. apply apply_msg_decode_failure. exact Hrej.
Qed.

(** A state to take snapshots of: an identifier, an index, and a table
    with bytes the encoder escapes and a two-byte rune. *)
Definition sample_tab : gmap string string :=
  <["k<1>" := "v&"]> (<[string_of_bytes [195; 169] := "line" +:+ json.newline]> ∅).

Definition snapshot_state : KVServer :=
  mkKVServer ∅ ∅ 7 42 sample_tab 1 "123456" (-1) (-1) false (GoInt.mul 3600 Second).

(** C7 as stated fails on three blobs. On the empty blob [recoverFrom]
    returns the nil error. The blob without its last newline, a strict
    prefix of the encoding, is accepted and installed. The blob with
    [commitIndex] before [uniqueId] is accepted, and each integer is
    installed in the other's field. *)
Lemma recoverFrom_accepts_invalid_blobs :
  let w := emptyWorld (kv_at 0) in
  let installs (blob : string) (uid ci : Z) :=
    match run 0 (recoverFrom blob) [] w with
    | Returned None w' _ =>
      uniqueId (kv w') = uid /\ commitIndex (kv w') = ci /\ tab (kv w') = sample_tab
    | _ => False
    end in
  run 0 (recoverFrom EmptyString) [] w = Returned None w []
  /\ (exists p, p +:+ json.newline = snapshot_of snapshot_state /\ installs p 7 42)
  /\ installs (blob_of snapshot_state [FieldCommitIndex; FieldUniqueId; FieldTab]) 42 7.
Proof.
  cbv zeta. split; [reflexivity | split].
  - exists (strconv.FormatInt 7 +:+ json.newline +:+ strconv.FormatInt 42 +:+ json.newline
            +:+ json.encode_map sample_tab).
    split; [vm_compute; reflexivity |]. vm_compute. repeat split.
  - vm_compute. repeat split.
Qed.

Lemma snapshot_round_trip_witness :
  exists blob w1 w2,
    run 0 makeSnapshot [] (emptyWorld snapshot_state) = Returned (Ok blob) w1 []
    /\ run 1 (recoverFrom blob) [] (emptyWorld (kv_at 0)) = Returned None w2 []
    /\ uniqueId (kv w2) = 7
    /\ commitIndex (kv w2) = 42
    /\ tab (kv w2) = sample_tab.
Proof.
  apply (snapshot_round_trip 0 1 [] [] (emptyWorld snapshot_state) (emptyWorld (kv_at 0))).
  - vm_compute. split; discriminate.
  - vm_compute. split; discriminate.
  - vm_compute. reflexivity.
Defined.

Lemma snapshot_rejection_witness :
  rejects (strconv.FormatInt 7 +:+ json.newline +:+ "4")
  /\ rejects (blob_of snapshot_state [FieldUniqueId; FieldTab; FieldCommitIndex]).
Proof.
  destruct (snapshot_rejection snapshot_state) as (Hcut & Horder & _).
  - vm_compute. split; discriminate.
  - vm_compute. split; discriminate.
  - split.
    + apply (Hcut _ ("2" +:+ json.newline +:+ json.encode_map sample_tab +:+ json.newline)).
      * vm_compute. reflexivity.
      * discriminate.
      * discriminate.
      * discriminate.
    + apply Horder.
      * repeat constructor; rewrite ?elem_of_cons, elem_of_nil; intuition discriminate.
      * discriminate.
Defined.

(** * Further properties of the server *)

(** ** Sessions *)

Lemma checkSession_valid tid sessionId last now rest w :
  mu w = None ->
  sessionMap (kv w) !! sessionId = Some last ->
  exists w',
    run tid (checkSession sessionId) (Clock now :: rest) w = Returned true w' rest
    /\ kv w' = map_set MsessionMap sessionId now (kv w)
    /\ mu w' = None /\ chans w' = chans w.
Proof.
  intros Hmu Hs. unfold checkSession.
  run_step. rewrite Hmu. cbn beta iota.
  run_step. cbn [map_get]. rewrite Hs.
  run_step. run_step. run_step. run_step.
  eexists. split; [reflexivity |]. split; [reflexivity |]. split; reflexivity.
Qed.

(** X1. [checkSession] under a free lock. For a session the registry
    does not hold it answers [false] and changes nothing. For one it holds
    it reads the clock once, makes that reading the session's last visit,
    changes nothing else of the server, and answers [true]. Either way the
    lock is free again when it returns. *)
Theorem checkSession_touches tid sessionId w :
  mu w = None ->
  (sessionMap (kv w) !! sessionId = None ->
   forall ins, exists w',
     run tid (checkSession sessionId) ins w = Returned false w' ins
     /\ kv w' = kv w /\ mu w' = None /\ chans w' = chans w)
  /\ (forall last now rest,
         sessionMap (kv w) !! sessionId = Some last ->
         exists w',
           run tid (checkSession sessionId) (Clock now :: rest) w = Returned true w' rest
           /\ kv w' = store FsessionMap (<[sessionId := now]> (sessionMap (kv w))) (kv w)
           /\ mu w' = None /\ chans w' = chans w).
Proof.
  intros Hmu. split.
  - intros Hs ins.
    destruct (checkSession_invalid tid sessionId ins w Hmu Hs) as (w' & Hrun & Hkv & Hm & Hc & _).
    exists w'. auto.
  - intros last now rest Hs. apply (checkSession_valid tid sessionId last now rest w Hmu Hs).
Qed.

Lemma checkSession_touches_witness :
  exists w',
    run 0 (checkSession "1-abc") [Clock 9] race_world = Returned true w' []
    /\ kv w' = store FsessionMap (<["1-abc" := 9]> (sessionMap (kv race_world))) (kv race_world)
    /\ mu w' = None /\ chans w' = chans race_world.
Proof.
  destruct (checkSession_touches 0 "1-abc" race_world) as [_ H]; [reflexivity |].
  apply (H 0 9 []). reflexivity.
Defined.

(** *** The sweep of the reaper *)

(** The sessions a sweep finds expired, when [times] are the readings of
    the clock it takes, one per session. *)
Fixpoint expired_of (timeout : Z) (sessions : list (string * Z)) (times : list Z)
  : list string :=
  match sessions, times with
  | (sessionId, lastVisitTime) :: rest, now :: times' =>
    if timeout <=? now - lastVisitTime
    then sessionId :: expired_of timeout rest times'
    else expired_of timeout rest times'
  | _, _ => []
  end.

Definition clock (times : list Z) : list input := Clock <$> times.

Lemma expiredSessions_run tid timeout sessions : forall times rest w,
  length times = length sessions ->
  exists w',
    run tid (expiredSessions timeout sessions) (clock times ++ rest) w
    = Returned (expired_of timeout sessions times) w' rest
    /\ kv w' = kv w /\ mu w' = mu w /\ chans w' = chans w.
Proof.
  induction sessions as [| [sid last] l IH]; intros times rest w Hlen.
  - destruct times; [| discriminate Hlen]. eexists. split; [reflexivity | auto].
  - destruct times as [| now times]; [discriminate Hlen |].
    injection Hlen as Hlen. cbn [expiredSessions expired_of clock fmap list_fmap app].
    run_step.
    match goal with
    | |- context [run tid _ _ ?w1] =>
      destruct (IH times rest w1 Hlen) as (w' & Hrun & Hkv & Hmu & Hch)
    end.
    rewrite run_bind. unfold clock in Hrun. rewrite Hrun. cbn beta iota.
    rewrite run_ret. exists w'. split; [reflexivity |]. auto.
Qed.

Definition without (sessions : gmap string Z) (expired : list string) : gmap string Z :=
  foldl (fun m s => delete s m) sessions expired.

Lemma store_sessionMap_twice m1 m2 k :
  store FsessionMap m2 (store FsessionMap m1 k) = store FsessionMap m2 k.
Proof. reflexivity. Qed.

Lemma store_sessionMap_same k : store FsessionMap (sessionMap k) k = k.
Proof. destruct k. reflexivity. Qed.

Lemma deleteSessions_run tid expired : forall ins w,
  exists w',
    run tid (deleteSessions expired) ins w = Returned tt w' ins
    /\ kv w' = store FsessionMap (without (sessionMap (kv w)) expired) (kv w)
    /\ mu w' = mu w /\ chans w' = chans w.
Proof.
  induction expired as [| s l IH]; intros ins w.
  - exists w. split; [reflexivity |]. cbn [without foldl].
    rewrite store_sessionMap_same. auto.
  - cbn [deleteSessions]. run_step.
    match goal with
    | |- context [run tid _ _ ?w1] => destruct (IH ins w1) as (w' & Hrun & Hkv & Hmu & Hch)
    end.
    exists w'. split; [exact Hrun |]. rewrite Hkv. cbn [kv mu chans record with_kv map_delete].
    split; [| auto]. reflexivity.
Qed.

Lemma without_lookup expired : forall (sessions : gmap string Z) sid,
  without sessions expired !! sid
  = if decide (sid ∈ expired) then None else sessions !! sid.
Proof.
  induction expired as [| s l IH]; intros sessions sid; cbn [without foldl].
  - destruct (decide (sid ∈ [])) as [H | _]; [inversion H | reflexivity].
  - fold (without (delete s sessions) l). rewrite IH.
    destruct (decide (sid ∈ l)) as [Hin | Hout].
    + rewrite decide_True by (right; exact Hin). reflexivity.
    + destruct (decide (sid = s)) as [-> | Hne].
      * rewrite decide_True by left. apply lookup_delete_eq.
      * rewrite decide_False by (intros H; inversion H; subst; contradiction).
        apply lookup_delete_ne. congruence.
Qed.

Lemma expired_of_bounds timeout lo hi sessions : forall times sid,
  length times = length sessions ->
  Forall (fun t => lo <= t <= hi) times ->
  (sid ∈ expired_of timeout sessions times ->
   exists last, (sid, last) ∈ sessions /\ timeout <= hi - last)
  /\ (forall last, (sid, last) ∈ sessions -> timeout <= lo - last ->
                   sid ∈ expired_of timeout sessions times).
Proof.
  induction sessions as [| [s l] rest IH]; intros times sid Hlen Hb.
  - split; [cbn; intros H; destruct times; inversion H | intros last H; inversion H].
  - destruct times as [| now times]; [discriminate Hlen |].
    injection Hlen as Hlen. inversion Hb as [| ? ? Hnow Hb']; subst.
    destruct (IH times sid Hlen Hb') as [IH1 IH2]. cbn [expired_of]. split.
    + intros Hin. destruct (timeout <=? now - l) eqn:E.
      * apply elem_of_cons in Hin as [-> | Hin].
        -- exists l. split; [left |]. apply Z.leb_le in E. lia.
        -- destruct (IH1 Hin) as (last & H1 & H2). exists last. split; [right |]; assumption.
      * destruct (IH1 Hin) as (last & H1 & H2). exists last. split; [right |]; assumption.
    + intros last Hin Hle. apply elem_of_cons in Hin as [[= -> ->] | Hin].
      * replace (timeout <=? now - l) with true by (symmetry; apply Z.leb_le; lia). left.
      * specialize (IH2 last Hin Hle). destruct (timeout <=? now - l); [right |]; exact IH2.
Qed.

Lemma sweep_run tid times lo hi rest w :
  mu w = None ->
  length times = size (sessionMap (kv w)) ->
  Forall (fun t => lo <= t <= hi) times ->
  let timeout := sessionTimeout (kv w) in
  exists w',
    run tid cleanupSessions (clock times ++ rest) w = Returned tt w' rest
    /\ mu w' = None /\ chans w' = chans w
    /\ kv w' = store FsessionMap (sessionMap (kv w')) (kv w)
    /\ sessionMap (kv w') ⊆ sessionMap (kv w)
    /\ (forall sid last,
           sessionMap (kv w) !! sid = Some last -> hi - last < timeout ->
           sessionMap (kv w') !! sid = Some last)
    /\ (forall sid last,
           sessionMap (kv w) !! sid = Some last -> timeout <= lo - last ->
           sessionMap (kv w') !! sid = None).
Proof.
  intros Hmu Hlen Hb timeout. unfold cleanupSessions.
  run_step. run_step. rewrite Hmu. cbn beta iota. run_step. rewrite run_bind.
  change (load FsessionMap (kv w)) with (sessionMap (kv w)).
  set (sessions := map_to_list (sessionMap (kv w))).
  assert (Hlen' : length times = length sessions)
    by (unfold sessions; rewrite length_map_to_list; exact Hlen).
  change (load FsessionTimeout (kv w)) with timeout.
  match goal with
  | |- context [run tid (expiredSessions ?t ?l) _ ?w1] =>
    destruct (expiredSessions_run tid t l times rest w1 Hlen') as (w2 & -> & Hkv2 & Hmu2 & Hch2)
  end.
  cbn beta iota. rewrite run_bind.
  destruct (deleteSessions_run tid (expired_of timeout sessions times) rest w2)
    as (w3 & -> & Hkv3 & Hmu3 & Hch3).
  cbn beta iota. rewrite run_do. cbn [perform].
  rewrite Hmu3, Hmu2. cbn [mu record with_mu]. eexists. split; [reflexivity |].
  cbn [mu kv chans record with_mu]. rewrite Hkv3, Hch3, Hkv2, Hch2.
  cbn [kv chans record with_mu]. split; [reflexivity |]. split; [reflexivity |].
  split; [reflexivity |].
  change (sessionMap (store FsessionMap ?m _)) with m.
  assert (Hlook : forall sid,
             without (sessionMap (kv w)) (expired_of timeout sessions times) !! sid
             = if decide (sid ∈ expired_of timeout sessions times) then None
               else sessionMap (kv w) !! sid) by (intros sid; apply without_lookup).
  split; [| split].
  - apply map_subseteq_spec. intros sid last. rewrite Hlook.
    destruct (decide _); [discriminate | auto].
  - intros sid last Hs Hidle. rewrite Hlook. destruct (decide _) as [Hin | _]; [| exact Hs].
    destruct (expired_of_bounds timeout lo hi sessions times sid Hlen' Hb) as [H1 _].
    destruct (H1 Hin) as (last' & Hel & Hle).
    apply elem_of_map_to_list in Hel. rewrite Hs in Hel. injection Hel as <-. lia.
  - intros sid last Hs Hidle. rewrite Hlook. destruct (decide _) as [_ | Hout]; [reflexivity |].
    destruct (expired_of_bounds timeout lo hi sessions times sid Hlen' Hb) as [_ H2].
    exfalso. apply Hout, (H2 last); [| exact Hidle].
    apply elem_of_map_to_list. exact Hs.
Qed.

(** X2. One sweep of [cleanupSessions], under a free lock, with one
    reading of the clock per session, all between [lo] and [hi]. The sweep
    returns with the lock free, adds no session and changes no last visit; a
    session idle for less than the timeout at [hi] stays; a session idle
    for the timeout or more at [lo] is removed; nothing else of the server
    changes. *)
Theorem cleanupSessions_sweep tid times lo hi rest w :
  mu w = None ->
  length times = size (sessionMap (kv w)) ->
  Forall (fun t => lo <= t <= hi) times ->
  let timeout := sessionTimeout (kv w) in
  exists w',
    run tid cleanupSessions (clock times ++ rest) w = Returned tt w' rest
    /\ mu w' = None /\ chans w' = chans w
    /\ kv w' = store FsessionMap (sessionMap (kv w')) (kv w)
    /\ sessionMap (kv w') ⊆ sessionMap (kv w)
    /\ (forall sid last,
           sessionMap (kv w) !! sid = Some last -> hi - last < timeout ->
           sessionMap (kv w') !! sid = Some last)
    /\ (forall sid last,
           sessionMap (kv w) !! sid = Some last -> timeout <= lo - last ->
           sessionMap (kv w') !! sid = None).
Proof. exact (sweep_run tid times lo hi rest w). Qed.

Lemma cleanupSessions_sweep_witness :
  exists w',
    run 7 cleanupSessions (clock [5]) race_world = Returned tt w' []
    /\ sessionMap (kv w') !! "1-abc" = Some 0.
Proof.
  destruct (cleanupSessions_sweep 7 [5] 5 5 [] race_world) as (w' & Hrun & _ & _ & _ & _ & Hstay & _).
  - reflexivity.
  - vm_compute. reflexivity.
  - repeat constructor; lia.
  - exists w'. split; [exact Hrun |]. apply Hstay; [vm_compute; reflexivity | vm_compute; reflexivity].
Defined.

(** X3. The lifetime of a session, as the sweep and the handlers see it
    together. After a sweep whose readings of the clock lie between [lo] and
    [hi]: a session last visited the timeout or more before [lo] is gone,
    and a [Get] that names it at the leader is answered [INVALID_SESSION]
    without going to consensus; a session last visited less than the
    timeout before [hi] is still accepted by [checkSession]. *)
Theorem session_lifetime tid times lo hi rest w sid last :
  mu w = None ->
  length times = size (sessionMap (kv w)) ->
  Forall (fun t => lo <= t <= hi) times ->
  sessionMap (kv w) !! sid = Some last ->
  exists w',
    run tid cleanupSessions (clock times ++ rest) w = Returned tt w' rest
    /\ (sessionTimeout (kv w) <= lo - last ->
        forall tid' key term rest',
          rejected tid' (Get (mkGetRequest key sid GET)) (RaftState term true :: rest') rest'
                   w' (mkGetReply EmptyString INVALID_SESSION))
    /\ (hi - last < sessionTimeout (kv w) ->
        forall tid' now rest', exists w'',
          run tid' (checkSession sid) (Clock now :: rest') w' = Returned true w'' rest').
Proof.
  intros Hmu Hlen Hb Hs.
  destruct (sweep_run tid times lo hi rest w Hmu Hlen Hb)
    as (w' & Hrun & Hmu' & _ & _ & _ & Hstay & Hgone).
  exists w'. split; [exact Hrun |]. split.
  - intros Hidle tid' key term rest'.
    destruct (Get_rejections tid' (mkGetRequest key sid GET) w') as (_ & _ & H).
    destruct (H eq_refl Hmu' (Hgone sid last Hs Hidle) term rest') as (w'' & Hget & Hkv & Htr).
    exists w''. split; [exact Hget |]. split; [exact Hkv |].
    cbn [gq_session_id] in Htr.
    rewrite (added_app (session_rejected tid' sid
                          ++ [(tid', Ev RfGetState (term, true))])%list)
      by (rewrite Htr, <- app_assoc; reflexivity).
    reflexivity.
  - intros Hfresh tid' now rest'.
    destruct (checkSession_valid tid' sid last now rest' w' Hmu' (Hstay sid last Hs Hfresh))
      as (w'' & H & _).
    exists w''. exact H.
Qed.

Lemma session_lifetime_witness :
  exists w',
    run 7 cleanupSessions (clock [5]) race_world = Returned tt w' []
    /\ exists w'', run 1 (checkSession "1-abc") [Clock 6] w' = Returned true w'' [].
Proof.
  destruct (session_lifetime 7 [5] 5 5 [] race_world "1-abc" 0) as (w' & Hrun & _ & Hfresh).
  - reflexivity.
  - vm_compute. reflexivity.
  - repeat constructor; lia.
  - vm_compute. reflexivity.
  - exists w'. split; [exact Hrun |]. apply (Hfresh ltac:(vm_compute; reflexivity) 1%nat 6 []).
Defined.

(** ** The handlers, up to the reply *)

(** What a handler leaves as it found it while it submits and waits: all
    of the server but the reply registry. *)
Definition same_data (k k' : KVServer) : Prop :=
  k' = store FreplyChan (replyChan k') k.

Lemma same_data_fields k k' :
  same_data k k' ->
  tab k' = tab k /\ uniqueId k' = uniqueId k /\ commitIndex k' = commitIndex k
  /\ sessionMap k' = sessionMap k /\ password k' = password k.
Proof. intros ->. destruct k. cbn. auto. Qed.

Lemma submit_waits tid op index term rest w :
  mu w = None ->
  slot_ok w index ->
  exists ch w',
    run tid (submit op) (RaftStarted index term true :: rest) w
    = Waiting (await term ch) w' rest
    /\ mu w' = None
    /\ replyChan (kv w') !! index = Some ch
    /\ chans w' !! ch = Some pending_slot
    /\ same_data (kv w) (kv w').
Proof.
  intros Hmu Hslot. unfold slot_ok in Hslot.
  destruct (replyChan (kv w) !! index) as [c |] eqn:Hc.
  - rewrite (submit_displace tid op index term rest c w Hmu Hc Hslot).
    eexists _, _. split; [reflexivity |]. unfold displaced.
    cbn [mu kv chans map_set]. split; [reflexivity |].
    split; [cbn; apply lookup_insert_eq |]. split; [apply lookup_insert_eq |].
    unfold same_data. destruct (kv w). reflexivity.
  - rewrite (submit_free tid op index term rest w Hmu Hc).
    eexists _, _. split; [reflexivity |]. unfold installed.
    cbn [mu kv chans map_set]. split; [reflexivity |].
    split; [cbn; apply lookup_insert_eq |]. split; [apply lookup_insert_eq |].
    unfold same_data. destruct (kv w). reflexivity.
Qed.

Lemma await_returns tid term ch res buf cap closed ins w :
  chans w !! ch = Some (mkChan cap (res :: buf) closed) ->
  run tid (await term ch) ins w
  = Returned (submit_result term res)
             (record tid (Ev (Recv ch) res)
                (with_chans w (<[ch := mkChan cap buf closed]> (chans w)))) ins.
Proof.
  intros Hch. unfold await, submit_result. run_step. rewrite Hch. cbn [ch_buf ch_cap ch_closed].
  destruct (Term res =? term); reflexivity.
Qed.

(** The reply of [Get] once its command has come back. *)
Definition Get_answer (term : Z) (res : ApplyResult) (t : gmap string string)
           (key : string) : GetReply :=
  if Term res =? term then
    match t !! key with
    | None => mkGetReply EmptyString NO_KEY
    | Some v => mkGetReply v OK
    end
  else mkGetReply EmptyString WRONG_LEADER.

(** X4. A [Get] with a known session at the leader: it touches the
    session, submits its command and waits, the lock free, on the slot at
    the index consensus gave, having changed nothing of [tab]. When a result
    is on the slot it replies: with the term that [Start] gave, the value of
    the key in [tab] as it then is and [OK], or the empty value and [NO_KEY]
    when the key is absent; with another term, [WRONG_LEADER] and the empty
    value. Replying changes nothing of the server. *)
Theorem Get_replies tid args t now index term rest last w :
  gq_request_type args = GET ->
  mu w = None ->
  sessionMap (kv w) !! gq_session_id args = Some last ->
  slot_ok w index ->
  exists ch p w',
    run tid (Get args)
        (RaftState t true :: Clock now :: RaftStarted index term true :: rest) w
    = Waiting p w' rest
    /\ mu w' = None
    /\ replyChan (kv w') !! index = Some ch
    /\ tab (kv w') = tab (kv w)
    /\ sessionMap (kv w') = <[gq_session_id args := now]> (sessionMap (kv w))
    /\ forall res buf cap closed ins w2,
        chans w2 !! ch = Some (mkChan cap (res :: buf) closed) ->
        exists w3,
          run tid p ins w2
          = Returned (Get_answer term res (tab (kv w2)) (gq_key args)) w3 ins
          /\ kv w3 = kv w2 /\ mu w3 = mu w2.
Proof.
  intros Htype Hmu Hs Hslot. unfold Get. rewrite Htype. cbn [RequestType_eqb negb].
  run_step. cbn [snd negb]. rewrite run_bind.
  match goal with
  | |- context [run tid (checkSession _) _ ?w1] =>
    destruct (checkSession_valid tid (gq_session_id args) last now
                (RaftStarted index term true :: rest) w1 Hmu Hs)
      as (w2 & -> & Hkv2 & Hmu2 & Hch2)
  end.
  cbn [negb]. rewrite run_bind.
  assert (Hslot2 : slot_ok w2 index).
  { unfold slot_ok in *. rewrite Hkv2, Hch2. cbn [kv chans record].
    destruct (kv w). exact Hslot. }
  destruct (submit_waits tid (mkOp GET (gq_key args) EmptyString EmptyString)
              index term rest w2 Hmu2 Hslot2) as (ch & w3 & -> & Hmu3 & Hreg & _ & Hsame).
  eexists ch, _, w3. split; [reflexivity |]. split; [exact Hmu3 |]. split; [exact Hreg |].
  apply same_data_fields in Hsame as (Ht & _ & _ & Hsm & _).
  rewrite Ht, Hsm, Hkv2. cbn [kv record].
  split; [destruct (kv w); reflexivity |]. split; [destruct (kv w); reflexivity |].
  intros res buf cap closed ins w4 Hch. rewrite run_bind.
  rewrite (await_returns tid term ch res buf cap closed ins w4 Hch).
  unfold submit_result, Get_answer. destruct (Term res =? term); cbn [snd].
  - run_step. cbn [map_get]. destruct (tab (kv w4) !! gq_key args);
      rewrite run_ret; eexists; (split; [reflexivity |]); split; reflexivity.
  - rewrite run_ret. eexists. split; [reflexivity |]. split; reflexivity.
Qed.

Lemma Get_replies_witness :
  exists ch p w',
    run 1 (Get (mkGetRequest "k" "1-abc" GET))
        [RaftState 1 true; Clock 5; RaftStarted 1 1 true] race_world
    = Waiting p w' []
    /\ replyChan (kv w') !! 1 = Some ch
    /\ tab (kv w') = tab (kv race_world).
Proof.
  destruct (Get_replies 1 (mkGetRequest "k" "1-abc" GET) 1 5 1 1 [] 0 race_world)
    as (ch & p & w' & Hrun & _ & Hreg & Htab & _).
  - reflexivity.
  - reflexivity.
  - vm_compute. reflexivity.
  - exact I.
  - exists ch, p, w'. auto.
Defined.



(** *** What the handlers never write *)

(** An action that writes none of [tab], [uniqueId] and [commitIndex]. *)
Definition leaves_state_machine {A} (a : act A) : Prop :=
  match a with
  | Store f _ =>
    match f with Ftab | FuniqueId | FcommitIndex => False | _ => True end
  | MapSet m _ _ => match m with Mtab => False | _ => True end
  | MapDelete m _ => match m with Mtab => False | _ => True end
  | _ => True
  end.

(** A program none of whose actions, on any of its paths, writes the state
    machine. *)
Inductive reads_only {R} : prog R -> Prop :=
| reads_only_ret r : reads_only (Ret r)
| reads_only_panic msg : reads_only (Panic msg)
| reads_only_do {A} (a : act A) k :
    leaves_state_machine a -> (forall x, reads_only (k x)) -> reads_only (Do a k).

Lemma reads_only_bind {A B} (p : prog A) (f : A -> prog B) :
  reads_only p -> (forall r, reads_only (f r)) -> reads_only (p ≫= f).
Proof.
  intros Hp Hf. rewrite bind_unfold.
  induction Hp as [r | msg | X a k Ha Hk IH]; cbn [bind];
    [apply Hf | constructor | constructor; assumption].
Qed.

Lemma reads_only_action {A} (a : act A) : leaves_state_machine a -> reads_only (do a).
Proof. intros Ha. constructor; [exact Ha | intros x; constructor]. Qed.

Definition state_machine (w : World) : gmap string string * Z * Z :=
  (tab (kv w), uniqueId (kv w), commitIndex (kv w)).

Lemma leaves_state_machine_perform {A} tid (a : act A) ins w w' r rest :
  leaves_state_machine a ->
  perform tid a ins w = Done w' r rest ->
  state_machine w' = state_machine w.
Proof.
  unfold state_machine. intros Ha H.
  destruct a; try destruct m; try destruct f; try contradiction; simpl in H;
    repeat match type of H with
           | context [match ?x with _ => _ end] => destruct x eqn:?; try discriminate H
           end;
    injection H as <- _ _; reflexivity.
Qed.

(** The program never changes the state machine, however far it gets. *)
Definition quiet {R} (p : prog R) : Prop :=
  forall tid ins w, state_machine (world_of (run tid p ins w)) = state_machine w.

Lemma reads_only_run {R} (p : prog R) :
  reads_only p ->
  forall tid ins w,
    state_machine (world_of (run tid p ins w)) = state_machine w
    /\ match run tid p ins w with
       | Waiting p' _ _ | NoInput p' _ => reads_only p'
       | _ => True
       end.
Proof.
  induction 1 as [r | msg | X a k Ha Hk IH]; intros tid ins w; cbn [run world_of].
  - auto.
  - auto.
  - destruct (perform tid a ins w) as [w' r rest | | msg |] eqn:E; cbn [world_of].
    + destruct (IH r tid rest (record tid (Ev a r) w')) as [Hs Hp].
      split; [| exact Hp]. rewrite Hs.
      apply (leaves_state_machine_perform tid a ins w w' r rest Ha E).
    + split; [reflexivity | constructor; assumption].
    + auto.
    + split; [reflexivity | constructor; assumption].
Qed.

Ltac reads_only_step :=
  lazymatch goal with
  | |- reads_only (mret _) => constructor
  | |- reads_only (Panic _) => constructor
  | |- reads_only (_ ≫= _) => apply reads_only_bind; [ | intros ? ]
  | |- reads_only (do ?a) => apply reads_only_action; exact I
  | |- reads_only (match ?x with _ => _ end) => destruct x
  | |- reads_only (let '(_, _) := ?x in _) => destruct x
  end.

Ltac reads_only_tac := repeat reads_only_step.

Lemma submit_reads_only op : reads_only (submit op).
Proof. unfold submit. reads_only_tac. Qed.

Lemma checkSession_reads_only sessionId : reads_only (checkSession sessionId).
Proof. unfold checkSession. reads_only_tac. Qed.

Lemma OpenSession_reads_only request : reads_only (OpenSession request).
Proof. unfold OpenSession. pose proof submit_reads_only. reads_only_tac; auto. Qed.

Lemma Get_reads_only args : reads_only (Get args).
Proof.
  unfold Get. pose proof submit_reads_only. pose proof checkSession_reads_only.
  reads_only_tac; auto.
Qed.

Lemma Update_reads_only args : reads_only (Update args).
Proof.
  unfold Update. pose proof submit_reads_only. pose proof checkSession_reads_only.
  reads_only_tac; auto.
Qed.

Lemma expiredSessions_reads_only timeout sessions :
  reads_only (expiredSessions timeout sessions).
Proof.
  induction sessions as [| [s l] rest IH]; cbn [expiredSessions]; [constructor |].
  reads_only_tac. exact IH.
Qed.

Lemma deleteSessions_reads_only expired : reads_only (deleteSessions expired).
Proof.
  induction expired as [| s rest IH]; cbn [deleteSessions]; [constructor |].
  reads_only_tac. exact IH.
Qed.

Lemma cleanupSessions_reads_only : reads_only cleanupSessions.
Proof.
  unfold cleanupSessions. pose proof expiredSessions_reads_only.
  pose proof deleteSessions_reads_only. reads_only_tac; auto.
Qed.

(** A program that is quiet, and whose remainder is quiet whenever it
    has to wait. *)
Definition always_quiet {R} (p : prog R) : Prop :=
  quiet p
  /\ forall tid ins w p' w' rest,
      run tid p ins w = Waiting p' w' rest -> quiet p'.

Lemma reads_only_always_quiet {R} (p : prog R) : reads_only p -> always_quiet p.
Proof.
  intros Hp. split.
  - intros tid ins w. apply (reads_only_run p Hp).
  - intros tid ins w p' w' rest Hrun.
    destruct (reads_only_run p Hp tid ins w) as [_ Hrest]. rewrite Hrun in Hrest.
    intros tid2 ins2 w2. apply (reads_only_run p' Hrest).
Qed.

(** X6. No request handler and no sweep of the reaper ever writes [tab],
    [uniqueId] or [commitIndex]: whatever the request, the inputs and the
    state, the three are the same wherever the run of [OpenSession], [Get],
    [Update] or [cleanupSessions] gets to, and the same again through what
    is left of the handler after it has waited for its result. Only the
    apply pump changes the state machine. *)
Theorem handlers_leave_state_machine :
  (forall request, always_quiet (OpenSession request))
  /\ (forall args, always_quiet (Get args))
  /\ (forall args, always_quiet (Update args))
  /\ always_quiet cleanupSessions.
Proof.
  split; [| split; [| split]].
  - intros request. apply reads_only_always_quiet, OpenSession_reads_only.
  - intros args. apply reads_only_always_quiet, Get_reads_only.
  - intros args. apply reads_only_always_quiet, Update_reads_only.
  - apply reads_only_always_quiet, cleanupSessions_reads_only.
Qed.

(** ** The apply pump, message by message *)



Definition after (op : Op) (ins : list input) : list input :=
  match OpRequestType op with
  | OPEN_SESSION => tail ins
  | _ => ins
  end.









(** *** The state machine as a fold *)







(** ** Snapshots *)













(** *** Restoring *)

(** X11. [recoverFrom] installs all three fields or none. On any blob,
    run from any state, it returns without waiting; and either it returns
    an error and the world is as it was, or the blob is empty and the world
    is as it was, or the three fields are the three values decoded and the
    rest of the server (sessions, registry, settings), the lock and the
    channels are as they were. *)
Theorem recoverFrom_all_or_nothing tid snapshot ins w :
  exists r w',
    run tid (recoverFrom snapshot) ins w = Returned r w' ins
    /\ ((exists e, r = Some e) /\ w' = w
        \/ r = None /\ snapshot = EmptyString /\ w' = w
        \/ r = None /\ snapshot <> EmptyString
           /\ (exists uid ci t r1 r2 r3,
                  json.Decode_int 0 snapshot = Ok (uid, r1)
                  /\ json.Decode_int 0 r1 = Ok (ci, r2)
                  /\ json.Decode_map r2 = Ok (t, r3)
                  /\ kv w' = restored uid ci t (kv w))
           /\ mu w' = mu w /\ chans w' = chans w).
Proof.
  destruct snapshot as [| c s].
  - exists None, w. split; [reflexivity |]. right. left. auto.
  - destruct (json.Decode_int 0 (String c s)) as [[uid r1] | e1] eqn:E1.
    + destruct (json.Decode_int 0 r1) as [[ci r2] | e2] eqn:E2.
      * destruct (json.Decode_map r2) as [[t r3] | e3] eqn:E3.
        -- destruct (recoverFrom_installs tid ins w (String c s) uid r1 ci r2 t r3)
             as (w' & Hrun & Hkv & Hmu & Hch); [simpl; lia | assumption..|].
           exists None, w'. split; [exact Hrun |]. right. right.
           split; [reflexivity |]. split; [discriminate |].
           split; [exists uid, ci, t, r1, r2, r3; auto | auto].
        -- eexists (Some _), w. unfold recoverFrom. cbn [String.length Nat.ltb Nat.leb].
           rewrite E1, E2, E3. split; [apply run_ret | left; eauto].
      * eexists (Some _), w. unfold recoverFrom. cbn [String.length Nat.ltb Nat.leb].
        rewrite E1, E2. split; [apply run_ret | left; eauto].
    + eexists (Some _), w. unfold recoverFrom. cbn [String.length Nat.ltb Nat.leb].
      rewrite E1. split; [apply run_ret | left; eauto].
Qed.

Lemma snapshot_of_then k rest :
  GoInt.in_range (uniqueId k) ->
  GoInt.in_range (commitIndex k) ->
  valid_map (tab k) ->
  exists r1 r2,
    json.Decode_int 0 (snapshot_of k +:+ rest) = Ok (uniqueId k, r1)
    /\ json.Decode_int 0 r1 = Ok (commitIndex k, r2)
    /\ json.Decode_map r2 = Ok (tab k, json.newline +:+ rest).
Proof.
  intros Hu Hc Ht. unfold snapshot_of. rewrite !string_app_assoc.
  eexists _, _. split; [apply (Decode_int_first 0 _ _ Hu) |].
  split; [apply (Decode_int_Encode 0 json.newline _ _ Hc eq_refl) |].
  apply Decode_map_Encode; [reflexivity | exact Ht].
Qed.

(** X12. [recoverFrom] reads three values and looks no further. A blob
    that begins with the encoding of a state (integers of their Go types,
    valid UTF-8 keys and values) is accepted whatever bytes follow it, and
    the state installed is that of the encoding. *)
Theorem recoverFrom_ignores_what_follows tid ins w k junk :
  GoInt.in_range (uniqueId k) ->
  GoInt.in_range (commitIndex k) ->
  valid_tab (tab k) = true ->
  exists w',
    run tid (recoverFrom (snapshot_of k +:+ junk)) ins w = Returned None w' ins
    /\ kv w' = restored (uniqueId k) (commitIndex k) (tab k) (kv w).
Proof.
  intros Hu Hc Ht.
  destruct (snapshot_of_then k junk Hu Hc (valid_tab_spec _ Ht)) as (r1 & r2 & H1 & H2 & H3).
  assert (Hlen : (1 <= String.length (snapshot_of k +:+ junk))%nat).
  { unfold snapshot_of. rewrite !string_app_length.
    pose proof (FormatInt_length _ Hu). lia. }
  destruct (recoverFrom_installs tid ins w _ _ _ _ _ _ _ Hlen H1 H2 H3)
    as (w' & Hrun & Hkv & _).
  exists w'. split; [exact Hrun | exact Hkv].
Qed.

Lemma recoverFrom_ignores_what_follows_witness :
  exists w',
    run 0 (recoverFrom (snapshot_of snapshot_state +:+ "}garbage")) [] (emptyWorld (kv_at 0))
    = Returned None w' []
    /\ kv w' = restored 7 42 sample_tab (kv_at 0).
Proof.
  apply (recoverFrom_ignores_what_follows 0 [] (emptyWorld (kv_at 0)) snapshot_state "}garbage").
  - vm_compute. split; discriminate.
  - vm_compute. split; discriminate.
  - vm_compute. reflexivity.
Defined.

(** X13. A snapshot message on the apply stream, carrying the encoding
    of a state, under a free lock: the pump installs the three fields of
    that state, keeps the sessions, the reply registry and the settings,
    and returns with the lock free. The [commitIndex] installed is the
    blob's even when the message gives another index; the pump then only
    prints a warning. *)
Theorem apply_snapshot_message tid msg ins w k :
  mu w = None ->
  CommandValid msg = false ->
  SnapshotValid msg = true ->
  Snapshot msg = snapshot_of k ->
  GoInt.in_range (uniqueId k) ->
  GoInt.in_range (commitIndex k) ->
  valid_tab (tab k) = true ->
  exists w',
    run tid (apply_msg msg) ins w = Returned tt w' ins
    /\ kv w' = restored (uniqueId k) (commitIndex k) (tab k) (kv w)
    /\ mu w' = None /\ chans w' = chans w
    /\ logs w' = (if commitIndex k =? SnapshotIndex msg then logs w
                  else ("warning: commitIndex in snapshot is "
                          +:+ strconv.FormatInt (commitIndex k)
                          +:+ " but raft snapshot index is "
                          +:+ strconv.FormatInt (SnapshotIndex msg)) :: logs w).
Proof.
  intros Hmu Hcmd Hsnap Hblob Hu Hc Ht. unfold apply_msg.
  rewrite Hcmd, Hsnap, Hblob. run_step. rewrite Hmu. cbn beta iota. rewrite run_bind.
  assert (Hk : keeps (fun w0 => logs w0 = logs w) (recoverFrom (snapshot_of k)))
    by (unfold recoverFrom; keeps_tac).
  match goal with
  | |- context [run tid (recoverFrom _) ?i ?w1] =>
    destruct (recoverFrom_snapshot_of tid i w1 k Hu Hc (valid_tab_spec _ Ht))
      as (w2 & Hrec & Hkv & Hm2 & Hc2);
      pose proof (keeps_returned _ _ tid i w1 _ _ _ Hk eq_refl Hrec) as Hl2
  end.
  rewrite Hrec. cbn beta iota. run_step. rewrite Hkv. cbn [load commitIndex restored store].
  rewrite Z.eqb_sym, Z.eqb_sym.
  destruct (commitIndex k =? SnapshotIndex msg); cbn [negb].
  - rewrite run_bind, run_ret, run_do. cbn [perform mu record]. rewrite Hm2.
    cbn [mu record with_mu]. eexists. split; [reflexivity |].
    cbn [kv mu chans logs record with_mu]. rewrite Hkv, Hc2, Hl2.
    split; [reflexivity |]. split; [reflexivity |]. split; reflexivity.
  - rewrite run_bind, run_do. cbn [perform]. rewrite run_do. cbn [perform mu record with_logs].
    rewrite Hm2. cbn [mu record with_mu]. eexists. split; [reflexivity |].
    cbn [kv mu chans logs record with_mu with_logs]. rewrite Hkv, Hc2, Hl2.
    split; [reflexivity |]. split; [reflexivity |]. split; reflexivity.
Qed.

Definition snapshot_msg (snapshot : string) (index : Z) : ApplyMsg :=
  mkApplyMsg false (get_op EmptyString) 0 0 true snapshot index.

Lemma apply_snapshot_message_witness :
  exists w',
    run 0 (apply_msg (snapshot_msg (snapshot_of snapshot_state) 40)) [] race_world
    = Returned tt w' []
    /\ kv w' = restored 7 42 sample_tab (kv race_world)
    /\ mu w' = None.
Proof.
  destruct (apply_snapshot_message 0 (snapshot_msg (snapshot_of snapshot_state) 40) []
              race_world snapshot_state) as (w' & Hrun & Hkv & Hmu & _).
  - reflexivity.
  - reflexivity.
  - reflexivity.
  - reflexivity.
  - vm_compute. split; discriminate.
  - vm_compute. split; discriminate.
  - vm_compute. reflexivity.
  - exists w'. split; [exact Hrun |]. split; [exact Hkv | exact Hmu].
Defined.

(** *** When snapshots are made *)









(** ** Start-up *)

(** The state before the configuration is applied: restored from the
    stored snapshot, or fresh. *)
Definition recovered (me : Z) (snapshot : string) : result World :=
  let kv0 := mkKVServer ∅ ∅ 0 0 ∅ me EmptyString 0 0 false 0 in
  if (0 <? String.length snapshot)%nat then
    match run 0 (recoverFrom snapshot) [] (emptyWorld kv0) with
    | Returned None w _ => Ok w
    | Returned (Some e) _ _ => Err ("restore KVServer snapshot: " +:+ e)
    | Crashed e _ => Err e
    | _ => Err "restore KVServer snapshot"
    end
  else Ok (emptyWorld (store FcommitIndex 0 (store Ftab ∅ (store FuniqueId 1 kv0)))).

(** A successful start, taken apart. *)
Lemma StartKVServer_Ok env st :
  StartKVServer env = Ok st ->
  exists conf snapshot w,
    env_conf env = Ok conf
    /\ 0 <= Port (KVServerSection conf)
    /\ env_storage env = Ok snapshot
    /\ recovered (Me conf) snapshot = Ok w
    /\ st_port st = (if Port (KVServerSection conf) =? 0 then DefaultServerPort
                     else Port (KVServerSection conf))
    /\ env_listen env (st_port st) = Ok tt
    /\ env_raft env = Ok tt
    /\ mu (st_world st) = None /\ chans (st_world st) = ∅
    /\ replyChan (kv (st_world st)) = replyChan (kv w)
    /\ sessionMap (kv (st_world st)) = sessionMap (kv w)
    /\ uniqueId (kv (st_world st)) = uniqueId (kv w)
    /\ commitIndex (kv (st_world st)) = commitIndex (kv w)
    /\ tab (kv (st_world st)) = tab (kv w)
    /\ password (kv (st_world st)) = Password (KVServerSection conf)
    /\ (maxRaftState (kv (st_world st)), nextSnapshotIndex (kv (st_world st)))
       = (if 0 <? MaxRaftState (KVServerSection conf)
          then (MaxRaftState (KVServerSection conf),
                GoInt.add (commitIndex (kv w)) (MaxRaftState (KVServerSection conf)))
          else (-1, -1)).
Proof.
  unfold StartKVServer. intros H.
  destruct (env_conf env) as [conf | e]; [| discriminate].
  destruct (Port (KVServerSection conf) <? 0) eqn:Hport; [discriminate |].
  destruct (env_storage env) as [snapshot | e]; [| discriminate].
  fold (recovered (Me conf) snapshot) in H.
  destruct (recovered (Me conf) snapshot) as [w | e] eqn:Hw; [| discriminate].
  exists conf, snapshot, w. apply Z.ltb_ge in Hport.
  destruct (0 <? MaxRaftState (KVServerSection conf));
    destruct (env_listen env _) as [[] | e] eqn:Hl; try discriminate;
    destruct (env_raft env) as [[] | e]; try discriminate;
    injection H as <-; cbn; rewrite ?Hl; auto 20.
Qed.

Lemma recovered_fresh me : 
  recovered me EmptyString
  = Ok (emptyWorld (mkKVServer ∅ ∅ 1 0 ∅ me EmptyString 0 0 false 0)).
Proof. reflexivity. Qed.

Lemma recovered_sessions me snapshot w :
  recovered me snapshot = Ok w ->
  sessionMap (kv w) = ∅ /\ replyChan (kv w) = ∅.
Proof.
  unfold recovered. cbv zeta. destruct (0 <? String.length snapshot)%nat.
  - set (kv0 := mkKVServer ∅ ∅ 0 0 ∅ me EmptyString 0 0 false 0).
    destruct (run 0 (recoverFrom snapshot) [] (emptyWorld kv0)) as [r w1 ins1 | | |] eqn:Hr;
      try discriminate.
    destruct r; [discriminate |]. intros [= <-].
    assert (Hk : keeps (fun w0 => sessionMap (kv w0) = ∅ /\ replyChan (kv w0) = ∅)
                       (recoverFrom snapshot)) by (unfold recoverFrom; keeps_tac).
    apply (keeps_returned _ _ 0%nat [] (emptyWorld kv0) _ _ _ Hk (conj eq_refl eq_refl) Hr).
  - intros [= <-]. split; reflexivity.
Qed.

(** X16. What a successful start-up needed and what it fixed. If
    [StartKVServer] succeeds, the configuration was read, the port in it
    is not negative, the storage opened, the listener was started on the
    port of the configuration, or on 8080 when that is [0], and consensus
    started; and the stored snapshot, if there is one, was not one that
    [recoverFrom] rejects. *)
Theorem StartKVServer_requirements env st :
  StartKVServer env = Ok st ->
  exists conf snapshot,
    env_conf env = Ok conf
    /\ 0 <= Port (KVServerSection conf)
    /\ env_storage env = Ok snapshot
    /\ ~ rejects snapshot
    /\ st_port st = (if Port (KVServerSection conf) =? 0 then 8080
                     else Port (KVServerSection conf))
    /\ env_listen env (st_port st) = Ok tt
    /\ env_raft env = Ok tt.
Proof.
  intros H.
  destruct (StartKVServer_Ok env st H)
    as (conf & snapshot & w & Hc & Hp & Hs & Hw & Hport & Hl & Hr & _).
  exists conf, snapshot. repeat (split; [assumption |]).
  split; [| auto]. intros Hrej. unfold recovered in Hw. cbv zeta in Hw.
  destruct (0 <? String.length snapshot)%nat eqn:Hlen.
  - match type of Hw with
    | context [run 0 (recoverFrom snapshot) [] ?w0] =>
      destruct (Hrej 0%nat [] w0) as (e & Hrun); rewrite Hrun in Hw
    end.
    discriminate.
  - destruct snapshot; [| discriminate Hlen].
    destruct (Hrej 0%nat [] (emptyWorld (kv_at 0))) as (e & Hrun). discriminate.
Qed.

Lemma StartKVServer_requirements_witness :
  exists st,
    StartKVServer (sample_env 0 100 3600 EmptyString) = Ok st /\ st_port st = 8080.
Proof.
  destruct (StartKVServer (sample_env 0 100 3600 EmptyString)) as [st | e] eqn:E;
    [| vm_compute in E; discriminate].
  destruct (StartKVServer_requirements _ st E)
    as (conf & snapshot & Hc & _ & _ & _ & Hport & _).
  exists st. split; [reflexivity |]. rewrite Hport.
  cbn in Hc. injection Hc as <-. reflexivity.
Defined.

Lemma recovered_snapshot_of me k w :
  GoInt.in_range (uniqueId k) ->
  GoInt.in_range (commitIndex k) ->
  valid_map (tab k) ->
  recovered me (snapshot_of k) = Ok w ->
  uniqueId (kv w) = uniqueId k /\ commitIndex (kv w) = commitIndex k /\ tab (kv w) = tab k.
Proof.
  intros Hu Hc Ht. unfold recovered. cbv zeta.
  set (kv0 := mkKVServer ∅ ∅ 0 0 ∅ me EmptyString 0 0 false 0).
  destruct (recoverFrom_snapshot_of 0 [] (emptyWorld kv0) k Hu Hc Ht) as (w' & -> & Hkv & _).
  destruct (0 <? String.length (snapshot_of k))%nat eqn:Hlen.
  - intros [= <-]. rewrite Hkv. auto.
  - exfalso. apply Nat.ltb_ge in Hlen. unfold snapshot_of in Hlen.
    rewrite string_app_length in Hlen. pose proof (FormatInt_length _ Hu). lia.
Qed.

(** X17. Restart from a snapshot. When [StartKVServer] succeeds on a
    storage that holds the encoding of a state (integers of their Go types,
    valid UTF-8 keys and values), the server starts with the [uniqueId],
    the [commitIndex] and the [tab] of that state, the lock free, and, when
    snapshots are enabled, the first threshold [MaxRaftState] past the
    restored [commitIndex]. *)
Theorem StartKVServer_restart env conf st k :
  env_conf env = Ok conf ->
  StartKVServer env = Ok st ->
  env_storage env = Ok (snapshot_of k) ->
  GoInt.in_range (uniqueId k) ->
  GoInt.in_range (commitIndex k) ->
  valid_tab (tab k) = true ->
  let w := st_world st in
  uniqueId (kv w) = uniqueId k
  /\ commitIndex (kv w) = commitIndex k
  /\ tab (kv w) = tab k
  /\ mu w = None
  /\ (0 < MaxRaftState (KVServerSection conf) ->
      nextSnapshotIndex (kv w)
      = GoInt.add (commitIndex k) (MaxRaftState (KVServerSection conf))).
Proof.
  intros Hconf H Hs Hu Hc Ht w.
  destruct (StartKVServer_Ok env st H)
    as (conf' & snapshot & w0 & Hc' & _ & Hs' & Hw & _ & _ & _ & Hmu & _ & _ & _
        & Huid & Hci & Htab & _ & Hset).
  rewrite Hconf in Hc'. injection Hc' as <-. rewrite Hs in Hs'. injection Hs' as <-.
  destruct (recovered_snapshot_of (Me conf) k w0 Hu Hc (valid_tab_spec _ Ht) Hw)
    as (Hu0 & Hc0 & Ht0).
  subst w. rewrite Huid, Hci, Htab, Hu0, Hc0, Ht0.
  repeat (split; [reflexivity || assumption |]).
  intros Hpos. apply Z.ltb_lt in Hpos. rewrite Hpos in Hset.
  injection Hset as _ Hn. rewrite Hn, Hc0. reflexivity.
Qed.

Definition restart_conf : KVServiceConf :=
  mkKVServiceConf 1 (mkKVServerConf "123456" 8080 100 3600 false).

Lemma StartKVServer_restart_witness :
  exists st,
    StartKVServer (sample_env 8080 100 3600 (snapshot_of snapshot_state)) = Ok st
    /\ commitIndex (kv (st_world st)) = 42
    /\ tab (kv (st_world st)) = sample_tab.
Proof.
  destruct (StartKVServer (sample_env 8080 100 3600 (snapshot_of snapshot_state)))
    as [st | e] eqn:E; [| vm_compute in E; discriminate].
  destruct (StartKVServer_restart
              (sample_env 8080 100 3600 (snapshot_of snapshot_state)) restart_conf
              st snapshot_state eq_refl E) as (_ & Hci & Ht & _).
  - reflexivity.
  - vm_compute. split; discriminate.
  - vm_compute. split; discriminate.
  - vm_compute. reflexivity.
  - exists st. split; [reflexivity |]. split; [exact Hci | exact Ht].
Defined.

(** X18. Sessions do not survive a restart. Whatever the storage holds,
    a server that has just started has no session and no waiter: every
    [Get] and every [Update] of a valid type sent to it as leader, whatever
    session it names, is answered [INVALID_SESSION] and does not reach
    consensus. *)
Theorem StartKVServer_forgets_sessions env st :
  StartKVServer env = Ok st ->
  sessionMap (kv (st_world st)) = ∅
  /\ replyChan (kv (st_world st)) = ∅
  /\ (forall tid g term rest,
         gq_request_type g = GET ->
         rejected tid (Get g) (RaftState term true :: rest) rest (st_world st)
                  (mkGetReply EmptyString INVALID_SESSION))
  /\ (forall tid u term rest,
         update_type (uq_request_type u) = true ->
         rejected tid (Update u) (RaftState term true :: rest) rest (st_world st)
                  (mkUpdateReply INVALID_SESSION)).
Proof.
  intros H.
  destruct (StartKVServer_Ok env st H)
    as (conf & snapshot & w0 & _ & _ & _ & Hw & _ & _ & _ & Hmu & _ & Hreg & Hsess & _).
  destruct (recovered_sessions _ _ _ Hw) as [Hs0 Hr0].
  rewrite Hs0 in Hsess. rewrite Hr0 in Hreg.
  split; [exact Hsess |]. split; [exact Hreg |]. split.
  - intros tid g term rest Ht.
    destruct (Get_rejections tid g (st_world st)) as (_ & _ & G).
    destruct (G Ht Hmu ltac:(rewrite Hsess; apply lookup_empty) term rest)
      as (w' & Hr & Hk & Htr).
    exists w'. split; [exact Hr |]. split; [exact Hk |].
    rewrite (added_app (session_rejected tid (gq_session_id g)
                          ++ [(tid, Ev RfGetState (term, true))])%list)
      by (rewrite Htr, <- app_assoc; reflexivity).
    reflexivity.
  - intros tid u term rest Ht.
    destruct (Update_rejections tid u (st_world st)) as (_ & _ & U).
    destruct (U Ht Hmu ltac:(rewrite Hsess; apply lookup_empty) term rest)
      as (w' & Hr & Hk & Htr).
    exists w'. split; [exact Hr |]. split; [exact Hk |].
    rewrite (added_app (session_rejected tid (uq_session_id u)
                          ++ [(tid, Ev RfGetState (term, true))])%list)
      by (rewrite Htr, <- app_assoc; reflexivity).
    reflexivity.
Qed.

Lemma StartKVServer_forgets_sessions_witness :
  exists st,
    StartKVServer (sample_env 8080 100 3600 (snapshot_of snapshot_state)) = Ok st
    /\ sessionMap (kv (st_world st)) = ∅.
Proof.
  destruct (StartKVServer (sample_env 8080 100 3600 (snapshot_of snapshot_state)))
    as [st | e] eqn:E; [| vm_compute in E; discriminate].
  destruct (StartKVServer_forgets_sessions _ st E) as (Hs & _).
  exists st. split; [reflexivity | exact Hs].
Defined.



(** ** Opening a session *)


(** X20. What [OpenSession] refuses, and when. A request of another
    type is answered [INVALID_REQUEST_TYPE] before anything is read; a
    request with a password other than the configured one is answered
    [INVALID_PASSWORD] before a nonce is drawn; neither is submitted to
    consensus. A request with the right password is given a nonce and
    submitted without asking who leads, and at a node that does not lead it
    is answered [WRONG_LEADER]. In all three the session identifier of the
    reply is empty and the server is unchanged. *)
Theorem OpenSession_refusals tid request w :
  (osq_request_type request <> OPEN_SESSION ->
   forall ins,
     rejected tid (OpenSession request) ins ins w
              (mkOpenSessionReply EmptyString INVALID_REQUEST_TYPE))
  /\ (osq_request_type request = OPEN_SESSION ->
      osq_password request <> password (kv w) ->
      forall ins,
        rejected tid (OpenSession request) ins ins w
                 (mkOpenSessionReply EmptyString INVALID_PASSWORD))
  /\ (osq_request_type request = OPEN_SESSION ->
      osq_password request = password (kv w) ->
      forall uuid index term rest,
      exists w',
        run tid (OpenSession request) (Fresh uuid :: RaftStarted index term false :: rest) w
        = Returned (mkOpenSessionReply EmptyString WRONG_LEADER) w' rest
        /\ kv w' = kv w
        /\ In (tid, Ev (RfStart (mkOp OPEN_SESSION EmptyString EmptyString uuid))
                       (index, term, false)) (trace w')).
Proof.
  unfold rejected. split; [| split].
  - intros Ht ins. unfold OpenSession.
    destruct (osq_request_type request); try congruence; cbn [RequestType_eqb negb];
      rewrite run_ret; exists w; (split; [reflexivity |]); (split; [reflexivity |]);
      rewrite (added_app [] w w) by reflexivity; reflexivity.
  - intros Ht Hpw ins. unfold OpenSession. rewrite Ht. cbn [RequestType_eqb negb].
    run_step. cbn [load].
    replace (String.eqb (osq_password request) (password (kv w))) with false
      by (symmetry; apply String.eqb_neq; exact Hpw).
    cbn [negb]. rewrite run_ret. eexists. split; [reflexivity |]. split; [reflexivity |].
    rewrite (added_app [(tid, Ev (Load Fpassword) (password (kv w)))]) by reflexivity.
    reflexivity.
  - intros Ht Hpw uuid index term rest. unfold OpenSession. rewrite Ht.
    cbn [RequestType_eqb negb]. run_step. cbn [load].
    rewrite Hpw, String.eqb_refl. cbn [negb]. run_step. rewrite run_bind.
    rewrite submit_not_leader. cbn beta iota. rewrite run_ret.
    eexists. split; [reflexivity |]. cbn [kv trace record]. split; [reflexivity |].
    left. reflexivity.
Qed.




Lemma OpenSession_refusals_witness :
  rejected 1 (OpenSession (mkOpenSessionRequest "guess" OPEN_SESSION)) [] []
           (emptyWorld (kv_at 7)) (mkOpenSessionReply EmptyString INVALID_PASSWORD).
Proof.
  destruct (OpenSession_refusals 1 (mkOpenSessionRequest "guess" OPEN_SESSION)
              (emptyWorld (kv_at 7))) as (_ & H & _).
  apply H; [reflexivity | discriminate].
Defined.

(** ** Session identifiers are never reused *)










(** ** A request from submission to reply *)






